(** * python-drbg: the SP 800-90A generators of [drbg.py]

    A shallow embedding of [src/drbg.py] (CTR_DRBG, Hash_DRBG, HMAC_DRBG,
    the auto-reseeding [RandomByteGenerator] and the factory [new]) with
    the properties of the specification stated over it.

    Conventions of the embedding.
    - [bytes]/[bytearray] values are [list byte]; Python [int]s are [Z];
      [len] is the length as a [Z];  [//] is [Z.div] and [%] is [Z.modulo]
      (both floor, as in Python).
    - An optional argument ([data=None]) is an [option bytes]; the test
      [if data:] is [truthy] (neither [None] nor empty).
    - A method that can raise returns a [result]; a method that mutates
      [self] returns the outcome together with the object as it is left,
      so a partial mutation before a [raise] stays visible.
    - A [while] loop runs on fuel; exhausted fuel is the outcome
      [Diverges].  Theorems that promise a result prove it is not that.
    - The primitives the module imports (hashlib digests, [hmac.new],
      the AES block cipher, [os.urandom]) are opaque; they are the fields
      of the class [Primitives], and what is known of their output sizes
      is the class [PrimitivesSpec]. *)

From Stdlib Require Import ZArith String Ascii DecimalString List Bool Lia.
From Stdlib Require Import Strings.Byte.
Import ListNotations.
Open Scope Z_scope.

(** ** Python values *)

Definition bytes := list byte.

Definition len {A : Type} (l : list A) : Z := Z.of_nat (length l).

Definition Z_of_byte (b : byte) : Z := Z.of_N (Byte.to_N b).

Definition byte_of_Z (z : Z) : byte :=
  match Byte.of_N (Z.to_N (z mod 256)) with
  | Some b => b
  | None => x00
  end.

(** [b'\x00' * n]: empty when [n <= 0]. *)
Definition zeros (n : Z) : bytes := repeat x00 (Z.to_nat n).

(** [b'\x01' * n] *)
Definition ones (n : Z) : bytes := repeat x01 (Z.to_nat n).

(** The slice [l[:k]]; a negative [k] counts from the end. *)
Definition slice_to {A : Type} (l : list A) (k : Z) : list A :=
  if k <? 0 then firstn (Z.to_nat (len l + k)) l else firstn (Z.to_nat k) l.

(** The slice [l[k:]]; a negative [k] counts from the end. *)
Definition slice_from {A : Type} (l : list A) (k : Z) : list A :=
  if k <? 0 then skipn (Z.to_nat (len l + k)) l else skipn (Z.to_nat k) l.

(** [if data:] on an optional byte string. *)
Definition truthy (data : option bytes) : bool :=
  match data with
  | Some (_ :: _) => true
  | _ => false
  end.

(** [data or b''] *)
Definition or_empty (data : option bytes) : bytes :=
  match data with
  | Some d => d
  | None => []
  end.

(** [int(math.ceil(a / float(b)))].  The quotient is taken exactly: for
    [|a| < 2^53] and the digest widths used here the float division is
    either exact or off an integer by more than its rounding error, so the
    ceiling of the float is the ceiling of the rational.  From [2^53] on
    the float quotient rounds, and from [2^1024] on the conversion raises
    [OverflowError]: a statement about an argument the code does not bound
    itself carries the bound [a < 2^53]. *)
Definition ceil_div (a b : Z) : Z := - ((- a) / b).

(** ** Exceptions and outcomes *)

(** The built-in exceptions the module raises and the three classes it
    declares ([Error], [UnknownAlgorithm], [ReseedRequired]). *)
Inductive exn : Type :=
| ValueError (msg : string)
| TypeError (msg : string)
| RuntimeError (msg : string)
| Error
| UnknownAlgorithm
| ReseedRequired.

Inductive result (A : Type) : Type :=
| Ok (a : A)
| Raise (e : exn)
| Diverges.

Arguments Ok {A} a.
Arguments Raise {A} e.
Arguments Diverges {A}.

Definition bind {A B : Type} (r : result A) (k : A -> result B) : result B :=
  match r with
  | Ok a => k a
  | Raise e => Raise e
  | Diverges => Diverges
  end.

Notation "x <- r ;; k" := (bind r (fun x => k))
  (at level 61, r at next level, right associativity).

(** The names the specification gives to the errors of [DRBG.generate]. *)
Definition InvalidRequest : exn := ValueError "Count out of range.".
Definition InvalidInput : exn := ValueError "Too much data.".

(** ** Module constants *)

Definition DIGESTS : list string :=
  ["sha1"; "sha224"; "sha256"; "sha384"; "sha512"]%string.

Definition CIPHERS : list string := ["aes128"; "aes192"; "aes256"]%string.

Definition MAX_ENTROPY_LENGTH : Z := 2 ^ 21.

Definition RESEED_INTERVAL : Z := 2.

(** [name in L] for a list of strings. *)
Definition str_in (name : string) (L : list string) : bool :=
  existsb (String.eqb name) L.

(** ** Byte/integer codec *)

(** [int.from_bytes(b, 'big')] *)
Definition bytes2long (b : bytes) : Z :=
  fold_left (fun num x => num * 256 + Z_of_byte x) b 0.

(** The digits of [hex(l)[2:]], most significant first, as numbers below 16. *)
Fixpoint hex_digits_from (fuel : nat) (l : Z) (acc : list Z) : list Z :=
  match fuel with
  | O => l :: acc
  | S f => if l <? 16 then l :: acc
           else hex_digits_from f (l / 16) (l mod 16 :: acc)
  end.

Definition hex (l : Z) : list Z := hex_digits_from (Z.to_nat (Z.log2 l)) l [].

(** [bytes.fromhex] on an even number of digits. *)
Fixpoint fromhex (ds : list Z) : bytes :=
  match ds with
  | hi :: lo :: rest => byte_of_Z (16 * hi + lo) :: fromhex rest
  | _ => []
  end.

Definition long2bytes (l : Z) : bytes :=
  let as_hex := hex l in
  let as_hex := if Nat.even (length as_hex) then as_hex else 0 :: as_hex in
  fromhex as_hex.

(** Pad [b] to length [L] by prepending zero bytes. *)
Definition bytepad (b : bytes) (L : Z) : bytes :=
  if len b <? L then zeros (L - len b) ++ b else b.

(** [Crypto.Util.strxor.strxor]: the operands must have equal length. *)
Definition xor_byte (a b : byte) : byte :=
  byte_of_Z (Z.lxor (Z_of_byte a) (Z_of_byte b)).

Fixpoint xor_bytes (a b : bytes) : bytes :=
  match a, b with
  | x :: a', y :: b' => xor_byte x y :: xor_bytes a' b'
  | _, _ => []
  end.

Definition strxor (a b : bytes) : result bytes :=
  if len a =? len b then Ok (xor_bytes a b)
  else Raise (ValueError "length of both strings must be equal").

(** ** The imported primitives *)

Class Primitives : Type := {
  (** [getattr(hashlib, name)(m).digest()] *)
  hashlib : string -> bytes -> bytes;
  (** [hmac.new(K, m, digestmod=getattr(hashlib, name)).digest()] *)
  hmac_new : string -> bytes -> bytes -> bytes;
  (** [Crypto.Cipher.AES.new(K).encrypt(block)] *)
  AES_encrypt : bytes -> bytes -> bytes;
  (** [os.urandom(n)] at the [k]-th call of the run *)
  os_urandom : nat -> Z -> bytes
}.

(** [getattr(hashlib, name)().digest_size] *)
Definition digest_size (name : string) : Z :=
  if String.eqb name "sha1" then 20
  else if String.eqb name "sha224" then 28
  else if String.eqb name "sha256" then 32
  else if String.eqb name "sha384" then 48
  else if String.eqb name "sha512" then 64
  else 0.

Class PrimitivesSpec (P : Primitives) : Prop := {
  hashlib_len : forall name m,
    str_in name DIGESTS = true -> len (hashlib name m) = digest_size name;
  hmac_new_len : forall name K m,
    str_in name DIGESTS = true -> len (hmac_new name K m) = digest_size name;
  AES_encrypt_len : forall K block,
    len block = 16 -> len (AES_encrypt K block) = 16;
  os_urandom_len : forall k n, 0 <= n -> len (os_urandom k n) = n
}.

(** ** Strings: the operations [drbg.py] applies to algorithm names *)

(** [str.lower] on ASCII letters (algorithm names are ASCII). *)
Definition lower_ascii (c : ascii) : ascii :=
  let n := nat_of_ascii c in
  if (65 <=? n)%nat && (n <=? 90)%nat then ascii_of_nat (n + 32) else c.

Fixpoint lower (s : string) : string :=
  match s with
  | EmptyString => EmptyString
  | String c rest => String (lower_ascii c) (lower rest)
  end.

Definition is_digit (c : ascii) : bool :=
  let n := nat_of_ascii c in (48 <=? n)%nat && (n <=? 57)%nat.

(** [name[k:]] for [k >= 0] *)
Definition str_from (k : nat) (s : string) : string :=
  substring k (String.length s - k) s.

(** [name.endswith(suffix)] *)
Definition endswith (s suffix : string) : bool :=
  (String.length suffix <=? String.length s)%nat &&
  String.eqb (str_from (String.length s - String.length suffix) s) suffix.

(** ['{}'.format(z)] for an integer. *)
Definition str_of_int (z : Z) : string := NilZero.string_of_int (Z.to_int z).

(** [int(s)] for a string of decimal digits. *)
Fixpoint int_digits (s : string) (acc : Z) : Z :=
  match s with
  | EmptyString => acc
  | String c rest => int_digits rest (acc * 10 + (Z.of_nat (nat_of_ascii c) - 48))
  end.

Definition int_of_str (s : string) : Z := int_digits s 0.

(** The longest run of at most [n] leading digits, and what follows it. *)
Fixpoint take_digits (n : nat) (s : string) : string * string :=
  match n, s with
  | S n', String c rest =>
      if is_digit c then
        let (ds, tl) := take_digits n' rest in (String c ds, tl)
      else (EmptyString, s)
  | _, _ => (EmptyString, s)
  end.

(** [re.match('(sha[0-9]{1,3})(hmac)?', s)]: the two groups of the match at
    the start of [s].  The digit run is greedy and the second group is
    optional, so the first attempt of the matcher is the answer. *)
Definition re_match (s : string) : option (string * option string) :=
  match s with
  | String "s" (String "h" (String "a" rest)) =>
      let (ds, tl) := take_digits 3 rest in
      match ds with
      | EmptyString => None
      | _ => Some (("sha" ++ ds)%string,
                   if prefix "hmac" tl then Some "hmac"%string else None)
      end
  | _ => None
  end.

(** ** The generators *)

(** [CTRDRBG]: the attributes an instance carries. *)
Record CTRDRBG : Type := mkCTRDRBG {
  ctr_keylen : Z;
  ctr_max_request_size : Z;
  ctr_outlen : Z;
  ctr_seedlen : Z;
  ctr_key : bytes;
  ctr_V : bytes;
  ctr_reseed_counter : Z
}.

(** [HashDRBG]: [hash_digest] is the name bound by [getattr(hashlib, name)]. *)
Record HashDRBG : Type := mkHashDRBG {
  hash_digest : string;
  hash_max_request_size : Z;
  hash_outlen : Z;
  hash_seedlen : Z;
  hash_security_strength : Z;
  hash_V : bytes;
  hash_C : bytes;
  hash_reseed_counter : Z
}.

Record HMACDRBG : Type := mkHMACDRBG {
  hmac_digest : string;
  hmac_max_request_size : Z;
  hmac_outlen : Z;
  hmac_seedlen : Z;
  hmac_security_strength : Z;
  hmac_key : bytes;
  hmac_V : bytes;
  hmac_reseed_counter : Z
}.

(** An instance of one of the three subclasses of [DRBG]. *)
Inductive DRBG : Type :=
| CTR_DRBG (self : CTRDRBG)
| Hash_DRBG (self : HashDRBG)
| HMAC_DRBG (self : HMACDRBG).

Definition max_request_size (g : DRBG) : Z :=
  match g with
  | CTR_DRBG s => ctr_max_request_size s
  | Hash_DRBG s => hash_max_request_size s
  | HMAC_DRBG s => hmac_max_request_size s
  end.

Definition outlen (g : DRBG) : Z :=
  match g with
  | CTR_DRBG s => ctr_outlen s
  | Hash_DRBG s => hash_outlen s
  | HMAC_DRBG s => hmac_outlen s
  end.

Definition reseed_counter (g : DRBG) : Z :=
  match g with
  | CTR_DRBG s => ctr_reseed_counter s
  | Hash_DRBG s => hash_reseed_counter s
  | HMAC_DRBG s => hmac_reseed_counter s
  end.

Definition ctr_set_state (s : CTRDRBG) (Key V : bytes) : CTRDRBG :=
  mkCTRDRBG (ctr_keylen s) (ctr_max_request_size s) (ctr_outlen s)
            (ctr_seedlen s) Key V (ctr_reseed_counter s).

Definition hash_set_V (s : HashDRBG) (V : bytes) : HashDRBG :=
  mkHashDRBG (hash_digest s) (hash_max_request_size s) (hash_outlen s)
             (hash_seedlen s) (hash_security_strength s) V (hash_C s)
             (hash_reseed_counter s).

Definition hash_set_C (s : HashDRBG) (C : bytes) : HashDRBG :=
  mkHashDRBG (hash_digest s) (hash_max_request_size s) (hash_outlen s)
             (hash_seedlen s) (hash_security_strength s) (hash_V s) C
             (hash_reseed_counter s).

Definition hmac_set_state (s : HMACDRBG) (Key V : bytes) : HMACDRBG :=
  mkHMACDRBG (hmac_digest s) (hmac_max_request_size s) (hmac_outlen s)
             (hmac_seedlen s) (hmac_security_strength s) Key V
             (hmac_reseed_counter s).

(** [self.reseed_counter = n] *)
Definition set_reseed_counter (g : DRBG) (n : Z) : DRBG :=
  match g with
  | CTR_DRBG s =>
      CTR_DRBG (mkCTRDRBG (ctr_keylen s) (ctr_max_request_size s)
                          (ctr_outlen s) (ctr_seedlen s) (ctr_key s) (ctr_V s) n)
  | Hash_DRBG s =>
      Hash_DRBG (mkHashDRBG (hash_digest s) (hash_max_request_size s)
                            (hash_outlen s) (hash_seedlen s)
                            (hash_security_strength s) (hash_V s) (hash_C s) n)
  | HMAC_DRBG s =>
      HMAC_DRBG (mkHMACDRBG (hmac_digest s) (hmac_max_request_size s)
                            (hmac_outlen s) (hmac_seedlen s)
                            (hmac_security_strength s) (hmac_key s) (hmac_V s) n)
  end.

(** The secret working state [(Key, V)] or [(V, C)] of an instance. *)
Definition working_state (g : DRBG) : bytes * bytes :=
  match g with
  | CTR_DRBG s => (ctr_key s, ctr_V s)
  | Hash_DRBG s => (hash_V s, hash_C s)
  | HMAC_DRBG s => (hmac_key s, hmac_V s)
  end.

Section Generators.

Context {P : Primitives}.

(** *** CTR_DRBG *)

(** The [while len(temp) < self.seedlen] loop of [CTRDRBG.__update]. *)
Fixpoint CTRDRBG_update_loop (fuel : nat) (self_outlen self_seedlen : Z)
    (Key V temp : bytes) : option (bytes * bytes) :=
  match fuel with
  | O => None
  | S fuel' =>
      if len temp <? self_seedlen then
        let V := long2bytes ((bytes2long V + 1) mod 2 ^ self_outlen) in
        let temp := temp ++ AES_encrypt Key (bytepad V (self_outlen / 8)) in
        CTRDRBG_update_loop fuel' self_outlen self_seedlen Key V temp
      else Some (V, temp)
  end.

(** [CTRDRBG.__update(provided_data, Key, V)], returning [(Key, V)]. *)
Definition CTRDRBG_update (self : CTRDRBG) (provided_data Key V : bytes)
    : result (bytes * bytes) :=
  match CTRDRBG_update_loop (S (Z.to_nat (ctr_seedlen self)))
          (ctr_outlen self) (ctr_seedlen self) Key V [] with
  | None => Diverges
  | Some (V, temp) =>
      temp <- strxor (slice_to temp (ctr_seedlen self))
                     (bytepad provided_data (ctr_seedlen self)) ;;
      let Key := slice_to temp (ctr_keylen self / 8) in
      let V := slice_from temp ((- ctr_outlen self) / 8) in
      Ok (Key, V)
  end.

(** [CTRDRBG.__init__(name, entropy, data)] *)
Definition CTRDRBG_init (name : string) (entropy : bytes) (data : option bytes)
    : result CTRDRBG :=
  let name := lower name in
  if negb (str_in name CIPHERS) then
    Raise (ValueError ("Unknown cipher: " ++ name))
  else
    let keylen := int_of_str (str_from 3 name) in
    let max_request_size := 2 ^ 13 in
    let outlen := 128 in
    let seedlen := (outlen + keylen) / 8 in
    if negb (len entropy =? seedlen) then
      Raise (ValueError ("Entropy should be exachtly " ++ str_of_int seedlen
                         ++ " bytes long"))
    else
      seed_material <-
        (if truthy data then
           let data := or_empty data in
           if seedlen <? len data then
             Raise (ValueError ("Only " ++ str_of_int seedlen
                                ++ " bytes of data supported."))
           else
             let delta := len entropy - len data in
             let data := if 0 <? delta then zeros delta ++ data else data in
             strxor entropy data
         else Ok entropy) ;;
      let Key := zeros (keylen / 8) in
      let V := zeros (outlen / 8) in
      let self := mkCTRDRBG keylen max_request_size outlen seedlen [] [] 1 in
      kv <- CTRDRBG_update self seed_material Key V ;;
      Ok (ctr_set_state self (fst kv) (snd kv)).

(** The [while len(temp) < count] loop of [CTRDRBG._generate]. *)
Fixpoint CTRDRBG_generate_loop (fuel : nat) (self_outlen count : Z)
    (K V temp : bytes) : option (bytes * bytes) :=
  match fuel with
  | O => None
  | S fuel' =>
      if len temp <? count then
        let V := long2bytes ((bytes2long V + 1) mod 2 ^ self_outlen) in
        let V := if len V <? self_outlen / 8
                 then zeros (self_outlen / 8 - len V) ++ V else V in
        let temp := temp ++ AES_encrypt K V in
        CTRDRBG_generate_loop fuel' self_outlen count K V temp
      else Some (V, temp)
  end.

(** [CTRDRBG._generate(count, data)] *)
Definition CTRDRBG_generate (count : Z) (data : option bytes) (self : CTRDRBG)
    : result bytes * CTRDRBG :=
  if truthy data && (ctr_seedlen self <? len (or_empty data)) then
    (Raise (ValueError "Too much data."), self)
  else
    (* the [if data:] block: first the padding of [data], then the update *)
    let data :=
      if truthy data
      then Some (or_empty data ++ zeros (ctr_seedlen self - len (or_empty data)))
      else data in
    let first :=
      if truthy data then
        kv <- CTRDRBG_update self (or_empty data) (ctr_key self) (ctr_V self) ;;
        Ok (ctr_set_state self (fst kv) (snd kv))
      else Ok self in
    match first with
    | Raise e => (Raise e, self)
    | Diverges => (Diverges, self)
    | Ok self =>
        match CTRDRBG_generate_loop (S (Z.to_nat count)) (ctr_outlen self) count
                (ctr_key self) (ctr_V self) [] with
        | None => (Diverges, self)
        | Some (V, temp) =>
            match CTRDRBG_update self (or_empty data) (ctr_key self) V with
            | Raise e => (Raise e, self)
            | Diverges => (Diverges, self)
            | Ok kv => (Ok (slice_to temp count),
                        ctr_set_state self (fst kv) (snd kv))
            end
        end
    end.

(** [CTRDRBG._reseed(entropy, data)] *)
Definition CTRDRBG_reseed (entropy : bytes) (data : option bytes)
    (self : CTRDRBG) : result unit * CTRDRBG :=
  if truthy data && (ctr_seedlen self <? len (or_empty data)) then
    (Raise (ValueError "Too much data."), self)
  else if negb (len entropy =? ctr_seedlen self) then
    (Raise (ValueError "Too much entropy."), self)
  else
    let seed_material :=
      if truthy data
      then strxor entropy (bytepad (or_empty data) (ctr_seedlen self))
      else Ok entropy in
    match seed_material <- seed_material ;;
          CTRDRBG_update self seed_material (ctr_key self) (ctr_V self) with
    | Raise e => (Raise e, self)
    | Diverges => (Diverges, self)
    | Ok kv => (Ok tt, ctr_set_state self (fst kv) (snd kv))
    end.

(** *** Hash_DRBG *)

(** [HashDRBG.__df(input_string, output_bitlen)]; [digest] and [outlen]
    are the attributes of [self] it reads. *)
Definition HashDRBG_df (digest : string) (self_outlen : Z)
    (input_string : bytes) (output_bitlen : Z) : bytes :=
  let iterations := ceil_div output_bitlen self_outlen in
  let output :=
    fold_left
      (fun output counter =>
         let data := bytepad (long2bytes output_bitlen) 4 in
         output ++ hashlib digest
                     (byte_of_Z ((Z.of_nat counter + 1) mod 255)
                        :: data ++ input_string))
      (seq 0 (Z.to_nat iterations)) [] in
  slice_to output ((output_bitlen + 4) / 8).

(** [HashDRBG.__init__(name, entropy, nonce, data)] *)
Definition HashDRBG_init (name : string) (entropy nonce : bytes)
    (data : option bytes) : result HashDRBG :=
  if negb (str_in name DIGESTS) then
    Raise (RuntimeError ("Unknown digest " ++ name))
  else
    let max_request_size := 2 ^ 16 in
    let outlen := 8 * digest_size name in
    let seedlen := if 256 <? outlen then 888 else 440 in
    let security_strength := outlen / 2 in
    let data := or_empty data in
    let V := HashDRBG_df name outlen (entropy ++ nonce ++ data) seedlen in
    let C := HashDRBG_df name outlen (x00 :: V) seedlen in
    Ok (mkHashDRBG name max_request_size outlen seedlen security_strength V C 1).

(** [HashDRBG._reseed(entropy, data)] *)
Definition HashDRBG_reseed (entropy : bytes) (data : option bytes)
    (self : HashDRBG) : HashDRBG :=
  let data := or_empty data in
  let self :=
    hash_set_V self
      (HashDRBG_df (hash_digest self) (hash_outlen self)
         (x01 :: hash_V self ++ entropy ++ data) (hash_seedlen self)) in
  hash_set_C self
    (HashDRBG_df (hash_digest self) (hash_outlen self)
       (x00 :: hash_V self) (hash_seedlen self)).

(** The local function [hashgen(req, V)] of [HashDRBG._generate]. *)
Definition hashgen (self : HashDRBG) (count count_bits : Z) (V : bytes)
    : bytes :=
  let m := ceil_div count_bits (hash_outlen self) in
  let '(w, _) :=
    fold_left
      (fun (st : bytes * bytes) (_ : nat) =>
         let '(w, data) := st in
         (w ++ hashlib (hash_digest self)
                 (bytepad data (hash_seedlen self / 8)),
          long2bytes ((bytes2long data + 1) mod 2 ^ hash_seedlen self)))
      (seq 0 (Z.to_nat m)) ([], V) in
  slice_to w count.

(** The working value [V] that [HashDRBG._generate] hands to [hashgen]:
    the branch on [data is not None]. *)
Definition HashDRBG_working_V (data : option bytes) (self : HashDRBG) : bytes :=
  match data with
  | Some data =>
      let w := hashlib (hash_digest self) (x02 :: hash_V self ++ data) in
      let V := long2bytes ((bytes2long (hash_V self) + bytes2long w)
                           mod 2 ^ hash_seedlen self) in
      if len V <? hash_seedlen self / 8
      then zeros (hash_seedlen self / 8 - len V) ++ V else V
  | None => hash_V self
  end.

(** [HashDRBG._generate(count, data)] *)
Definition HashDRBG_generate (count : Z) (data : option bytes)
    (self : HashDRBG) : bytes * HashDRBG :=
  let count_bits := 8 * count in
  let V := HashDRBG_working_V data self in
  let out := hashgen self count count_bits V in
  let H := hashlib (hash_digest self) (x03 :: V) in
  let V := long2bytes ((bytes2long V + bytes2long H + bytes2long (hash_C self)
                        + hash_reseed_counter self) mod 2 ^ hash_seedlen self) in
  let V := if len V <? hash_seedlen self / 8
           then zeros (hash_seedlen self / 8 - len V) ++ V else V in
  (out, hash_set_V self V).

(** *** HMAC_DRBG *)

(** [HMACDRBG._mac(K, V, *Vs)] *)
Definition HMACDRBG_mac (digest : string) (K V : bytes)
    (Vs : list (option bytes)) : bytes :=
  let value :=
    V ++ concat (map or_empty
                   (filter (fun v => match v with Some _ => true | None => false end)
                           Vs)) in
  hmac_new digest K value.

(** [HMACDRBG.__update(K, V, *data)] *)
Definition HMACDRBG_update (digest : string) (K V : bytes)
    (data : list (option bytes)) : bytes * bytes :=
  let data := filter truthy data in
  let K := HMACDRBG_mac digest K V (Some [x00] :: data) in
  let V := HMACDRBG_mac digest K V [] in
  match data with
  | [] => (K, V)
  | _ :: _ =>
      let K := HMACDRBG_mac digest K V (Some [x01] :: data) in
      let V := HMACDRBG_mac digest K V [] in
      (K, V)
  end.

(** [HMACDRBG.__init__(name, entropy, nonce, data)] *)
Definition HMACDRBG_init (name : string) (entropy nonce : bytes)
    (data : option bytes) : result HMACDRBG :=
  let name := if endswith name "hmac"
              then substring 0 (String.length name - 4) name else name in
  if negb (str_in name DIGESTS) then
    Raise (RuntimeError ("Unknown digest " ++ name))
  else
    let max_request_size := 2 ^ 16 in
    let self_outlen := 8 * digest_size name in
    let seedlen := if 256 <? self_outlen then 888 else 440 in
    let security_strength := self_outlen / 2 in
    let outlen := self_outlen / 8 in
    let kv := HMACDRBG_update name (zeros outlen) (ones outlen)
                [Some entropy; Some nonce; data] in
    Ok (mkHMACDRBG name max_request_size self_outlen seedlen security_strength
                   (fst kv) (snd kv) 1).

(** The [while len(out) < count] loop of [HMACDRBG._generate]. *)
Fixpoint HMACDRBG_generate_loop (fuel : nat) (digest : string) (count : Z)
    (K V out : bytes) : option (bytes * bytes) :=
  match fuel with
  | O => None
  | S fuel' =>
      if len out <? count then
        let V := HMACDRBG_mac digest K V [] in
        HMACDRBG_generate_loop fuel' digest count K V (out ++ V)
      else Some (V, out)
  end.

(** [HMACDRBG._generate(count, data)] *)
Definition HMACDRBG_generate (count : Z) (data : option bytes)
    (self : HMACDRBG) : result bytes * HMACDRBG :=
  let '(K, V) :=
    if truthy data
    then HMACDRBG_update (hmac_digest self) (hmac_key self) (hmac_V self) [data]
    else (hmac_key self, hmac_V self) in
  match HMACDRBG_generate_loop (S (Z.to_nat count)) (hmac_digest self) count
          K V [] with
  | None => (Diverges, self)
  | Some (V, out) =>
      let kv := HMACDRBG_update (hmac_digest self) K V [data] in
      (Ok (slice_to out count), hmac_set_state self (fst kv) (snd kv))
  end.

(** [HMACDRBG.reseed(entropy_input, additional_input)]: the override of
    [DRBG.reseed]. *)
Definition HMACDRBG_reseed (entropy_input : bytes)
    (additional_input : option bytes) (self : HMACDRBG) : HMACDRBG :=
  let kv := HMACDRBG_update (hmac_digest self) (hmac_key self) (hmac_V self)
              [Some entropy_input; additional_input] in
  hmac_set_state self (fst kv) (snd kv).

(** *** The base class [DRBG] *)

(** The subclass's [_generate], by dynamic dispatch. *)
Definition _generate (count : Z) (data : option bytes) (g : DRBG)
    : result bytes * DRBG :=
  match g with
  | CTR_DRBG s =>
      let (r, s') := CTRDRBG_generate count data s in (r, CTR_DRBG s')
  | Hash_DRBG s =>
      let (out, s') := HashDRBG_generate count data s in (Ok out, Hash_DRBG s')
  | HMAC_DRBG s =>
      let (r, s') := HMACDRBG_generate count data s in (r, HMAC_DRBG s')
  end.

(** The subclass's [_reseed]; [HMACDRBG] defines none and inherits the
    empty one of [DRBG]. *)
Definition _reseed (entropy : bytes) (data : option bytes) (g : DRBG)
    : result unit * DRBG :=
  match g with
  | CTR_DRBG s =>
      let (r, s') := CTRDRBG_reseed entropy data s in (r, CTR_DRBG s')
  | Hash_DRBG s => (Ok tt, Hash_DRBG (HashDRBG_reseed entropy data s))
  | HMAC_DRBG s => (Ok tt, HMAC_DRBG s)
  end.

(** [DRBG.generate(count, data)].  The [isinstance] test cannot fail on an
    [option bytes]. *)
Definition DRBG_generate (count : Z) (data : option bytes) (g : DRBG)
    : result bytes * DRBG :=
  if negb ((0 <? count) && (count <? max_request_size g)) then
    (Raise (ValueError "Count out of range."), g)
  else if match data with
          | Some d => MAX_ENTROPY_LENGTH <? len d
          | None => false
          end then
    (Raise (ValueError "Too much data."), g)
  else if RESEED_INTERVAL <? reseed_counter g then
    (Raise ReseedRequired, g)
  else
    match _generate count data g with
    | (Ok out, g') => (Ok out, set_reseed_counter g' (reseed_counter g' + 1))
    | (Raise e, g') => (Raise e, g')
    | (Diverges, g') => (Diverges, g')
    end.

(** [DRBG.reseed(entropy, data)] *)
Definition DRBG_reseed (entropy : bytes) (data : option bytes) (g : DRBG)
    : result unit * DRBG :=
  match _reseed entropy data g with
  | (Ok _, g') => (Ok tt, set_reseed_counter g' 1)
  | (Raise e, g') => (Raise e, g')
  | (Diverges, g') => (Diverges, g')
  end.

(** [g.generate(count, data)] on an instance: no subclass overrides it. *)
Definition generate (count : Z) (data : option bytes) (g : DRBG)
    : result bytes * DRBG :=
  DRBG_generate count data g.

(** [g.reseed(entropy, data)] on an instance: [HMACDRBG] overrides
    [reseed] itself, the other two inherit [DRBG.reseed]. *)
Definition reseed (entropy : bytes) (data : option bytes) (g : DRBG)
    : result unit * DRBG :=
  match g with
  | HMAC_DRBG s => (Ok tt, HMAC_DRBG (HMACDRBG_reseed entropy data s))
  | _ => DRBG_reseed entropy data g
  end.

(** *** The auto-reseeding wrapper [RandomByteGenerator] *)

Record RandomByteGenerator : Type := mkRandomByteGenerator {
  drbg : DRBG;
  _buf : bytes;
  _buf_index : Z
}.

(** The loop of [RandomByteGenerator._get_bytes].  [g] is [self.drbg] and
    [k] counts the calls of [os.urandom] made so far. *)
Fixpoint get_bytes_loop (fuel : nat) (max_request count : Z) (buf : bytes)
    (g : DRBG) (k : nat) : result bytes * (DRBG * nat) :=
  match fuel with
  | O => (Diverges, (g, k))
  | S fuel' =>
      if 0 <? count then
        let count_ := if max_request <? count then max_request else count in
        match generate count_ None g with
        | (Ok out, g') =>
            get_bytes_loop fuel' max_request (count - count_) (buf ++ out) g' k
        | (Raise ReseedRequired, g') =>
            match reseed (os_urandom k 32) None g' with
            | (Ok _, g'') => get_bytes_loop fuel' max_request count buf g'' (S k)
            | (Raise e, g'') => (Raise e, (g'', S k))
            | (Diverges, g'') => (Diverges, (g'', S k))
            end
        | (Raise e, g') => (Raise e, (g', k))
        | (Diverges, g') => (Diverges, (g', k))
        end
      else (Ok buf, (g, k))
  end.

(** [RandomByteGenerator._get_bytes(count)] *)
Definition _get_bytes (fuel : nat) (count : Z) (self : RandomByteGenerator)
    (k : nat) : result bytes * (RandomByteGenerator * nat) :=
  let max_request := max_request_size (drbg self) in
  let '(r, (g, k)) := get_bytes_loop fuel max_request count [] (drbg self) k in
  (r, (mkRandomByteGenerator g (_buf self) (_buf_index self), k)).

(** [RandomByteGenerator.generate(count=None)] *)
Definition RandomByteGenerator_generate (fuel : nat) (count : option Z)
    (self : RandomByteGenerator) (k : nat)
    : result bytes * (RandomByteGenerator * nat) :=
  let count := match count with
               | Some c => c
               | None => outlen (drbg self) / 8
               end in
  _get_bytes fuel count self k.

(** *** The factory [new] *)

(** [new(name, personalization_string)]; the value is [None] when the
    function falls through to [return drbg] with [drbg = None].  [k] counts
    the calls of [os.urandom] made before. *)
Definition new (name : string) (personalization_string : option bytes)
    (k : nat) : result (option DRBG) :=
  let entropy := os_urandom k 128 in
  let nonce := os_urandom (S k) 128 in
  match re_match (lower name) with
  | Some (digest, group2) =>
      let use_hmac := match group2 with Some _ => true | None => false end in
      if negb (str_in digest DIGESTS) then
        Raise (ValueError ("Unsupported digest " ++ digest))
      else if use_hmac then
        d <- HMACDRBG_init digest entropy nonce personalization_string ;;
        Ok (Some (HMAC_DRBG d))
      else Ok None
  | None => Ok None
  end.

(** *** Sessions: a constructor call followed by [generate] calls *)

Inductive constructor_call : Type :=
| New_CTRDRBG (name : string) (entropy : bytes) (data : option bytes)
| New_HashDRBG (name : string) (entropy nonce : bytes) (data : option bytes)
| New_HMACDRBG (name : string) (entropy nonce : bytes) (data : option bytes).

Definition construct (c : constructor_call) : result DRBG :=
  match c with
  | New_CTRDRBG name entropy data =>
      s <- CTRDRBG_init name entropy data ;; Ok (CTR_DRBG s)
  | New_HashDRBG name entropy nonce data =>
      s <- HashDRBG_init name entropy nonce data ;; Ok (Hash_DRBG s)
  | New_HMACDRBG name entropy nonce data =>
      s <- HMACDRBG_init name entropy nonce data ;; Ok (HMAC_DRBG s)
  end.

(** The outcomes of a sequence of [generate(count, data)] calls on [g]. *)
Fixpoint generate_all (calls : list (Z * option bytes)) (g : DRBG)
    : list (result bytes) :=
  match calls with
  | [] => []
  | (count, data) :: rest =>
      let (r, g') := generate count data g in r :: generate_all rest g'
  end.

End Generators.

(** ** Well-formed instances

    What the constructors establish and [generate]/[reseed] keep: the
    parameters fixed by the cipher or digest, and the widths of the
    working state. *)

(** The parameters [CTRDRBG.__init__] derives from the cipher name. *)
Definition ctr_params (s : CTRDRBG) : Prop :=
  (ctr_keylen s = 128 \/ ctr_keylen s = 192 \/ ctr_keylen s = 256) /\
  ctr_max_request_size s = 2 ^ 13 /\
  ctr_outlen s = 128 /\
  ctr_seedlen s = (ctr_outlen s + ctr_keylen s) / 8.

Definition wf_CTRDRBG (s : CTRDRBG) : Prop :=
  ctr_params s /\
  len (ctr_key s) = ctr_keylen s / 8 /\
  len (ctr_V s) = ctr_outlen s / 8.

Definition wf_HashDRBG (s : HashDRBG) : Prop :=
  str_in (hash_digest s) DIGESTS = true /\
  hash_max_request_size s = 2 ^ 16 /\
  hash_outlen s = 8 * digest_size (hash_digest s) /\
  hash_seedlen s = (if 256 <? hash_outlen s then 888 else 440) /\
  len (hash_V s) = hash_seedlen s / 8 /\
  len (hash_C s) = hash_seedlen s / 8.

Definition wf_HMACDRBG (s : HMACDRBG) : Prop :=
  str_in (hmac_digest s) DIGESTS = true /\
  hmac_max_request_size s = 2 ^ 16 /\
  hmac_outlen s = 8 * digest_size (hmac_digest s) /\
  len (hmac_key s) = hmac_outlen s / 8 /\
  len (hmac_V s) = hmac_outlen s / 8.

Definition wf (g : DRBG) : Prop :=
  match g with
  | CTR_DRBG s => wf_CTRDRBG s
  | Hash_DRBG s => wf_HashDRBG s
  | HMAC_DRBG s => wf_HMACDRBG s
  end.

(** Additional input the instance accepts in [generate]: within
    [MAX_ENTROPY_LENGTH], and for CTR_DRBG within [seedlen]. *)
Definition data_accepted (g : DRBG) (data : option bytes) : Prop :=
  match data with
  | None => True
  | Some d =>
      len d <= MAX_ENTROPY_LENGTH /\
      match g with
      | CTR_DRBG s => len d <= ctr_seedlen s
      | _ => True
      end
  end.

(** ** The derivation function as the specification words it *)

(** The digest blocks for counters [1..n], [n = ceil(output_bitlen / outlen)],
    concatenated. *)
Definition df_blocks {P : Primitives} (digest : string) (self_outlen : Z)
    (input : bytes) (output_bitlen : Z) : bytes :=
  let n := ceil_div output_bitlen self_outlen in
  concat
    (map (fun i =>
            hashlib digest
              (byte_of_Z (Z.of_nat i mod 255)
                 :: bytepad (long2bytes output_bitlen) 4 ++ input))
         (seq 1 (Z.to_nat n))).

(** The blocks truncated to [ceil(output_bitlen / 8)] bytes. *)
Definition df_spec {P : Primitives} (digest : string) (self_outlen : Z)
    (input : bytes) (output_bitlen : Z) : bytes :=
  firstn (Z.to_nat (ceil_div output_bitlen 8))
         (df_blocks digest self_outlen input output_bitlen).

(** ** Stand-in primitives for concrete runs

    Any functions with the right output sizes do; these are not
    cryptographic. *)

(** A small checksum of a message. *)
Definition checksum (m : bytes) : Z :=
  fold_left (fun acc x => (167 * acc + Z_of_byte x + 13) mod 65521) m 7.

Definition test_hashlib (name : string) (m : bytes) : bytes :=
  map (fun i => byte_of_Z ((checksum m + Z.of_nat i) ^ 2 / 11))
      (seq 0 (Z.to_nat (digest_size name))).

Definition test_hmac_new (name : string) (K m : bytes) : bytes :=
  map (fun i => byte_of_Z ((checksum (K ++ x5c :: m) + Z.of_nat i) ^ 2 / 13))
      (seq 0 (Z.to_nat (digest_size name))).

Definition test_AES_encrypt (K block : bytes) : bytes :=
  map (xor_byte (byte_of_Z (checksum K))) block.

Definition test_os_urandom (k : nat) (n : Z) : bytes :=
  map (fun i => byte_of_Z (Z.of_nat k + 7 * Z.of_nat i)) (seq 0 (Z.to_nat n)).

Definition test_primitives : Primitives :=
  Build_Primitives test_hashlib test_hmac_new test_AES_encrypt test_os_urandom.

(** Concrete instances: what the constructors return over
    [test_primitives] on all-zero seeds. *)

Definition example_hmac : HMACDRBG :=
  Eval vm_compute in
    match HMACDRBG_init (P := test_primitives) "sha256" (zeros 32) (zeros 16) None with
    | Ok s => s
    | _ => mkHMACDRBG EmptyString 0 0 0 0 [] [] 0
    end.

Definition example_hash : HashDRBG :=
  Eval vm_compute in
    match HashDRBG_init (P := test_primitives) "sha1" (zeros 32) (zeros 16) None with
    | Ok s => s
    | _ => mkHashDRBG EmptyString 0 0 0 0 [] [] 0
    end.

Definition example_ctr128 : CTRDRBG :=
  Eval vm_compute in
    match CTRDRBG_init (P := test_primitives) "aes128" (zeros 32) None with
    | Ok s => s
    | _ => mkCTRDRBG 0 0 0 0 [] [] 0
    end.

Definition example_ctr256 : CTRDRBG :=
  Eval vm_compute in
    match CTRDRBG_init (P := test_primitives) "AES256" (zeros 48) None with
    | Ok s => s
    | _ => mkCTRDRBG 0 0 0 0 [] [] 0
    end.

(** The instance [g] after [n] calls [generate(1)]. *)
Fixpoint after_generates {P : Primitives} (n : nat) (g : DRBG) : DRBG :=
  match n with
  | O => g
  | S n' => after_generates n' (snd (generate 1 None g))
  end.

(** ** Auxiliary notions for the codec proofs *)

(** The number a list of hexadecimal digits denotes. *)
Definition hex_value (ds : list Z) : Z :=
  fold_left (fun a d => a * 16 + d) ds 0.

Definition hex_digit (d : Z) : Prop := 0 <= d < 16.

(** ** The single-byte iterator of [RandomByteGenerator] *)

(** [buf[i]]: a negative [i] counts from the end; outside the buffer the
    subscript raises [IndexError], here [None]. *)
Definition getitem (buf : bytes) (i : Z) : option byte :=
  let j := if i <? 0 then len buf + i else i in
  if (0 <=? j) && (j <? len buf) then nth_error buf (Z.to_nat j) else None.

(** What a call of [__next__] comes to: a byte, an exception of
    [generate], the [IndexError] of the subscript, or no return. *)
Inductive next_result : Type :=
| Yield (b : byte)
| NextRaise (e : exn)
| IndexError
| NextDiverges.

(** [RandomByteGenerator.__next__()]; [fuel] bounds the loop of the
    [generate()] call that refills the buffer. *)
Definition RandomByteGenerator_next {P : Primitives} (fuel : nat)
    (self : RandomByteGenerator) (k : nat)
    : next_result * (RandomByteGenerator * nat) :=
  let refilled :=
    if _buf_index self =? 0 then
      match RandomByteGenerator_generate fuel None self k with
      | (Ok buf, (self, k)) =>
          (Ok tt, (mkRandomByteGenerator (drbg self) buf (len buf), k))
      | (Raise e, st) => (Raise e, st)
      | (Diverges, st) => (Diverges, st)
      end
    else (Ok tt, (self, k)) in
  match refilled with
  | (Ok _, (self, k)) =>
      let self :=
        mkRandomByteGenerator (drbg self) (_buf self) (_buf_index self - 1) in
      match getitem (_buf self) (_buf_index self) with
      | Some b => (Yield b, (self, k))
      | None => (IndexError, (self, k))
      end
  | (Raise e, st) => (NextRaise e, st)
  | (Diverges, st) => (NextDiverges, st)
  end.

(** [n] successive calls of [__next__], each made on the object as the
    previous one left it. *)
Fixpoint next_many {P : Primitives} (fuel : nat) (n : nat)
    (self : RandomByteGenerator) (k : nat)
    : list next_result * (RandomByteGenerator * nat) :=
  match n with
  | O => ([], (self, k))
  | S n' =>
      let '(r, (self', k')) := RandomByteGenerator_next fuel self k in
      let '(rs, st) := next_many fuel n' self' k' in
      (r :: rs, st)
  end.

(** ** The algorithms in integer arithmetic

    What the three [_generate] loops compute, written over the integers the
    byte strings encode; the theorems below relate the loops to these. *)

(** The [L]-byte big-endian encoding of [n]. *)
Definition encode (L n : Z) : bytes := bytepad (long2bytes n) L.

(** Cipher blocks for the counters [v + 1 .. v + n] modulo [2^128]. *)
Definition ctr_keystream {P : Primitives} (K : bytes) (v : Z) (n : nat)
    : bytes :=
  concat (map (fun i => AES_encrypt K (encode 16 ((v + Z.of_nat i) mod 2 ^ 128)))
              (seq 1 n)).

(** Digests of the counters [v .. v + m - 1] modulo [2^seedlen]. *)
Definition hashgen_stream {P : Primitives} (digest : string) (seedlen : Z)
    (v : Z) (m : nat) : bytes :=
  concat (map (fun i => hashlib digest
                          (encode (seedlen / 8)
                                  ((v + Z.of_nat i) mod 2 ^ seedlen)))
              (seq 0 m)).

(** The chain [V_1 = HMAC(K, V)], [V_(i+1) = HMAC(K, V_i)]. *)
Fixpoint hmac_iter {P : Primitives} (digest : string) (K V : bytes) (i : nat)
    : bytes :=
  match i with
  | O => V
  | S i' => hmac_new digest K (hmac_iter digest K V i')
  end.

Definition hmac_chain {P : Primitives} (digest : string) (K V : bytes)
    (n : nat) : bytes :=
  concat (map (hmac_iter digest K V) (seq 1 n)).

(** [CTRDRBG.__update] over integers: the keystream after the counter
    [v], cut to [seedlen] bytes, xored with the left-padded data and split
    into the new key and the new counter block. *)
Definition ctr_update_arith {P : Primitives} (s : CTRDRBG)
    (provided_data K : bytes) (v : Z) : bytes * bytes :=
  let temp :=
    xor_bytes
      (slice_to (ctr_keystream K v (Z.to_nat (ceil_div (ctr_seedlen s) 16)))
                (ctr_seedlen s))
      (bytepad provided_data (ctr_seedlen s)) in
  (slice_to temp (ctr_keylen s / 8), slice_from temp (- 16)).

(** The part of a sequence of outcomes that returned bytes. *)
Definition returned (r : result bytes) : Prop := exists out, r = Ok out.

(** ** Parameters and widths of an instance *)

(** What an instance is configured with: its class and every attribute
    other than the working state and the reseed counter. *)
Inductive parameters : Type :=
| CTR_parameters (keylen max_request_size outlen seedlen : Z)
| Hash_parameters (digest : string)
    (max_request_size outlen seedlen security_strength : Z)
| HMAC_parameters (digest : string)
    (max_request_size outlen seedlen security_strength : Z).

Definition parameters_of (g : DRBG) : parameters :=
  match g with
  | CTR_DRBG s =>
      CTR_parameters (ctr_keylen s) (ctr_max_request_size s) (ctr_outlen s)
                     (ctr_seedlen s)
  | Hash_DRBG s =>
      Hash_parameters (hash_digest s) (hash_max_request_size s) (hash_outlen s)
                      (hash_seedlen s) (hash_security_strength s)
  | HMAC_DRBG s =>
      HMAC_parameters (hmac_digest s) (hmac_max_request_size s) (hmac_outlen s)
                      (hmac_seedlen s) (hmac_security_strength s)
  end.

(** The lengths, in bytes, of the two strings of the working state:
    [(Key, V)] for CTR_DRBG and HMAC_DRBG, [(V, C)] for Hash_DRBG. *)
Definition state_widths (g : DRBG) : Z * Z :=
  (len (fst (working_state g)), len (snd (working_state g))).

(** ** Runs that cannot be told apart *)

(** The primitives of a second run: the same digest, HMAC and cipher
    functions with another system entropy source. *)
Definition with_os_urandom (P : Primitives) (u : nat -> Z -> bytes)
    : Primitives :=
  Build_Primitives (@hashlib P) (@hmac_new P) (@AES_encrypt P) u.

(** Two constructor calls that choose the same algorithm and pass the same
    bytes.  [CTRDRBG] reads its name through [lower()], [HMACDRBG] takes a
    digest name with or without the suffix [hmac], and the three
    constructors read the personalization data through [if data:],
    [data or b''] or the filter of [__update], never through
    [data is None]: an absent and an empty one are the same input. *)
Definition same_construction (c1 c2 : constructor_call) : Prop :=
  match c1, c2 with
  | New_CTRDRBG n1 e1 d1, New_CTRDRBG n2 e2 d2 =>
      lower n1 = lower n2 /\ e1 = e2 /\ or_empty d1 = or_empty d2
  | New_HashDRBG n1 e1 o1 d1, New_HashDRBG n2 e2 o2 d2 =>
      n1 = n2 /\ e1 = e2 /\ o1 = o2 /\ or_empty d1 = or_empty d2
  | New_HMACDRBG n1 e1 o1 d1, New_HMACDRBG n2 e2 o2 d2 =>
      (n1 = n2 \/ n1 = (n2 ++ "hmac")%string \/ n2 = (n1 ++ "hmac")%string) /\
      e1 = e2 /\ o1 = o2 /\ or_empty d1 = or_empty d2
  | _, _ => False
  end.

(** Whether the instance's [_generate] tells [b''] from [None]: only
    [HashDRBG._generate] tests [data is not None]; [CTRDRBG._generate] and
    [HMACDRBG._generate] test [if data:]. *)
Definition distinguishes_empty (g : DRBG) : bool :=
  match g with
  | Hash_DRBG _ => true
  | _ => false
  end.

(** Two [generate] calls with the same count and the same additional
    input: the same value, or for an instance that tests [if data:] the
    same bytes. *)
Definition same_call (g : DRBG) (a b : Z * option bytes) : Prop :=
  fst a = fst b /\
  (snd a = snd b \/
   (distinguishes_empty g = false /\ or_empty (snd a) = or_empty (snd b))).

(** * Properties *)

(** Case analysis on the scrutinee at the head of the left-hand side of [H]. *)
Ltac head_case H :=
  match type of H with
  | (match ?x with _ => _ end) = _ => destruct x eqn:?
  end.

Lemma Ok_inj {A : Type} (a b : A) : Ok a = Ok b -> a = b.
Proof. intros H. congruence. Qed.

(** ** Lengths of Python byte-string operations *)

Lemma len_nonneg {A : Type} (l : list A) : 0 <= len l.
Proof. unfold len. lia. Qed.

Lemma len_nil {A : Type} : len (@nil A) = 0.
Proof. reflexivity. Qed.

Lemma len_cons {A : Type} (x : A) (l : list A) : len (x :: l) = 1 + len l.
Proof. unfold len. simpl length. lia. Qed.

Lemma len_app {A : Type} (a b : list A) : len (a ++ b) = len a + len b.
Proof. unfold len. rewrite length_app. lia. Qed.

Lemma len_zeros (n : Z) : len (zeros n) = Z.max 0 n.
Proof. unfold len, zeros. rewrite repeat_length. lia. Qed.

Lemma len_ones (n : Z) : len (ones n) = Z.max 0 n.
Proof. unfold len, ones. rewrite repeat_length. lia. Qed.

Lemma len_bytepad (b : bytes) (L : Z) : len (bytepad b L) = Z.max (len b) L.
Proof.
  unfold bytepad. destruct (len b <? L) eqn:E.
  - apply Z.ltb_lt in E. rewrite len_app, len_zeros. lia.
  - apply Z.ltb_ge in E. lia.
Qed.

Lemma len_slice_to {A : Type} (l : list A) (k : Z) :
  0 <= k <= len l -> len (slice_to l k) = k.
Proof.
  intros Hk. unfold slice_to.
  destruct (k <? 0) eqn:E; [apply Z.ltb_lt in E; lia|].
  unfold len in *. rewrite length_firstn. lia.
Qed.

Lemma len_slice_to_le {A : Type} (l : list A) (k : Z) :
  0 <= k -> len (slice_to l k) <= k.
Proof.
  intros Hk. unfold slice_to.
  destruct (k <? 0) eqn:E; [apply Z.ltb_lt in E; lia|].
  unfold len in *. rewrite length_firstn. lia.
Qed.

Lemma len_slice_from_end {A : Type} (l : list A) (k : Z) :
  k < 0 -> - k <= len l -> len (slice_from l k) = - k.
Proof.
  intros Hk Hl. unfold slice_from.
  destruct (k <? 0) eqn:E; [|apply Z.ltb_ge in E; lia].
  unfold len in *. rewrite length_skipn. lia.
Qed.

Lemma len_xor_bytes (a b : bytes) :
  len a = len b -> len (xor_bytes a b) = len a.
Proof.
  revert b. induction a as [|x a IH]; intros [|y b] H; simpl; try reflexivity.
  - rewrite len_cons, len_nil in H. pose proof (len_nonneg a). lia.
  - rewrite !len_cons in *. rewrite IH; lia.
Qed.

Lemma strxor_ok (a b : bytes) :
  len a = len b -> strxor a b = Ok (xor_bytes a b).
Proof. intros H. unfold strxor. rewrite H, Z.eqb_refl. reflexivity. Qed.

(** ** The byte/integer codec *)

Lemma Z_of_byte_range (b : byte) : 0 <= Z_of_byte b < 256.
Proof.
  unfold Z_of_byte. pose proof (Byte.to_N_bounded b). lia.
Qed.

Lemma Z_of_byte_of_Z (z : Z) : Z_of_byte (byte_of_Z z) = z mod 256.
Proof.
  unfold byte_of_Z, Z_of_byte.
  pose proof (Z.mod_pos_bound z 256 ltac:(lia)) as Hb.
  destruct (Byte.of_N (Z.to_N (z mod 256))) as [b|] eqn:E.
  - apply Byte.to_of_N in E. rewrite E. lia.
  - apply Byte.of_N_None_iff in E. lia.
Qed.

Lemma bytes2long_from (b : bytes) (acc : Z) :
  fold_left (fun num x => num * 256 + Z_of_byte x) b acc
  = acc * 256 ^ len b + bytes2long b.
Proof.
  unfold bytes2long. revert acc.
  induction b as [|x b IH]; intros acc.
  - cbn. lia.
  - cbn [fold_left]. rewrite (IH (acc * 256 + Z_of_byte x)).
    rewrite (IH (0 * 256 + Z_of_byte x)).
    rewrite len_cons, Z.pow_add_r by (pose proof (len_nonneg b); lia). lia.
Qed.

Lemma bytes2long_cons (x : byte) (b : bytes) :
  bytes2long (x :: b) = Z_of_byte x * 256 ^ len b + bytes2long b.
Proof.
  unfold bytes2long at 1. simpl fold_left. rewrite bytes2long_from. lia.
Qed.

Lemma bytes2long_app (a b : bytes) :
  bytes2long (a ++ b) = bytes2long a * 256 ^ len b + bytes2long b.
Proof.
  unfold bytes2long at 1. rewrite fold_left_app.
  fold (bytes2long a). apply bytes2long_from.
Qed.

(** A [len b]-byte string decodes to a number below [256 ^ len b]. *)
Lemma bytes2long_range (b : bytes) : 0 <= bytes2long b < 256 ^ len b.
Proof.
  induction b as [|x b IH].
  - cbn. lia.
  - rewrite bytes2long_cons, len_cons.
    pose proof (Z_of_byte_range x). pose proof (len_nonneg b).
    rewrite Z.pow_add_r by lia. nia.
Qed.

Lemma bytes2long_zeros (n : Z) : bytes2long (zeros n) = 0.
Proof.
  unfold zeros. induction (Z.to_nat n) as [|k IH]; [reflexivity|].
  simpl repeat. rewrite bytes2long_cons, IH. reflexivity.
Qed.

(** Left padding does not change the decoded integer. *)
Lemma bytes2long_bytepad (b : bytes) (L : Z) :
  bytes2long (bytepad b L) = bytes2long b.
Proof.
  unfold bytepad. destruct (len b <? L); [|reflexivity].
  rewrite bytes2long_app, bytes2long_zeros. lia.
Qed.

(** *** [hex] and [bytes.fromhex] *)

Lemma hex_value_from (ds : list Z) (acc : Z) :
  fold_left (fun a d => a * 16 + d) ds acc = acc * 16 ^ len ds + hex_value ds.
Proof.
  unfold hex_value. revert acc.
  induction ds as [|d ds IH]; intros acc.
  - cbn. lia.
  - cbn [fold_left].
    rewrite (IH (acc * 16 + d)), (IH (0 * 16 + d)).
    rewrite len_cons, Z.pow_add_r by (pose proof (len_nonneg ds); lia). lia.
Qed.

Lemma hex_value_cons (d : Z) (ds : list Z) :
  hex_value (d :: ds) = d * 16 ^ len ds + hex_value ds.
Proof.
  unfold hex_value at 1. cbn [fold_left]. rewrite hex_value_from. lia.
Qed.

Lemma hex_digits_from_value (fuel : nat) :
  forall l acc,
    hex_value (hex_digits_from fuel l acc) = l * 16 ^ len acc + hex_value acc.
Proof.
  induction fuel as [|f IH]; intros l acc; cbn [hex_digits_from].
  - apply hex_value_cons.
  - destruct (l <? 16); [apply hex_value_cons|].
    rewrite IH, hex_value_cons, len_cons.
    rewrite Z.pow_add_r by (pose proof (len_nonneg acc); lia).
    pose proof (Z.div_mod l 16 ltac:(lia)). nia.
Qed.

Lemma hex_digits_from_digits (fuel : nat) :
  forall l acc,
    0 <= l < 16 ^ (Z.of_nat fuel + 1) ->
    Forall hex_digit acc ->
    Forall hex_digit (hex_digits_from fuel l acc).
Proof.
  induction fuel as [|f IH]; intros l acc Hl Hacc; cbn [hex_digits_from].
  - constructor; [|assumption]. unfold hex_digit. cbn in Hl. lia.
  - destruct (l <? 16) eqn:E.
    + apply Z.ltb_lt in E. constructor; [unfold hex_digit; lia|assumption].
    + apply IH.
      * replace (Z.of_nat (S f) + 1) with (1 + (Z.of_nat f + 1)) in Hl by lia.
        rewrite Z.pow_add_r in Hl by lia.
        split; [apply Z.div_pos; lia|].
        apply Z.div_lt_upper_bound; lia.
      * constructor; [|assumption].
        unfold hex_digit. apply Z.mod_pos_bound. lia.
Qed.

Lemma hex_digits_from_len (fuel : nat) :
  forall l acc k,
    1 <= k -> 0 <= l < 16 ^ k ->
    len (hex_digits_from fuel l acc) <= k + len acc.
Proof.
  induction fuel as [|f IH]; intros l acc k Hk Hl; cbn [hex_digits_from].
  - rewrite len_cons. lia.
  - destruct (l <? 16) eqn:E; [rewrite len_cons; lia|].
    apply Z.ltb_ge in E.
    assert (2 <= k) as Hk2.
    { destruct (Z.eq_dec k 1) as [->|]; [cbn in Hl; lia|lia]. }
    specialize (IH (l / 16) (l mod 16 :: acc) (k - 1) ltac:(lia)).
    rewrite len_cons in IH.
    assert (0 <= l / 16 < 16 ^ (k - 1)) as Hq.
    { replace k with (1 + (k - 1)) in Hl by lia.
      rewrite Z.pow_add_r in Hl by lia.
      split; [apply Z.div_pos; lia|apply Z.div_lt_upper_bound; lia]. }
    specialize (IH Hq). lia.
Qed.

Lemma hex_fuel_enough (l : Z) :
  0 <= l -> l < 16 ^ (Z.of_nat (Z.to_nat (Z.log2 l)) + 1).
Proof.
  intros Hl. pose proof (Z.log2_nonneg l) as Hlog.
  rewrite Z2Nat.id by assumption.
  destruct (Z.eq_dec l 0) as [->|Hnz]; [cbn; lia|].
  destruct (Z.log2_spec l ltac:(lia)) as [_ Hup].
  replace (Z.succ (Z.log2 l)) with (Z.log2 l + 1) in Hup by lia.
  eapply Z.lt_le_trans; [exact Hup|].
  apply Z.pow_le_mono_l. lia.
Qed.

Lemma hex_value_hex (l : Z) : hex_value (hex l) = l.
Proof. unfold hex. rewrite hex_digits_from_value. cbn. lia. Qed.

Lemma hex_digits (l : Z) : 0 <= l -> Forall hex_digit (hex l).
Proof.
  intros Hl. unfold hex. apply hex_digits_from_digits; [|constructor].
  split; [assumption|apply hex_fuel_enough; assumption].
Qed.

Lemma len_hex (l k : Z) : 1 <= k -> 0 <= l < 16 ^ k -> len (hex l) <= k.
Proof.
  intros Hk Hl. unfold hex.
  pose proof (hex_digits_from_len (Z.to_nat (Z.log2 l)) l [] k Hk Hl) as H.
  rewrite len_nil in H. lia.
Qed.

Lemma fromhex_pairs (n : nat) :
  forall ds, (length ds <= n)%nat -> Forall hex_digit ds ->
    Nat.even (length ds) = true ->
    2 * len (fromhex ds) = len ds /\ bytes2long (fromhex ds) = hex_value ds.
Proof.
  induction n as [|n IH]; intros ds Hn Hds Hev.
  - destruct ds; [split; reflexivity|simpl in Hn; lia].
  - destruct ds as [|hi [|lo rest]]; [split; reflexivity|discriminate|].
    simpl in Hn, Hev. inversion Hds as [|? ? Hhi Hds']; subst.
    inversion Hds' as [|? ? Hlo Hrest]; subst.
    destruct (IH rest ltac:(lia) Hrest Hev) as [Hlen Hval].
    cbn [fromhex]. rewrite !len_cons, bytes2long_cons, Z_of_byte_of_Z.
    rewrite !hex_value_cons, len_cons, Hval.
    unfold hex_digit in *. pose proof (len_nonneg rest).
    split; [lia|].
    rewrite Z.mod_small by lia.
    replace (len rest) with (2 * len (fromhex rest)) by lia.
    rewrite Z.pow_add_r, Z.pow_mul_r by (pose proof (len_nonneg (fromhex rest)); lia).
    change (16 ^ 2) with 256. change (16 ^ 1) with 16. lia.
Qed.

(** The hexadecimal string [long2bytes] hands to [bytes.fromhex]. *)
Lemma long2bytes_hex (l : Z) :
  0 <= l ->
  exists ds, long2bytes l = fromhex ds /\ Forall hex_digit ds /\
             Nat.even (length ds) = true /\ hex_value ds = l /\
             len ds <= len (hex l) + 1 /\
             (Nat.even (length (hex l)) = true -> ds = hex l).
Proof.
  intros Hl. unfold long2bytes. cbv zeta.
  pose proof (hex_digits l Hl) as Hd. pose proof (hex_value_hex l) as Hv.
  destruct (Nat.even (length (hex l))) eqn:E.
  - exists (hex l). repeat split; try assumption; lia.
  - exists (0 :: hex l). repeat split.
    + constructor; [unfold hex_digit; lia|assumption].
    + cbn [length]. rewrite Nat.even_succ, <- Nat.negb_even, E. reflexivity.
    + rewrite hex_value_cons. lia.
    + rewrite len_cons. lia.
    + discriminate.
Qed.

(** Decoding the encoding of a non-negative integer gives it back. *)
Lemma bytes2long_long2bytes (l : Z) : 0 <= l -> bytes2long (long2bytes l) = l.
Proof.
  intros Hl. destruct (long2bytes_hex l Hl) as (ds & -> & Hd & Hev & Hv & _).
  destruct (fromhex_pairs (length ds) ds (le_n _) Hd Hev) as [_ H].
  congruence.
Qed.

(** An integer below [256 ^ L] encodes in at most [L] bytes. *)
Lemma len_long2bytes (l L : Z) :
  1 <= L -> 0 <= l < 256 ^ L -> len (long2bytes l) <= L.
Proof.
  intros HL Hl.
  destruct (long2bytes_hex l ltac:(lia)) as (ds & -> & Hd & Hev & _ & Hle & Heq).
  destruct (fromhex_pairs (length ds) ds (le_n _) Hd Hev) as [H2 _].
  assert (len (hex l) <= 2 * L) as Hh.
  { apply len_hex; [lia|].
    rewrite Z.pow_mul_r by lia. change (16 ^ 2) with 256. assumption. }
  destruct (Nat.even (length (hex l))) eqn:E.
  - pose proof (Heq eq_refl) as ->. lia.
  - assert (len (hex l) <> 2 * L).
    { intros Hc. unfold len in Hc.
      assert (length (hex l) = 2 * Z.to_nat L)%nat as Hn by lia.
      rewrite Hn, Nat.even_mul in E. discriminate. }
    lia.
Qed.

(** A value reduced modulo [2 ^ (8 * L)], encoded and left-padded, fills
    exactly [L] bytes: the state width does not grow. *)
Lemma len_padded_long2bytes (n L : Z) :
  1 <= L -> len (bytepad (long2bytes (n mod 2 ^ (8 * L))) L) = L.
Proof.
  intros HL. rewrite len_bytepad.
  pose proof (Z.mod_pos_bound n (2 ^ (8 * L)) ltac:(apply Z.pow_pos_nonneg; lia)) as Hb.
  assert (2 ^ (8 * L) = 256 ^ L) as Hp.
  { rewrite Z.pow_mul_r by lia. reflexivity. }
  rewrite Hp in *.
  pose proof (len_long2bytes _ L HL Hb). lia.
Qed.

(** ** CTR_DRBG: the loops end and the state keeps its widths *)

Section CTR_facts.

Context {P : Primitives} {PS : PrimitivesSpec P}.

Lemma ctr_params_seedlen (s : CTRDRBG) :
  ctr_params s ->
  (ctr_seedlen s = 32 \/ ctr_seedlen s = 40 \/ ctr_seedlen s = 48) /\
  ctr_keylen s / 8 + 16 = ctr_seedlen s.
Proof.
  intros (Hk & _ & Ho & Hs). rewrite Hs, Ho.
  destruct Hk as [-> | [-> | ->]]; cbn; lia.
Qed.

Lemma ctr_params_set_state (s : CTRDRBG) (K V : bytes) :
  ctr_params s -> ctr_params (ctr_set_state s K V).
Proof. intros H. exact H. Qed.

(** The counter block handed to the cipher is always 16 bytes. *)
Lemma len_counter_block (V : bytes) :
  len (bytepad (long2bytes ((bytes2long V + 1) mod 2 ^ 128)) (128 / 8)) = 16.
Proof.
  change (128 / 8) with 16. change 128 with (8 * 16).
  apply len_padded_long2bytes. lia.
Qed.

(** Leaving the [while] loop of [__update] means [seedlen] bytes are there. *)
Lemma CTRDRBG_update_loop_exit (fuel : nat) :
  forall o sl K V temp V' temp',
    CTRDRBG_update_loop fuel o sl K V temp = Some (V', temp') ->
    sl <= len temp'.
Proof.
  induction fuel as [|f IH]; intros o sl K V temp V' temp' H;
    cbn [CTRDRBG_update_loop] in H; [discriminate|].
  destruct (len temp <? sl) eqn:E.
  - eapply IH; eassumption.
  - apply Z.ltb_ge in E. inversion H; subst. assumption.
Qed.

(** With 16-byte cipher blocks the loop of [__update] ends within the fuel. *)
Lemma CTRDRBG_update_loop_total (fuel : nat) :
  forall sl K V temp,
    (Z.to_nat (sl - len temp) < fuel)%nat ->
    exists V' temp',
      CTRDRBG_update_loop fuel 128 sl K V temp = Some (V', temp').
Proof.
  induction fuel as [|f IH]; intros sl K V temp Hf; [lia|].
  cbn [CTRDRBG_update_loop].
  destruct (len temp <? sl) eqn:E; [|eauto].
  apply Z.ltb_lt in E. apply IH.
  rewrite len_app, AES_encrypt_len by apply len_counter_block. lia.
Qed.

(** [__update] returns a key of [keylen / 8] bytes and a 16-byte [V]. *)
Lemma CTRDRBG_update_ok (s : CTRDRBG) (provided_data K V : bytes) :
  ctr_params s ->
  len provided_data <= ctr_seedlen s ->
  exists K' V',
    CTRDRBG_update s provided_data K V = Ok (K', V') /\
    len K' = ctr_keylen s / 8 /\ len V' = ctr_outlen s / 8.
Proof.
  intros Hp Hd. pose proof (ctr_params_seedlen s Hp) as [Hsl Hks].
  pose proof Hp as (Hk & _ & Ho & _).
  unfold CTRDRBG_update. rewrite Ho.
  destruct (CTRDRBG_update_loop_total (S (Z.to_nat (ctr_seedlen s)))
              (ctr_seedlen s) K V [] ltac:(rewrite len_nil; lia))
    as (V1 & temp & Hloop).
  rewrite Hloop.
  pose proof (CTRDRBG_update_loop_exit _ _ _ _ _ _ _ _ Hloop) as Hex.
  assert (len (slice_to temp (ctr_seedlen s)) = ctr_seedlen s) as Hl1
    by (apply len_slice_to; lia).
  assert (len (bytepad provided_data (ctr_seedlen s)) = ctr_seedlen s) as Hl2
    by (rewrite len_bytepad; lia).
  rewrite strxor_ok by congruence. cbn [bind].
  pose proof (len_xor_bytes _ _ (eq_trans Hl1 (eq_sym Hl2))) as Hx.
  rewrite Hl1 in Hx.
  do 2 eexists. split; [reflexivity|]. split.
  - apply len_slice_to. rewrite Hx.
    split; [apply Z.div_pos|]; lia.
  - change (- 128 / 8) with (- 16). change (128 / 8) with 16.
    apply (len_slice_from_end _ (- 16)); lia.
Qed.

(** Leaving the [while] loop of [_generate] means [count] bytes are there. *)
Lemma CTRDRBG_generate_loop_exit (fuel : nat) :
  forall o count K V temp V' temp',
    CTRDRBG_generate_loop fuel o count K V temp = Some (V', temp') ->
    count <= len temp'.
Proof.
  induction fuel as [|f IH]; intros o count K V temp V' temp' H;
    cbn [CTRDRBG_generate_loop] in H; [discriminate|].
  destruct (len temp <? count) eqn:E.
  - eapply IH; eassumption.
  - apply Z.ltb_ge in E. inversion H; subst. assumption.
Qed.

Lemma CTRDRBG_generate_loop_total (fuel : nat) :
  forall count K V temp,
    (Z.to_nat (count - len temp) < fuel)%nat ->
    exists V' temp',
      CTRDRBG_generate_loop fuel 128 count K V temp = Some (V', temp').
Proof.
  induction fuel as [|f IH]; intros count K V temp Hf; [lia|].
  cbn [CTRDRBG_generate_loop].
  destruct (len temp <? count) eqn:E; [|eauto].
  apply Z.ltb_lt in E. apply IH.
  rewrite len_app, AES_encrypt_len by apply len_counter_block. lia.
Qed.

(** A [_generate] that returns, returns [count] bytes. *)
Lemma CTRDRBG_generate_len (count : Z) (data : option bytes) (s s' : CTRDRBG)
    (out : bytes) :
  0 <= count ->
  CTRDRBG_generate count data s = (Ok out, s') -> len out = count.
Proof.
  intros Hc H. unfold CTRDRBG_generate in H.
  destruct (truthy data && _); [discriminate|].
  head_case H; try discriminate.
  head_case H; [|discriminate]. destruct p as [V temp].
  match goal with Hl : CTRDRBG_generate_loop _ _ _ _ _ _ = Some _ |- _ =>
    apply CTRDRBG_generate_loop_exit in Hl end.
  head_case H; inversion H; subst.
  apply len_slice_to. lia.
Qed.

(** [_generate] raises nothing but [ValueError]. *)
Lemma CTRDRBG_generate_raises (count : Z) (data : option bytes)
    (s s' : CTRDRBG) (e : exn) :
  CTRDRBG_generate count data s = (Raise e, s') -> exists msg, e = ValueError msg.
Proof.
  assert (forall s pd K V, CTRDRBG_update s pd K V = Raise e ->
                           exists msg, e = ValueError msg) as Hup.
  { intros s0 pd K V H. unfold CTRDRBG_update in H.
    destruct (CTRDRBG_update_loop _ _ _ _ _ _) as [[V1 temp]|]; [|discriminate].
    unfold strxor in H. destruct (_ =? _); cbn in H; [discriminate|].
    inversion H. eauto. }
  intros H. unfold CTRDRBG_generate in H.
  destruct (truthy data && _); [inversion H; eauto|].
  head_case H.
  - head_case H; [|discriminate]. destruct p as [V temp].
    head_case H; inversion H; subst. eapply Hup; eassumption.
  - inversion H; subst.
    match goal with Hf : (if ?c then _ else _) = Raise _ |- _ =>
      destruct c; [|discriminate]; unfold bind in Hf; head_case Hf;
      inversion Hf; subst end.
    eapply Hup; eassumption.
  - discriminate.
Qed.

(** The output loop and the closing [__update] of [_generate] succeed. *)
Lemma CTRDRBG_generate_tail (count : Z) (pd : bytes) (s : CTRDRBG) :
  ctr_params s -> len pd <= ctr_seedlen s ->
  exists V temp K' V',
    CTRDRBG_generate_loop (S (Z.to_nat count)) (ctr_outlen s) count
      (ctr_key s) (ctr_V s) [] = Some (V, temp) /\
    CTRDRBG_update s pd (ctr_key s) V = Ok (K', V') /\
    len K' = ctr_keylen s / 8 /\ len V' = ctr_outlen s / 8.
Proof.
  intros Hp Hd. pose proof Hp as (_ & _ & Ho & _). rewrite Ho.
  destruct (CTRDRBG_generate_loop_total (S (Z.to_nat count)) count
              (ctr_key s) (ctr_V s) [] ltac:(rewrite len_nil; lia))
    as (V & temp & Hloop).
  destruct (CTRDRBG_update_ok s pd (ctr_key s) V Hp Hd) as (K' & V' & Hu & HK & HV).
  rewrite Ho in HV. exists V, temp, K', V'. auto.
Qed.

(** [_generate] on a well-formed instance, with additional input of at
    most [seedlen] bytes, returns [count] bytes and a well-formed instance. *)
Lemma CTRDRBG_generate_ok (count : Z) (data : option bytes) (s : CTRDRBG) :
  wf_CTRDRBG s -> 0 <= count ->
  len (or_empty data) <= ctr_seedlen s ->
  exists out s',
    CTRDRBG_generate count data s = (Ok out, s') /\ len out = count /\
    wf_CTRDRBG s' /\ ctr_reseed_counter s' = ctr_reseed_counter s.
Proof.
  intros (Hp & HK & HV) Hc Hd.
  pose proof (ctr_params_seedlen s Hp) as [Hsl _].
  assert (forall s1 pd, ctr_params s1 -> len pd <= ctr_seedlen s1 ->
            exists out s',
              match CTRDRBG_generate_loop (S (Z.to_nat count)) (ctr_outlen s1)
                      count (ctr_key s1) (ctr_V s1) [] with
              | None => (Diverges, s1)
              | Some (V, temp) =>
                  match CTRDRBG_update s1 pd (ctr_key s1) V with
                  | Raise e => (Raise e, s1)
                  | Diverges => (Diverges, s1)
                  | Ok kv => (Ok (slice_to temp count),
                              ctr_set_state s1 (fst kv) (snd kv))
                  end
              end = (Ok out, s') /\ len out = count /\ wf_CTRDRBG s' /\
              ctr_reseed_counter s' = ctr_reseed_counter s1) as Htail.
  { intros s1 pd Hp1 Hd1.
    destruct (CTRDRBG_generate_tail count pd s1 Hp1 Hd1)
      as (V & temp & K' & V' & Hloop & Hu & HK' & HV').
    rewrite Hloop, Hu. cbn [fst snd].
    do 2 eexists. split; [reflexivity|].
    apply CTRDRBG_generate_loop_exit in Hloop.
    split; [apply len_slice_to; lia|].
    split; [|reflexivity]. split; [exact Hp1|]. split; assumption. }
  unfold CTRDRBG_generate.
  destruct data as [[|x d]|]; cbn [truthy or_empty andb] in *.
  - apply Htail; assumption.
  - destruct (ctr_seedlen s <? len (x :: d)) eqn:E;
      [apply Z.ltb_lt in E; lia|].
    set (pd := (x :: d) ++ zeros (ctr_seedlen s - len (x :: d))).
    assert (len pd = ctr_seedlen s) as Hpd.
    { unfold pd. rewrite len_app, len_zeros. lia. }
    change (match pd with [] => false | _ :: _ => true end) with true.
    cbv iota.
    destruct (CTRDRBG_update_ok s pd (ctr_key s) (ctr_V s) Hp ltac:(lia))
      as (K1 & V1 & Hu & HK1 & HV1).
    rewrite Hu. cbn [bind fst snd].
    destruct (Htail (ctr_set_state s K1 V1) pd Hp
                ltac:(cbn [ctr_seedlen ctr_set_state]; lia))
      as (out & s' & H & Hrest).
    exists out, s'. split; [exact H|]. exact Hrest.
  - apply Htail; [assumption|rewrite len_nil; lia].
Qed.

(** [_reseed] with [seedlen] bytes of entropy succeeds and keeps the widths. *)
Lemma CTRDRBG_reseed_ok (entropy : bytes) (data : option bytes) (s : CTRDRBG) :
  wf_CTRDRBG s -> len entropy = ctr_seedlen s ->
  len (or_empty data) <= ctr_seedlen s ->
  exists s',
    CTRDRBG_reseed entropy data s = (Ok tt, s') /\ wf_CTRDRBG s' /\
    ctr_reseed_counter s' = ctr_reseed_counter s.
Proof.
  intros (Hp & HK & HV) He Hd. unfold CTRDRBG_reseed.
  assert ((ctr_seedlen s <? len (or_empty data)) = false) as ->
    by (apply Z.ltb_ge; lia).
  rewrite andb_false_r, He, Z.eqb_refl. cbn [negb].
  assert (exists sm, (if truthy data
                      then strxor entropy (bytepad (or_empty data) (ctr_seedlen s))
                      else Ok entropy) = Ok sm /\ len sm = ctr_seedlen s)
    as (sm & -> & Hsm).
  { destruct (truthy data); [|eauto].
    assert (len (bytepad (or_empty data) (ctr_seedlen s)) = ctr_seedlen s) as Hb
      by (rewrite len_bytepad; lia).
    rewrite strxor_ok by congruence. eexists. split; [reflexivity|].
    rewrite len_xor_bytes; congruence. }
  cbn [bind].
  destruct (CTRDRBG_update_ok s sm (ctr_key s) (ctr_V s) Hp ltac:(lia))
    as (K1 & V1 & Hu & HK1 & HV1).
  rewrite Hu. cbn [fst snd]. eexists. split; [reflexivity|].
  split; [|reflexivity]. split; [exact Hp|]. split; assumption.
Qed.

(** A 32-byte seed is refused by every instance whose [seedlen] is not 32. *)
Lemma CTRDRBG_reseed_wrong_length (entropy : bytes) (s : CTRDRBG) :
  len entropy <> ctr_seedlen s ->
  CTRDRBG_reseed entropy None s = (Raise (ValueError "Too much entropy."), s).
Proof.
  intros He. unfold CTRDRBG_reseed. cbn [truthy andb].
  apply Z.eqb_neq in He. rewrite He. reflexivity.
Qed.

(** The constructor builds well-formed instances with the counter at 1. *)
Lemma CTRDRBG_init_wf (name : string) (entropy : bytes) (data : option bytes)
    (s : CTRDRBG) :
  CTRDRBG_init name entropy data = Ok s ->
  wf_CTRDRBG s /\ ctr_reseed_counter s = 1 /\
  ctr_keylen s = int_of_str (str_from 3 (lower name)).
Proof.
  unfold CTRDRBG_init. intros H.
  destruct (str_in (lower name) CIPHERS) eqn:Hin; [|discriminate].
  cbn [negb] in H.
  set (keylen := int_of_str (str_from 3 (lower name))) in *.
  assert (keylen = 128 \/ keylen = 192 \/ keylen = 256) as Hk.
  { unfold str_in, CIPHERS in Hin. cbn [existsb] in Hin.
    rewrite !orb_true_iff in Hin. unfold keylen.
    destruct Hin as [Hin|[Hin|[Hin|Hin]]]; try discriminate;
      apply String.eqb_eq in Hin; rewrite Hin; cbn; auto. }
  head_case H; [discriminate|]. cbn [negb] in H.
  unfold bind in H. head_case H; try discriminate.
  set (s0 := mkCTRDRBG keylen (2 ^ 13) 128 ((128 + keylen) / 8) [] [] 1) in *.
  assert (ctr_params s0) as Hp by (repeat split; auto).
  head_case H; inversion H; subst. clear H.
  match goal with He : negb (len entropy =? _) = false |- _ =>
    apply negb_false_iff, Z.eqb_eq in He; rename He into Hent end.
  assert (len a <= ctr_seedlen s0) as Ha.
  { cbn [ctr_seedlen s0].
    match goal with Hs : (if truthy data then _ else _) = Ok a |- _ =>
      destruct (truthy data); [|inversion Hs; subst; lia];
      head_case Hs; [discriminate|]; unfold strxor in Hs;
      head_case Hs; inversion Hs; subst end.
    rewrite len_xor_bytes; [lia|apply Z.eqb_eq; assumption]. }
  match goal with Hu : CTRDRBG_update s0 a ?K ?V = Ok _ |- _ =>
    destruct (CTRDRBG_update_ok s0 a K V Hp Ha) as (K1 & V1 & Hu' & HK1 & HV1);
    rewrite Hu' in Hu; inversion Hu; subst end.
  cbn [fst snd]. repeat split; auto.
Qed.

End CTR_facts.

(** ** Digest names and sizes *)

Lemma DIGESTS_cases (name : string) :
  str_in name DIGESTS = true ->
  name = "sha1"%string \/ name = "sha224"%string \/ name = "sha256"%string \/
  name = "sha384"%string \/ name = "sha512"%string.
Proof.
  unfold str_in, DIGESTS. cbn [existsb]. rewrite !orb_true_iff, !String.eqb_eq.
  intuition discriminate.
Qed.

Lemma digest_size_range (name : string) :
  str_in name DIGESTS = true -> 20 <= digest_size name <= 64.
Proof.
  intros H. destruct (DIGESTS_cases name H) as [->|[->|[->|[->| ->]]]]; cbn; lia.
Qed.

Lemma ceil_div_spec (a b : Z) : 0 < b -> a <= b * ceil_div a b.
Proof.
  intros Hb. unfold ceil_div. pose proof (Z.mul_div_le (- a) b Hb). lia.
Qed.

Lemma ceil_div_nonneg (a b : Z) : 0 <= a -> 0 < b -> 0 <= ceil_div a b.
Proof.
  intros Ha Hb. unfold ceil_div.
  assert ((- a) / b <= 0); [|lia].
  apply Z.div_le_upper_bound; lia.
Qed.

(** ** HMAC_DRBG: the loop ends and the state keeps its widths *)

Section HMAC_facts.

Context {P : Primitives} {PS : PrimitivesSpec P}.

Lemma len_HMACDRBG_mac (digest : string) (K V : bytes) (Vs : list (option bytes)) :
  str_in digest DIGESTS = true ->
  len (HMACDRBG_mac digest K V Vs) = digest_size digest.
Proof. intros H. unfold HMACDRBG_mac. apply hmac_new_len. exact H. Qed.

Lemma len_HMACDRBG_update (digest : string) (K V : bytes)
    (data : list (option bytes)) :
  str_in digest DIGESTS = true ->
  len (fst (HMACDRBG_update digest K V data)) = digest_size digest /\
  len (snd (HMACDRBG_update digest K V data)) = digest_size digest.
Proof.
  intros H. unfold HMACDRBG_update.
  destruct (filter truthy data); cbn [fst snd];
    split; apply len_HMACDRBG_mac; exact H.
Qed.

Lemma HMACDRBG_generate_loop_exit (fuel : nat) :
  forall digest count K V out V' out',
    HMACDRBG_generate_loop fuel digest count K V out = Some (V', out') ->
    count <= len out'.
Proof.
  induction fuel as [|f IH]; intros digest count K V out V' out' H;
    cbn [HMACDRBG_generate_loop] in H; [discriminate|].
  destruct (len out <? count) eqn:E.
  - eapply IH; eassumption.
  - apply Z.ltb_ge in E. inversion H; subst. assumption.
Qed.

Lemma HMACDRBG_generate_loop_total (fuel : nat) :
  forall digest count K V out,
    str_in digest DIGESTS = true ->
    (Z.to_nat (count - len out) < fuel)%nat ->
    exists V' out',
      HMACDRBG_generate_loop fuel digest count K V out = Some (V', out').
Proof.
  induction fuel as [|f IH]; intros digest count K V out Hd Hf; [lia|].
  cbn [HMACDRBG_generate_loop].
  destruct (len out <? count) eqn:E; [|eauto].
  apply Z.ltb_lt in E. apply IH; [exact Hd|].
  rewrite len_app, len_HMACDRBG_mac by exact Hd.
  pose proof (digest_size_range digest Hd). lia.
Qed.

(** [_generate] never raises. *)
Lemma HMACDRBG_generate_no_raise (count : Z) (data : option bytes)
    (s s' : HMACDRBG) (e : exn) :
  HMACDRBG_generate count data s <> (Raise e, s').
Proof.
  unfold HMACDRBG_generate.
  destruct (if truthy data then _ else _) as [K V].
  destruct (HMACDRBG_generate_loop _ _ _ _ _ _) as [[V1 out]|]; discriminate.
Qed.

(** A [_generate] that returns, returns [count] bytes. *)
Lemma HMACDRBG_generate_len (count : Z) (data : option bytes)
    (s s' : HMACDRBG) (out : bytes) :
  0 <= count ->
  HMACDRBG_generate count data s = (Ok out, s') -> len out = count.
Proof.
  intros Hc. unfold HMACDRBG_generate.
  destruct (if truthy data then _ else _) as [K V].
  destruct (HMACDRBG_generate_loop _ _ _ _ _ _) as [[V1 out1]|] eqn:Hloop;
    [|discriminate].
  intros H. inversion H; subst.
  apply HMACDRBG_generate_loop_exit in Hloop. apply len_slice_to. lia.
Qed.

Lemma HMACDRBG_generate_ok (count : Z) (data : option bytes) (s : HMACDRBG) :
  wf_HMACDRBG s -> 0 <= count ->
  exists out s',
    HMACDRBG_generate count data s = (Ok out, s') /\ len out = count /\
    wf_HMACDRBG s' /\ hmac_reseed_counter s' = hmac_reseed_counter s.
Proof.
  intros (Hd & Hm & Ho & HK & HV) Hc. unfold HMACDRBG_generate.
  destruct (if truthy data then _ else _) as [K V].
  destruct (HMACDRBG_generate_loop_total (S (Z.to_nat count)) (hmac_digest s)
              count K V [] Hd ltac:(rewrite len_nil; lia)) as (V1 & out & Hloop).
  rewrite Hloop. do 2 eexists. split; [reflexivity|].
  apply HMACDRBG_generate_loop_exit in Hloop.
  split; [apply len_slice_to; lia|]. split; [|reflexivity].
  destruct (len_HMACDRBG_update (hmac_digest s) K V1 [data] Hd) as [H1 H2].
  unfold wf_HMACDRBG. cbn [hmac_set_state hmac_digest hmac_max_request_size
    hmac_outlen hmac_key hmac_V].
  rewrite H1, H2, Ho, Z.mul_comm, Z.div_mul by lia. auto.
Qed.

Lemma HMACDRBG_reseed_wf (entropy : bytes) (data : option bytes) (s : HMACDRBG) :
  wf_HMACDRBG s -> wf_HMACDRBG (HMACDRBG_reseed entropy data s).
Proof.
  intros (Hd & Hm & Ho & HK & HV). unfold HMACDRBG_reseed.
  destruct (len_HMACDRBG_update (hmac_digest s) (hmac_key s) (hmac_V s)
              [Some entropy; data] Hd) as [H1 H2].
  unfold wf_HMACDRBG. cbn [hmac_set_state hmac_digest hmac_max_request_size
    hmac_outlen hmac_key hmac_V].
  rewrite H1, H2, Ho, Z.mul_comm, Z.div_mul by lia. auto.
Qed.

Lemma HMACDRBG_init_wf (name : string) (entropy nonce : bytes)
    (data : option bytes) (s : HMACDRBG) :
  HMACDRBG_init name entropy nonce data = Ok s ->
  wf_HMACDRBG s /\ hmac_reseed_counter s = 1.
Proof.
  unfold HMACDRBG_init.
  set (name' := if endswith name "hmac" then _ else name).
  destruct (str_in name' DIGESTS) eqn:Hd; [|discriminate].
  unfold negb. intros H. apply Ok_inj in H. subst s.
  split; [|reflexivity].
  destruct (len_HMACDRBG_update name' (zeros (8 * digest_size name' / 8))
              (ones (8 * digest_size name' / 8))
              [Some entropy; Some nonce; data] Hd) as [H1 H2].
  cbv [wf_HMACDRBG hmac_digest hmac_max_request_size
       hmac_outlen hmac_key hmac_V].
  rewrite H1, H2, Z.mul_comm, Z.div_mul by lia. auto.
Qed.

(** An empty additional input takes the same path as an absent one. *)
Lemma HMACDRBG_generate_empty_data (count : Z) (s : HMACDRBG) :
  HMACDRBG_generate count (Some []) s = HMACDRBG_generate count None s.
Proof. reflexivity. Qed.

End HMAC_facts.

(** ** Hash_DRBG: output lengths and state widths *)

Section Hash_facts.

Context {P : Primitives} {PS : PrimitivesSpec P}.

(** The five parameter sets [HashDRBG.__init__] can derive. *)
Lemma hash_params_cases (digest : string) (o sl : Z) :
  str_in digest DIGESTS = true ->
  o = 8 * digest_size digest ->
  sl = (if 256 <? o then 888 else 440) ->
  (digest_size digest = 20 /\ o = 160 /\ sl = 440) \/
  (digest_size digest = 28 /\ o = 224 /\ sl = 440) \/
  (digest_size digest = 32 /\ o = 256 /\ sl = 440) \/
  (digest_size digest = 48 /\ o = 384 /\ sl = 888) \/
  (digest_size digest = 64 /\ o = 512 /\ sl = 888).
Proof.
  intros Hd -> ->.
  destruct (DIGESTS_cases digest Hd) as [->|[->|[->|[->| ->]]]]; cbn; tauto.
Qed.

(** Appending one digest per list element. *)
Lemma fold_digests (digest : string) (msg : nat -> bytes) (l : list nat) :
  forall acc,
    fold_left (fun output counter => output ++ hashlib digest (msg counter)) l acc
    = acc ++ concat (map (fun counter => hashlib digest (msg counter)) l).
Proof.
  induction l as [|c l IH]; intros acc; cbn [fold_left map concat].
  - rewrite app_nil_r. reflexivity.
  - rewrite IH, app_assoc. reflexivity.
Qed.

Lemma len_concat_digests (digest : string) (msg : nat -> bytes) (l : list nat) :
  str_in digest DIGESTS = true ->
  len (concat (map (fun counter => hashlib digest (msg counter)) l))
  = len l * digest_size digest.
Proof.
  intros Hd. induction l as [|c l IH]; cbn [map concat].
  - reflexivity.
  - rewrite len_app, len_cons, IH, hashlib_len by exact Hd. ring.
Qed.

Lemma len_seq (start n : nat) : len (seq start n) = Z.of_nat n.
Proof. unfold len. rewrite length_seq. reflexivity. Qed.

(** [__df] at [seedlen] returns exactly [seedlen / 8] bytes. *)
Lemma len_HashDRBG_df (digest : string) (o sl : Z) (input : bytes) :
  str_in digest DIGESTS = true ->
  o = 8 * digest_size digest ->
  sl = (if 256 <? o then 888 else 440) ->
  len (HashDRBG_df digest o input sl) = sl / 8.
Proof.
  intros Hd Ho Hsl. unfold HashDRBG_df. cbv zeta.
  rewrite (fold_digests digest
             (fun counter => byte_of_Z ((Z.of_nat counter + 1) mod 255)
                               :: bytepad (long2bytes sl) 4 ++ input)).
  cbn [app].
  assert ((sl + 4) / 8 = sl / 8 /\ 0 <= sl / 8 /\
          sl / 8 <= Z.of_nat (Z.to_nat (ceil_div sl o)) * digest_size digest)
    as (H1 & H2 & H3).
  { destruct (hash_params_cases digest o sl Hd Ho Hsl)
      as [(->&->&->)|[(->&->&->)|[(->&->&->)|[(->&->&->)|(->&->&->)]]]];
      vm_compute; repeat split; discriminate. }
  rewrite H1. apply len_slice_to.
  rewrite len_concat_digests, len_seq by exact Hd. lia.
Qed.

(** The accumulator of [hashgen] grows by one digest per round. *)
Lemma len_hashgen_fold (digest : string) (sl : Z) (l : list nat) :
  str_in digest DIGESTS = true ->
  forall w data,
    len (fst (fold_left
                (fun (st : bytes * bytes) (_ : nat) =>
                   let '(w, data) := st in
                   (w ++ hashlib digest (bytepad data (sl / 8)),
                    long2bytes ((bytes2long data + 1) mod 2 ^ sl)))
                l (w, data)))
    = len w + len l * digest_size digest.
Proof.
  intros Hd. induction l as [|c l IH]; intros w data; cbn [fold_left fst].
  - change (len (@nil nat)) with 0. lia.
  - rewrite IH, len_app, len_cons, hashlib_len by exact Hd. ring.
Qed.

(** [hashgen] returns [count] bytes. *)
Lemma len_hashgen (s : HashDRBG) (count : Z) (V : bytes) :
  str_in (hash_digest s) DIGESTS = true ->
  hash_outlen s = 8 * digest_size (hash_digest s) ->
  0 <= count ->
  len (hashgen s count (8 * count) V) = count.
Proof.
  intros Hd Ho Hc. unfold hashgen. cbv zeta.
  pose proof (len_hashgen_fold (hash_digest s) (hash_seedlen s)
                (seq 0 (Z.to_nat (ceil_div (8 * count) (hash_outlen s)))) Hd [] V)
    as Hlen.
  destruct (fold_left _ _ _) as [w data]. cbn [fst] in Hlen.
  apply len_slice_to. rewrite Hlen, len_seq. change (len (@nil byte)) with 0.
  pose proof (digest_size_range _ Hd).
  pose proof (ceil_div_spec (8 * count) (hash_outlen s) ltac:(lia)).
  pose proof (ceil_div_nonneg (8 * count) (hash_outlen s) ltac:(lia) ltac:(lia)).
  rewrite Z2Nat.id by assumption. nia.
Qed.

(** A value reduced modulo [2 ^ seedlen] and re-padded is [seedlen / 8]
    bytes wide. *)
Lemma len_repadded_V (n sl : Z) :
  sl = 440 \/ sl = 888 ->
  let V := long2bytes (n mod 2 ^ sl) in
  len (if len V <? sl / 8 then zeros (sl / 8 - len V) ++ V else V) = sl / 8.
Proof.
  intros Hsl V.
  change (if len V <? sl / 8 then zeros (sl / 8 - len V) ++ V else V)
    with (bytepad V (sl / 8)).
  unfold V. destruct Hsl as [-> | ->].
  - change (440 / 8) with 55. change 440 with (8 * 55).
    apply len_padded_long2bytes. lia.
  - change (888 / 8) with 111. change 888 with (8 * 111).
    apply len_padded_long2bytes. lia.
Qed.

Lemma wf_HashDRBG_seedlen (s : HashDRBG) :
  wf_HashDRBG s -> hash_seedlen s = 440 \/ hash_seedlen s = 888.
Proof.
  intros (Hd & _ & Ho & Hsl & _).
  destruct (hash_params_cases _ _ _ Hd Ho Hsl)
    as [(_&_&->)|[(_&_&->)|[(_&_&->)|[(_&_&->)|(_&_&->)]]]]; auto.
Qed.

(** [_generate] returns [count] bytes and keeps the instance well formed. *)
Lemma HashDRBG_generate_ok (count : Z) (data : option bytes) (s : HashDRBG) :
  wf_HashDRBG s -> 0 <= count ->
  len (fst (HashDRBG_generate count data s)) = count /\
  wf_HashDRBG (snd (HashDRBG_generate count data s)) /\
  hash_reseed_counter (snd (HashDRBG_generate count data s))
  = hash_reseed_counter s.
Proof.
  intros Hwf Hc. pose proof (wf_HashDRBG_seedlen s Hwf) as Hsl.
  destruct Hwf as (Hd & Hm & Ho & Hs & HV & HC).
  unfold HashDRBG_generate. cbv zeta. cbn [fst snd].
  split; [apply len_hashgen; assumption|]. split; [|reflexivity].
  unfold wf_HashDRBG.
  cbn [hash_set_V hash_digest hash_max_request_size hash_outlen hash_seedlen
       hash_V hash_C].
  repeat split; try assumption.
  apply (len_repadded_V _ (hash_seedlen s) Hsl).
Qed.

Lemma HashDRBG_reseed_wf (entropy : bytes) (data : option bytes) (s : HashDRBG) :
  wf_HashDRBG s ->
  wf_HashDRBG (HashDRBG_reseed entropy data s) /\
  hash_reseed_counter (HashDRBG_reseed entropy data s) = hash_reseed_counter s.
Proof.
  intros (Hd & Hm & Ho & Hs & HV & HC).
  unfold HashDRBG_reseed. cbv zeta. split; [|reflexivity].
  unfold wf_HashDRBG.
  cbn [hash_set_V hash_set_C hash_digest hash_max_request_size hash_outlen
       hash_seedlen hash_V hash_C].
  repeat split; try assumption; apply len_HashDRBG_df; assumption.
Qed.

Lemma HashDRBG_init_wf (name : string) (entropy nonce : bytes)
    (data : option bytes) (s : HashDRBG) :
  HashDRBG_init name entropy nonce data = Ok s ->
  wf_HashDRBG s /\ hash_reseed_counter s = 1.
Proof.
  unfold HashDRBG_init.
  destruct (str_in name DIGESTS) eqn:Hd; [|discriminate].
  unfold negb. cbv zeta. intros H. apply Ok_inj in H. subst s.
  split; [|reflexivity].
  cbv [wf_HashDRBG hash_digest hash_max_request_size hash_outlen hash_seedlen
       hash_V hash_C].
  repeat split; try assumption; apply len_HashDRBG_df; auto.
Qed.

End Hash_facts.

(** ** The stand-in primitives meet [PrimitivesSpec] *)

Lemma digest_size_nonneg (name : string) : 0 <= digest_size name.
Proof.
  unfold digest_size.
  repeat match goal with |- context [if ?c then _ else _] => destruct c end; lia.
Qed.

Lemma test_primitives_spec : PrimitivesSpec test_primitives.
Proof.
  constructor; cbn [hashlib hmac_new AES_encrypt os_urandom test_primitives].
  - intros name m _. unfold test_hashlib, len.
    rewrite length_map, length_seq. pose proof (digest_size_nonneg name). lia.
  - intros name K m _. unfold test_hmac_new, len.
    rewrite length_map, length_seq. pose proof (digest_size_nonneg name). lia.
  - intros K block H. unfold test_AES_encrypt, len in *.
    rewrite length_map. exact H.
  - intros k n Hn. unfold test_os_urandom, len.
    rewrite length_map, length_seq. lia.
Qed.

Lemma example_hmac_wf : wf_HMACDRBG example_hmac.
Proof. repeat split. Qed.

Lemma example_hash_wf : wf_HashDRBG example_hash.
Proof. repeat split. Qed.

Lemma example_ctr128_wf : wf_CTRDRBG example_ctr128.
Proof. unfold wf_CTRDRBG, ctr_params. cbn. repeat split; auto. Qed.

Lemma example_ctr256_wf : wf_CTRDRBG example_ctr256.
Proof. unfold wf_CTRDRBG, ctr_params. cbn. repeat split; auto. Qed.

(** ** The base class: counter bookkeeping *)

Section DRBG_facts.

Context {P : Primitives}.

Lemma CTRDRBG_generate_frame (count : Z) (data : option bytes)
    (s s' : CTRDRBG) (r : result bytes) :
  CTRDRBG_generate count data s = (r, s') ->
  ctr_reseed_counter s' = ctr_reseed_counter s /\
  ctr_max_request_size s' = ctr_max_request_size s /\
  ctr_seedlen s' = ctr_seedlen s /\ ctr_keylen s' = ctr_keylen s.
Proof.
  unfold CTRDRBG_generate. intros H.
  destruct (truthy data && _); [inversion H; subst; auto|].
  assert (forall s1, (if truthy (if truthy data
                                 then Some (or_empty data ++
                                        zeros (ctr_seedlen s - len (or_empty data)))
                                 else data)
                      then kv <- CTRDRBG_update s
                                   (or_empty (if truthy data
                                     then Some (or_empty data ++
                                        zeros (ctr_seedlen s - len (or_empty data)))
                                     else data)) (ctr_key s) (ctr_V s) ;;
                           Ok (ctr_set_state s (fst kv) (snd kv))
                      else Ok s) = Ok s1 ->
            ctr_reseed_counter s1 = ctr_reseed_counter s /\
            ctr_max_request_size s1 = ctr_max_request_size s /\
            ctr_seedlen s1 = ctr_seedlen s /\ ctr_keylen s1 = ctr_keylen s) as Hf.
  { intros s1 H1. destruct (truthy (if truthy data then _ else _)).
    - unfold bind in H1. head_case H1; try discriminate.
      apply Ok_inj in H1. subst s1. auto.
    - apply Ok_inj in H1. subst s1. auto. }
  match type of H with (match ?f with _ => _ end) = _ =>
    destruct f as [s1|e1|] eqn:Hc end.
  - apply Hf in Hc.
    head_case H; [|inversion H; subst; exact Hc].
    destruct p as [V temp].
    head_case H; inversion H; subst; exact Hc.
  - inversion H; subst; auto.
  - inversion H; subst; auto.
Qed.

Lemma HMACDRBG_generate_frame (count : Z) (data : option bytes)
    (s s' : HMACDRBG) (r : result bytes) :
  HMACDRBG_generate count data s = (r, s') ->
  hmac_reseed_counter s' = hmac_reseed_counter s /\
  hmac_max_request_size s' = hmac_max_request_size s.
Proof.
  unfold HMACDRBG_generate.
  destruct (if truthy data then _ else _) as [K V].
  destruct (HMACDRBG_generate_loop _ _ _ _ _ _) as [[V1 out]|];
    intros H; inversion H; subst; auto.
Qed.

(** The subclass's [_generate] leaves [reseed_counter] and
    [max_request_size] alone. *)
Lemma _generate_frame (count : Z) (data : option bytes) (g g' : DRBG)
    (r : result bytes) :
  _generate count data g = (r, g') ->
  reseed_counter g' = reseed_counter g /\
  max_request_size g' = max_request_size g.
Proof.
  destruct g as [s|s|s]; cbn [_generate].
  - destruct (CTRDRBG_generate count data s) as [r1 s1] eqn:E.
    intros H. inversion H; subst. apply CTRDRBG_generate_frame in E.
    cbn [reseed_counter max_request_size]. tauto.
  - destruct (HashDRBG_generate count data s) as [out s1] eqn:E.
    intros H. inversion H; subst. unfold HashDRBG_generate in E.
    inversion E; subst. auto.
  - destruct (HMACDRBG_generate count data s) as [r1 s1] eqn:E.
    intros H. inversion H; subst. apply HMACDRBG_generate_frame in E.
    cbn [reseed_counter max_request_size]. tauto.
Qed.

(** The subclass's [_generate] never raises [ReseedRequired]. *)
Lemma _generate_not_ReseedRequired (count : Z) (data : option bytes)
    (g g' : DRBG) :
  _generate count data g <> (Raise ReseedRequired, g').
Proof.
  destruct g as [s|s|s]; cbn [_generate].
  - destruct (CTRDRBG_generate count data s) as [r1 s1] eqn:E.
    intros H. inversion H; subst.
    apply CTRDRBG_generate_raises in E. destruct E as [msg E]. discriminate.
  - destruct (HashDRBG_generate count data s). discriminate.
  - destruct (HMACDRBG_generate count data s) as [r1 s1] eqn:E.
    intros H. inversion H; subst.
    exact (HMACDRBG_generate_no_raise _ _ _ _ _ E).
Qed.

Lemma reseed_counter_set (g : DRBG) (n : Z) :
  reseed_counter (set_reseed_counter g n) = n.
Proof. destruct g; reflexivity. Qed.

Lemma max_request_size_set (g : DRBG) (n : Z) :
  max_request_size (set_reseed_counter g n) = max_request_size g.
Proof. destruct g; reflexivity. Qed.

Lemma wf_set_reseed_counter (g : DRBG) (n : Z) :
  wf g -> wf (set_reseed_counter g n).
Proof. destruct g; intros H; exact H. Qed.

(** A successful [generate] advances the counter by exactly one. *)
Lemma generate_increments_counter (count : Z) (data : option bytes)
    (g g' : DRBG) (out : bytes) :
  generate count data g = (Ok out, g') ->
  reseed_counter g' = reseed_counter g + 1 /\
  max_request_size g' = max_request_size g.
Proof.
  unfold generate, DRBG_generate. intros H.
  destruct (negb _); [discriminate|].
  destruct (match data with Some _ => _ | None => _ end); [discriminate|].
  destruct (RESEED_INTERVAL <? reseed_counter g); [discriminate|].
  destruct (_generate count data g) as [[out1|e|] g1] eqn:E; inversion H; subst.
  apply _generate_frame in E.
  rewrite reseed_counter_set, max_request_size_set. intuition congruence.
Qed.

(** The three guards of [generate], in order; a refused call leaves the
    instance as it was. *)
Lemma generate_guards (count : Z) (data : option bytes) (g : DRBG) :
  (~ 0 < count < max_request_size g ->
   generate count data g = (Raise InvalidRequest, g)) /\
  (0 < count < max_request_size g ->
   MAX_ENTROPY_LENGTH < len (or_empty data) ->
   generate count data g = (Raise InvalidInput, g)) /\
  (0 < count < max_request_size g ->
   len (or_empty data) <= MAX_ENTROPY_LENGTH ->
   RESEED_INTERVAL < reseed_counter g ->
   generate count data g = (Raise ReseedRequired, g)) /\
  (0 < count < max_request_size g ->
   len (or_empty data) <= MAX_ENTROPY_LENGTH ->
   reseed_counter g <= RESEED_INTERVAL ->
   generate count data g =
   match _generate count data g with
   | (Ok out, g') => (Ok out, set_reseed_counter g' (reseed_counter g' + 1))
   | (Raise e, g') => (Raise e, g')
   | (Diverges, g') => (Diverges, g')
   end).
Proof.
  unfold generate, DRBG_generate.
  assert ((match data with
           | Some d => MAX_ENTROPY_LENGTH <? len d
           | None => false
           end) = (MAX_ENTROPY_LENGTH <? len (or_empty data))) as ->.
  { destruct data; [reflexivity|]. cbn [or_empty]. rewrite len_nil. reflexivity. }
  destruct (0 <? count) eqn:E1; destruct (count <? max_request_size g) eqn:E2;
    cbn [andb negb];
    try apply Z.ltb_lt in E1; try apply Z.ltb_ge in E1;
    try apply Z.ltb_lt in E2; try apply Z.ltb_ge in E2;
    try (repeat split; intros; first [reflexivity | lia]).
  destruct (MAX_ENTROPY_LENGTH <? len (or_empty data)) eqn:E3;
    [apply Z.ltb_lt in E3|apply Z.ltb_ge in E3];
    try (repeat split; intros; first [reflexivity | lia]).
  destruct (RESEED_INTERVAL <? reseed_counter g) eqn:E4;
    [apply Z.ltb_lt in E4|apply Z.ltb_ge in E4];
    repeat split; intros; first [reflexivity | lia].
Qed.

End DRBG_facts.

(** ** [generate] on well-formed instances *)

Section Generate.

Context {P : Primitives} {PS : PrimitivesSpec P}.

(** Within the guards, [generate] returns [count] bytes, advances the
    counter and keeps the instance well formed. *)
Lemma generate_ok (count : Z) (data : option bytes) (g : DRBG) :
  wf g -> 0 < count < max_request_size g -> data_accepted g data ->
  reseed_counter g <= RESEED_INTERVAL ->
  exists out g',
    generate count data g = (Ok out, g') /\ len out = count /\ wf g' /\
    reseed_counter g' = reseed_counter g + 1 /\
    max_request_size g' = max_request_size g.
Proof.
  intros Hwf Hc Hd Hr.
  assert (len (or_empty data) <= MAX_ENTROPY_LENGTH) as Hlen.
  { destruct data as [d|]; cbn [or_empty data_accepted] in *;
      [tauto|rewrite len_nil; unfold MAX_ENTROPY_LENGTH; lia]. }
  destruct (generate_guards count data g) as (_ & _ & _ & Hrun).
  rewrite (Hrun Hc Hlen Hr). clear Hrun.
  destruct g as [s|s|s]; cbn [_generate wf max_request_size reseed_counter] in *.
  - assert (len (or_empty data) <= ctr_seedlen s) as Hs.
    { destruct data as [d|]; cbn [or_empty data_accepted] in *; [tauto|].
      rewrite len_nil. destruct Hwf as (Hp & _).
      destruct (ctr_params_seedlen s Hp) as [[?|[?|?]] _]; lia. }
    destruct (CTRDRBG_generate_ok count data s Hwf ltac:(lia) Hs)
      as (out & s' & -> & Hout & Hwf' & Hrc).
    pose proof Hwf as ((_ & Hm & _) & _). pose proof Hwf' as ((_ & Hm' & _) & _).
    exists out. eexists. split; [reflexivity|].
    cbn [set_reseed_counter reseed_counter max_request_size
         ctr_reseed_counter ctr_max_request_size].
    repeat split; try assumption; try lia; apply Hwf'.
  - pose proof (HashDRBG_generate_ok count data s Hwf ltac:(lia))
      as (Hout & Hwf' & Hrc).
    destruct (HashDRBG_generate count data s) as [out s'].
    cbn [fst snd] in *.
    pose proof Hwf as (_ & Hm & _). pose proof Hwf' as (_ & Hm' & _).
    exists out. eexists. split; [reflexivity|].
    cbn [set_reseed_counter reseed_counter max_request_size
         hash_reseed_counter hash_max_request_size].
    repeat split; try assumption; try lia; apply Hwf'.
  - destruct (HMACDRBG_generate_ok count data s Hwf ltac:(lia))
      as (out & s' & -> & Hout & Hwf' & Hrc).
    pose proof Hwf as (_ & Hm & _). pose proof Hwf' as (_ & Hm' & _).
    exists out. eexists. split; [reflexivity|].
    cbn [set_reseed_counter reseed_counter max_request_size
         hmac_reseed_counter hmac_max_request_size].
    repeat split; try assumption; try lia; apply Hwf'.
Qed.

(** With the counter exactly at the interval the call is still served. *)
Lemma generate_at_interval_ok (count : Z) (g : DRBG) :
  wf g -> 0 < count < max_request_size g ->
  reseed_counter g = RESEED_INTERVAL ->
  exists out g',
    generate count None g = (Ok out, g') /\
    reseed_counter g' = RESEED_INTERVAL + 1.
Proof.
  intros Hwf Hc Hr.
  destruct (generate_ok count None g Hwf Hc I ltac:(lia))
    as (out & g' & H & _ & _ & Hrc & _).
  exists out, g'. split; [exact H|lia].
Qed.

(** A [generate] that returns, returns [count] bytes. *)
Lemma generate_len (count : Z) (data : option bytes) (g g' : DRBG)
    (out : bytes) :
  wf g -> generate count data g = (Ok out, g') -> len out = count.
Proof.
  intros Hwf H. unfold generate, DRBG_generate in H.
  destruct (0 <? count) eqn:E1; [apply Z.ltb_lt in E1|discriminate].
  destruct (negb _); [discriminate|].
  destruct (match data with Some _ => _ | None => _ end); [discriminate|].
  destruct (RESEED_INTERVAL <? reseed_counter g); [discriminate|].
  destruct (_generate count data g) as [[out1|e|] g1] eqn:E; inversion H; subst.
  destruct g as [s|s|s]; cbn [_generate wf] in *.
  - destruct (CTRDRBG_generate count data s) as [r s1] eqn:E'.
    inversion E; subst. eapply CTRDRBG_generate_len; [|eassumption]. lia.
  - pose proof (HashDRBG_generate_ok count data s Hwf ltac:(lia)) as (Hout & _).
    destruct (HashDRBG_generate count data s) as [o s1].
    cbn [fst] in Hout. inversion E. congruence.
  - destruct (HMACDRBG_generate count data s) as [r s1] eqn:E'.
    inversion E; subst. eapply HMACDRBG_generate_len; [|eassumption]. lia.
Qed.

(** C6: on every well-formed generator, a [generate(count)] with
    [1 <= count <= max_request_size - 1] that succeeds returns exactly
    [count] bytes; within the reseed interval and with accepted additional
    input it does succeed; [generate(0)] and [generate(max_request_size)]
    both fail with [InvalidRequest], leaving the instance untouched. *)
Theorem generate_returns_count_bytes (g : DRBG) :
  wf g ->
  (forall count data out g',
      1 <= count <= max_request_size g - 1 ->
      generate count data g = (Ok out, g') -> len out = count) /\
  (forall count data,
      1 <= count <= max_request_size g - 1 ->
      data_accepted g data -> reseed_counter g <= RESEED_INTERVAL ->
      exists out g', generate count data g = (Ok out, g') /\ len out = count) /\
  (forall data, generate 0 data g = (Raise InvalidRequest, g)) /\
  (forall data,
      generate (max_request_size g) data g = (Raise InvalidRequest, g)).
Proof.
  intros Hwf. split; [|split; [|split]].
  - intros count data out g' _ H. eapply generate_len; eassumption.
  - intros count data Hc Hd Hr.
    destruct (generate_ok count data g Hwf ltac:(lia) Hd Hr)
      as (out & g' & H & Hlen & _).
    eauto.
  - intros data. apply (generate_guards 0 data g). lia.
  - intros data. apply (generate_guards (max_request_size g) data g). lia.
Qed.

End Generate.

(** The run [generate(5)] on a fresh HMAC_DRBG over the stand-in
    primitives returns five bytes. *)
Lemma generate_returns_count_bytes_witness :
  wf (HMAC_DRBG example_hmac) /\
  exists out g',
    generate (P := test_primitives) 5 None (HMAC_DRBG example_hmac)
    = (Ok out, g') /\ len out = 5.
Proof.
  split; [exact example_hmac_wf|].
  destruct (generate_returns_count_bytes (P := test_primitives)
              (PS := test_primitives_spec) (HMAC_DRBG example_hmac)
              example_hmac_wf) as (_ & H & _).
  apply H.
  - cbn. lia.
  - exact I.
  - cbn. unfold RESEED_INTERVAL. lia.
Defined.

(** ** The reseed signal *)

Section Reseed_signal.

Context {P : Primitives}.

(** C4 (amended): [generate] raises [ReseedRequired] exactly when the count
    and additional-input checks pass and the reseed counter, at the start
    of the call, is greater than [RESEED_INTERVAL]; a call that starts with
    the counter equal to the interval is not refused, and every successful
    call advances the counter by one. *)
Theorem generate_ReseedRequired_iff (count : Z) (data : option bytes)
    (g : DRBG) :
  (fst (generate count data g) = Raise ReseedRequired <->
   0 < count < max_request_size g /\
   len (or_empty data) <= MAX_ENTROPY_LENGTH /\
   RESEED_INTERVAL < reseed_counter g) /\
  (forall out g', generate count data g = (Ok out, g') ->
                  reseed_counter g' = reseed_counter g + 1).
Proof.
  split; [|intros out g' H; apply (generate_increments_counter _ _ _ _ _ H)].
  destruct (generate_guards count data g) as (H1 & H2 & H3 & H4).
  split.
  - intros H.
    destruct (Z_lt_dec 0 count) as [Hc1|Hc1];
      [destruct (Z_lt_dec count (max_request_size g)) as [Hc2|Hc2]|].
    + destruct (Z_lt_dec MAX_ENTROPY_LENGTH (len (or_empty data))) as [Hd|Hd].
      * rewrite H2 in H by lia. discriminate.
      * destruct (Z_lt_dec RESEED_INTERVAL (reseed_counter g)) as [Hr|Hr];
          [lia|].
        rewrite H4 in H by lia.
        destruct (_generate count data g) as [[out|e|] g1] eqn:E;
          cbn [fst] in H; try discriminate.
        inversion H; subst.
        exfalso. exact (_generate_not_ReseedRequired _ _ _ _ E).
    + rewrite H1 in H by lia. discriminate.
    + rewrite H1 in H by lia. discriminate.
  - intros (Hc & Hd & Hr). rewrite H3 by assumption. reflexivity.
Qed.

End Reseed_signal.

(** The second [generate] of a fresh HMAC_DRBG starts with the counter at
    the interval, succeeds, and leaves the counter at [RESEED_INTERVAL + 1];
    only the third call is refused. *)
Lemma generate_ReseedRequired_iff_witness :
  reseed_counter (after_generates (P := test_primitives) 1 (HMAC_DRBG example_hmac))
  = RESEED_INTERVAL /\
  reseed_counter (after_generates (P := test_primitives) 2 (HMAC_DRBG example_hmac))
  = RESEED_INTERVAL + 1 /\
  fst (generate (P := test_primitives) 1 None
         (after_generates (P := test_primitives) 2 (HMAC_DRBG example_hmac)))
  = Raise ReseedRequired.
Proof.
  split; [reflexivity|]. split; [reflexivity|].
  apply (generate_ReseedRequired_iff (P := test_primitives)).
  repeat split; vm_compute; congruence.
Defined.

(** C4, as stated, fails: with the counter equal to the interval at the
    start of the call, [generate] returns bytes instead of raising. *)
Lemma generate_at_interval_succeeds :
  reseed_counter (after_generates (P := test_primitives) 1 (HMAC_DRBG example_hmac))
  = RESEED_INTERVAL /\
  exists out g',
    generate (P := test_primitives) 1 None
      (after_generates (P := test_primitives) 1 (HMAC_DRBG example_hmac))
    = (Ok out, g').
Proof.
  split; [reflexivity|]. vm_compute. do 2 eexists. reflexivity.
Qed.

(** ** [reseed] and the reseed counter *)

Section Reseed.

Context {P : Primitives}.

(** [DRBG.reseed], which CTR_DRBG and Hash_DRBG inherit, ends with the
    counter at 1. *)
Lemma DRBG_reseed_resets_counter (entropy : bytes) (data : option bytes)
    (g g' : DRBG) :
  DRBG_reseed entropy data g = (Ok tt, g') -> reseed_counter g' = 1.
Proof.
  unfold DRBG_reseed.
  destruct (_reseed entropy data g) as [[u|e|] g1]; intros H; inversion H.
  apply reseed_counter_set.
Qed.

(** [HMACDRBG.reseed] always returns and never touches the counter. *)
Lemma HMACDRBG_reseed_counter (entropy : bytes) (data : option bytes)
    (s : HMACDRBG) :
  reseed entropy data (HMAC_DRBG s)
  = (Ok tt, HMAC_DRBG (HMACDRBG_reseed entropy data s)) /\
  hmac_reseed_counter (HMACDRBG_reseed entropy data s) = hmac_reseed_counter s /\
  hmac_max_request_size (HMACDRBG_reseed entropy data s)
  = hmac_max_request_size s.
Proof. repeat split. Qed.

(** C1, evaluated on the code: a successful [reseed] of a CTR_DRBG or
    Hash_DRBG leaves [reseed_counter = 1], but a [reseed] of an HMAC_DRBG,
    which always succeeds, leaves the counter at the value it had. *)
Theorem reseed_counter_after_reseed (entropy : bytes) (data : option bytes) :
  (forall s g', reseed entropy data (CTR_DRBG s) = (Ok tt, g') ->
                reseed_counter g' = 1) /\
  (forall s g', reseed entropy data (Hash_DRBG s) = (Ok tt, g') ->
                reseed_counter g' = 1) /\
  (forall s, exists g',
      reseed entropy data (HMAC_DRBG s) = (Ok tt, g') /\
      reseed_counter g' = hmac_reseed_counter s).
Proof.
  split; [|split].
  - intros s g' H. exact (DRBG_reseed_resets_counter _ _ _ _ H).
  - intros s g' H. exact (DRBG_reseed_resets_counter _ _ _ _ H).
  - intros s. eexists. split; reflexivity.
Qed.

(** [generate] refuses additional input longer than [MAX_ENTROPY_LENGTH]
    with a [ValueError] and leaves the instance as it was. *)
Lemma generate_oversized_data_refused (count : Z) (d : bytes) (g : DRBG) :
  MAX_ENTROPY_LENGTH < len d ->
  exists msg, generate count (Some d) g = (Raise (ValueError msg), g).
Proof.
  intros Hd. destruct (generate_guards count (Some d) g) as (H1 & H2 & _).
  destruct (Z_lt_dec 0 count) as [Hc1|Hc1];
    [destruct (Z_lt_dec count (max_request_size g)) as [Hc2|Hc2]|].
  - eexists. apply H2; [lia|exact Hd].
  - eexists. apply H1. lia.
  - eexists. apply H1. lia.
Qed.

(** [CTRDRBG._reseed] refuses additional input longer than [seedlen]. *)
Lemma CTRDRBG_reseed_oversized_data_refused (entropy d : bytes) (s : CTRDRBG) :
  0 <= ctr_seedlen s < len d ->
  reseed entropy (Some d) (CTR_DRBG s)
  = (Raise (ValueError "Too much data."), CTR_DRBG s).
Proof.
  intros Hd. unfold reseed, DRBG_reseed, _reseed, CTRDRBG_reseed.
  assert (truthy (Some d) = true) as ->.
  { destruct d; [change (len (@nil byte)) with 0 in Hd; lia|reflexivity]. }
  cbn [or_empty andb].
  assert ((ctr_seedlen s <? len d) = true) as -> by (apply Z.ltb_lt; lia).
  reflexivity.
Qed.

End Reseed.

(** The failing run on the stand-in primitives: two [generate] calls
    bring a fresh HMAC_DRBG to counter 3; [reseed] returns, the counter is
    still 3, and [generate] is refused again. *)
Lemma HMACDRBG_reseed_failing_run :
  let g := after_generates (P := test_primitives) 2 (HMAC_DRBG example_hmac) in
  let g' := snd (reseed (P := test_primitives) (zeros 32) None g) in
  reseed_counter g = 3 /\
  fst (reseed (P := test_primitives) (zeros 32) None g) = Ok tt /\
  reseed_counter g' = 3 /\
  fst (generate (P := test_primitives) 1 None g') = Raise ReseedRequired.
Proof. vm_compute. repeat split. Qed.

(** ** Additional input beyond [MAX_ENTROPY_LENGTH] in [reseed] *)

Section Oversized.

Context {P : Primitives}.

(** [reseed] of a Hash_DRBG or HMAC_DRBG inspects no length at all. *)
Lemma reseed_unchecked (entropy : bytes) (data : option bytes)
    (h : HashDRBG) (m : HMACDRBG) :
  reseed entropy data (Hash_DRBG h)
  = (Ok tt, set_reseed_counter (Hash_DRBG (HashDRBG_reseed entropy data h)) 1) /\
  reseed entropy data (HMAC_DRBG m)
  = (Ok tt, HMAC_DRBG (HMACDRBG_reseed entropy data m)).
Proof. split; reflexivity. Qed.

(** C3, evaluated on the code: with [2^21 + 1] bytes of additional input,
    [reseed] of a Hash_DRBG or an HMAC_DRBG does not fail; it returns and
    replaces the working state (and, for Hash_DRBG, resets the counter). *)
Theorem reseed_accepts_oversized_data (entropy : bytes) (h : HashDRBG)
    (m : HMACDRBG) :
  let data := zeros (MAX_ENTROPY_LENGTH + 1) in
  MAX_ENTROPY_LENGTH < len data /\
  reseed entropy (Some data) (Hash_DRBG h)
  = (Ok tt, set_reseed_counter
              (Hash_DRBG (HashDRBG_reseed entropy (Some data) h)) 1) /\
  reseed entropy (Some data) (HMAC_DRBG m)
  = (Ok tt, HMAC_DRBG (HMACDRBG_reseed entropy (Some data) m)).
Proof.
  intros data.
  assert (MAX_ENTROPY_LENGTH < len data) as Hlen.
  { unfold data. rewrite len_zeros. unfold MAX_ENTROPY_LENGTH. lia. }
  clearbody data. split; [exact Hlen|]. apply reseed_unchecked.
Qed.

End Oversized.

(** ** The factory *)

Section Factory.

Context {P : Primitives}.

(** The only generator [new] ever builds is an HMAC_DRBG seeded with the
    two 128-byte strings drawn from [os.urandom]. *)
Lemma new_hmac (ps : option bytes) (k : nat) :
  new "sha256hmac" ps k =
  (d <- HMACDRBG_init "sha256" (os_urandom k 128) (os_urandom (S k) 128) ps ;;
   Ok (Some (HMAC_DRBG d))) /\
  exists d, new "sha256hmac" ps k = Ok (Some (HMAC_DRBG d)).
Proof. split; [reflexivity|]. eexists. reflexivity. Qed.

Lemma new_outcomes (name : string) (ps : option bytes) (k : nat) :
  new name ps k = Ok None \/
  (exists msg, new name ps k = Raise (ValueError msg)) \/
  (exists msg, new name ps k = Raise (RuntimeError msg)) \/
  (exists d, new name ps k = Ok (Some (HMAC_DRBG d))).
Proof.
  unfold new. destruct (re_match (lower name)) as [[digest group2]|]; [|auto].
  destruct (str_in digest DIGESTS); cbn [negb]; [|eauto].
  destruct group2; [|auto].
  unfold HMACDRBG_init. destruct (negb _); cbn [bind]; eauto 6.
Qed.

(** C2, evaluated on the code: for a supported digest name without the
    HMAC suffix and for a supported cipher name [new] returns [None], not
    a generator; an unrecognized name also returns [None] (or raises
    [ValueError] when it merely looks like a digest); [UnknownAlgorithm]
    is never raised, and no CTR_DRBG or Hash_DRBG is ever returned. *)
Theorem new_falls_through (ps : option bytes) (k : nat) :
  new "sha256" ps k = Ok None /\
  new "aes128" ps k = Ok None /\
  new "md5" ps k = Ok None /\
  new "sha999" ps k = Raise (ValueError "Unsupported digest sha999") /\
  (forall name, new name ps k <> Raise UnknownAlgorithm) /\
  (forall name g, new name ps k = Ok (Some g) -> exists d, g = HMAC_DRBG d).
Proof.
  repeat split; try reflexivity.
  - intros name H.
    destruct (new_outcomes name ps k) as [E|[[? E]|[[? E]|[? E]]]];
      rewrite E in H; discriminate.
  - intros name g H.
    destruct (new_outcomes name ps k) as [E|[[? E]|[[? E]|[d E]]]];
      rewrite E in H; try discriminate.
    inversion H. eauto.
Qed.

End Factory.

(** ** The auto-reseeding wrapper *)

Section Wrapper.

Context {P : Primitives}.

Lemma no_data_within_limit : len (or_empty None) <= MAX_ENTROPY_LENGTH.
Proof. cbn. discriminate. Qed.

(** A request of [max_request_size] bytes or more makes the first chunk
    [max_request_size] bytes long, which [generate] refuses. *)
Lemma get_bytes_loop_full_chunk (fuel : nat) (count : Z) (buf : bytes)
    (g : DRBG) (k : nat) :
  0 < count -> max_request_size g <= count ->
  get_bytes_loop (S fuel) (max_request_size g) count buf g k
  = (Raise InvalidRequest, (g, k)).
Proof.
  intros Hc Hm. cbn [get_bytes_loop].
  assert ((0 <? count) = true) as -> by (apply Z.ltb_lt; lia).
  set (count_ := if max_request_size g <? count
                 then max_request_size g else count).
  assert (~ 0 < count_ < max_request_size g) as Hbad.
  { unfold count_. destruct (max_request_size g <? count) eqn:E; lia. }
  destruct (generate_guards count_ None g) as (H1 & _).
  rewrite (H1 Hbad). reflexivity.
Qed.

(** C5, evaluated on the code: for every generator and every request of
    [max_request_size] bytes or more, [_get_bytes] returns no bytes: the
    [ValueError] of the first [generate] call escapes the loop. *)
Theorem get_bytes_rejects_full_chunk (fuel : nat) (count : Z)
    (self : RandomByteGenerator) (k : nat) :
  0 < count -> max_request_size (drbg self) <= count ->
  _get_bytes (S fuel) count self k = (Raise InvalidRequest, (self, k)).
Proof.
  intros Hc Hm. unfold _get_bytes.
  rewrite get_bytes_loop_full_chunk by assumption.
  destruct self. reflexivity.
Qed.

(** Once an HMAC_DRBG asks for a reseed, the loop never ends: [reseed]
    leaves the counter where it was, so every retry is refused again. *)
Lemma get_bytes_loop_hmac_diverges (fuel : nat) :
  forall (count : Z) (buf : bytes) (s : HMACDRBG) (k : nat),
    0 < count < hmac_max_request_size s ->
    RESEED_INTERVAL < hmac_reseed_counter s ->
    fst (get_bytes_loop fuel (hmac_max_request_size s) count buf
           (HMAC_DRBG s) k) = Diverges.
Proof.
  induction fuel as [|f IH]; intros count buf s k Hc Hr; [reflexivity|].
  cbn [get_bytes_loop].
  assert ((0 <? count) = true) as -> by (apply Z.ltb_lt; lia).
  assert ((hmac_max_request_size s <? count) = false) as ->
    by (apply Z.ltb_ge; lia).
  destruct (generate_guards count None (HMAC_DRBG s)) as (_ & _ & H3 & _).
  rewrite H3; [|exact Hc|exact no_data_within_limit|exact Hr].
  destruct (HMACDRBG_reseed_counter (os_urandom k 32) None s) as (-> & Hrc & Hm).
  rewrite <- Hm. apply IH; rewrite ?Hm, ?Hrc; assumption.
Qed.

End Wrapper.

(** A request of exactly [max_request_size] bytes on a fresh Hash_DRBG. *)
Lemma get_bytes_rejects_full_chunk_witness :
  _get_bytes (P := test_primitives) 1 65536
    (mkRandomByteGenerator (Hash_DRBG example_hash) [] 0) 0%nat
  = (Raise InvalidRequest,
     (mkRandomByteGenerator (Hash_DRBG example_hash) [] 0, 0%nat)).
Proof.
  apply (get_bytes_rejects_full_chunk (P := test_primitives)).
  - lia.
  - cbn. lia.
Defined.

(** ** Auto-reseeding: which generators the wrapper can recover *)

Section Auto_reseed.

Context {P : Primitives} {PS : PrimitivesSpec P}.

(** A request below [max_request_size] within the interval: one chunk. *)
Lemma get_bytes_loop_one_chunk (fuel : nat) (count : Z) (buf : bytes)
    (g : DRBG) (k : nat) :
  wf g -> 0 < count < max_request_size g ->
  reseed_counter g <= RESEED_INTERVAL ->
  exists out g',
    get_bytes_loop (S (S fuel)) (max_request_size g) count buf g k
    = (Ok (buf ++ out), (g', k)) /\ len out = count.
Proof.
  intros Hwf Hc Hr.
  destruct (generate_ok count None g Hwf Hc I Hr) as (out & g' & Hg & Hlen & _).
  exists out, g'. split; [|exact Hlen].
  cbn [get_bytes_loop].
  assert ((0 <? count) = true) as -> by (apply Z.ltb_lt; lia).
  assert ((max_request_size g <? count) = false) as -> by (apply Z.ltb_ge; lia).
  rewrite Hg, Z.sub_diag. reflexivity.
Qed.

(** A request refused with [ReseedRequired], a [reseed] that succeeds and
    resets the counter, and the retried chunk. *)
Lemma get_bytes_loop_reseed_then_chunk (fuel : nat) (count : Z) (buf : bytes)
    (g g1 : DRBG) (k : nat) :
  0 < count < max_request_size g ->
  RESEED_INTERVAL < reseed_counter g ->
  reseed (os_urandom k 32) None g = (Ok tt, g1) ->
  wf g1 -> reseed_counter g1 <= RESEED_INTERVAL ->
  max_request_size g1 = max_request_size g ->
  exists out g',
    get_bytes_loop (S (S (S fuel))) (max_request_size g) count buf g k
    = (Ok (buf ++ out), (g', S k)) /\ len out = count.
Proof.
  intros Hc Hr Hrs Hwf1 Hr1 Hm1.
  destruct (get_bytes_loop_one_chunk fuel count buf g1 (S k) Hwf1
              ltac:(lia) Hr1) as (out & g' & Hloop & Hlen).
  exists out, g'. split; [|exact Hlen].
  rewrite Hm1 in Hloop.
  remember (S (S fuel)) as n eqn:Hn. cbn [get_bytes_loop].
  assert ((0 <? count) = true) as -> by (apply Z.ltb_lt; lia).
  assert ((max_request_size g <? count) = false) as -> by (apply Z.ltb_ge; lia).
  destruct (generate_guards count None g) as (_ & _ & H3 & _).
  rewrite (H3 Hc no_data_within_limit Hr), Hrs. exact Hloop.
Qed.

(** [reseed] of a CTR_DRBG whose [seedlen] is 32 accepts the 32 bytes the
    wrapper draws. *)
Lemma reseed_CTRDRBG_32 (s : CTRDRBG) (k : nat) :
  wf_CTRDRBG s -> ctr_seedlen s = 32 ->
  exists s',
    reseed (os_urandom k 32) None (CTR_DRBG s) = (Ok tt, CTR_DRBG s') /\
    wf_CTRDRBG s' /\ ctr_reseed_counter s' = 1 /\
    ctr_max_request_size s' = ctr_max_request_size s.
Proof.
  intros Hwf Hs.
  destruct (CTRDRBG_reseed_ok (os_urandom k 32) None s Hwf)
    as (s1 & H1 & Hwf1 & Hrc1).
  - rewrite os_urandom_len; lia.
  - cbn [or_empty]. rewrite len_nil. lia.
  - unfold reseed, DRBG_reseed, _reseed. rewrite H1.
    eexists. split; [reflexivity|].
    cbn [ctr_reseed_counter ctr_max_request_size].
    pose proof Hwf as ((_ & Hm & _) & _). pose proof Hwf1 as ((_ & Hm1 & _) & _).
    repeat split; try apply Hwf1. congruence.
Qed.

(** C10: take a well-formed CTR_DRBG inside the wrapper whose counter has
    passed the interval, and a request the generator would otherwise
    serve.  [generate] raises [ReseedRequired].  With a 192-bit or 256-bit
    key the wrapper's [reseed] with 32 bytes raises [ValueError] ("Too much
    entropy.") and [_get_bytes] fails with it; with a 128-bit key the
    reseed succeeds and [_get_bytes] returns exactly [count] bytes. *)
Theorem auto_reseed_CTRDRBG (fuel : nat) (count : Z) (s : CTRDRBG)
    (buf : bytes) (index : Z) (k : nat) :
  wf_CTRDRBG s -> 0 < count < ctr_max_request_size s ->
  RESEED_INTERVAL < ctr_reseed_counter s ->
  let self := mkRandomByteGenerator (CTR_DRBG s) buf index in
  generate count None (CTR_DRBG s) = (Raise ReseedRequired, CTR_DRBG s) /\
  (ctr_keylen s = 192 \/ ctr_keylen s = 256 ->
   (ctr_seedlen s = 40 \/ ctr_seedlen s = 48) /\
   reseed (os_urandom k 32) None (CTR_DRBG s)
   = (Raise (ValueError "Too much entropy."), CTR_DRBG s) /\
   _get_bytes (S fuel) count self k
   = (Raise (ValueError "Too much entropy."), (self, S k))) /\
  (ctr_keylen s = 128 ->
   ctr_seedlen s = 32 /\
   exists out self',
     _get_bytes (S (S (S fuel))) count self k = (Ok out, (self', S k)) /\
     len out = count).
Proof.
  intros Hwf Hc Hr self. pose proof Hwf as ((Hk & Hm & Ho & Hs) & _).
  destruct (generate_guards count None (CTR_DRBG s)) as (_ & _ & H3 & _).
  specialize (H3 Hc no_data_within_limit Hr).
  split; [exact H3|]. split.
  - intros Hkey.
    assert (ctr_seedlen s = 40 \/ ctr_seedlen s = 48) as Hsl.
    { rewrite Hs, Ho. destruct Hkey as [-> | ->]; cbn; auto. }
    assert (reseed (os_urandom k 32) None (CTR_DRBG s)
            = (Raise (ValueError "Too much entropy."), CTR_DRBG s)) as Hrs.
    { unfold reseed, DRBG_reseed, _reseed.
      rewrite CTRDRBG_reseed_wrong_length; [reflexivity|].
      rewrite os_urandom_len; lia. }
    split; [exact Hsl|]. split; [exact Hrs|].
    unfold _get_bytes, self. cbn [drbg get_bytes_loop max_request_size _buf _buf_index].
    assert ((0 <? count) = true) as -> by (apply Z.ltb_lt; lia).
    assert ((ctr_max_request_size s <? count) = false) as ->
      by (apply Z.ltb_ge; lia).
    rewrite H3, Hrs. reflexivity.
  - intros Hkey.
    assert (ctr_seedlen s = 32) as Hsl by (rewrite Hs, Ho, Hkey; reflexivity).
    split; [exact Hsl|].
    destruct (reseed_CTRDRBG_32 s k Hwf Hsl) as (s' & Hrs & Hwf' & Hrc' & Hm').
    destruct (get_bytes_loop_reseed_then_chunk fuel count [] (CTR_DRBG s)
                (CTR_DRBG s') k Hc Hr Hrs Hwf')
      as (out & g' & Hloop & Hlen).
    + cbn [reseed_counter]. rewrite Hrc'. unfold RESEED_INTERVAL. lia.
    + exact Hm'.
    + exists out. eexists. split; [|exact Hlen].
      unfold _get_bytes, self. cbn [drbg _buf _buf_index].
      rewrite Hloop. reflexivity.
Qed.

(** A Hash_DRBG is always recovered: [reseed] takes any entropy. *)
Lemma auto_reseed_HashDRBG (fuel : nat) (count : Z) (s : HashDRBG)
    (buf : bytes) (index : Z) (k : nat) :
  wf_HashDRBG s -> 0 < count < hash_max_request_size s ->
  RESEED_INTERVAL < hash_reseed_counter s ->
  exists out self',
    _get_bytes (S (S (S fuel))) count
      (mkRandomByteGenerator (Hash_DRBG s) buf index) k
    = (Ok out, (self', S k)) /\ len out = count.
Proof.
  intros Hwf Hc Hr.
  assert (reseed (os_urandom k 32) None (Hash_DRBG s)
          = (Ok tt, set_reseed_counter
                      (Hash_DRBG (HashDRBG_reseed (os_urandom k 32) None s)) 1))
    as Hrs by reflexivity.
  destruct (HashDRBG_reseed_wf (os_urandom k 32) None s Hwf) as [Hwf1 _].
  destruct (get_bytes_loop_reseed_then_chunk fuel count [] (Hash_DRBG s) _ k
              Hc Hr Hrs) as (out & g' & Hloop & Hlen).
  - exact Hwf1.
  - cbn. discriminate.
  - reflexivity.
  - exists out. eexists. split; [|exact Hlen].
    unfold _get_bytes. cbn [drbg _buf _buf_index]. rewrite Hloop. reflexivity.
Qed.

End Auto_reseed.

(** A CTR_DRBG on AES-256 after two [generate] calls: the wrapper's
    recovery fails. *)
Lemma auto_reseed_CTRDRBG_witness :
  _get_bytes (P := test_primitives) 1 4
    (mkRandomByteGenerator
       (CTR_DRBG (mkCTRDRBG 256 (2 ^ 13) 128 48 (zeros 32) (zeros 16) 3)) [] 0)
    0%nat
  = (Raise (ValueError "Too much entropy."),
     (mkRandomByteGenerator
        (CTR_DRBG (mkCTRDRBG 256 (2 ^ 13) 128 48 (zeros 32) (zeros 16) 3)) [] 0,
      1%nat)).
Proof.
  refine (proj2 (proj2 (proj1 (proj2
    (auto_reseed_CTRDRBG (P := test_primitives) (PS := test_primitives_spec)
       0 4 (mkCTRDRBG 256 (2 ^ 13) 128 48 (zeros 32) (zeros 16) 3) [] 0 0%nat
       _ _ _)) _))).
  - unfold wf_CTRDRBG, ctr_params. cbn. repeat split; auto.
  - cbn. lia.
  - cbn. unfold RESEED_INTERVAL. lia.
  - right. reflexivity.
Defined.

(** ** The hash derivation function *)

Section Derivation.

Context {P : Primitives}.

(** The loop of [__df] builds the blocks for counters [1..n]. *)
Lemma HashDRBG_df_blocks (digest : string) (o : Z) (input : bytes)
    (output_bitlen : Z) :
  HashDRBG_df digest o input output_bitlen
  = slice_to (df_blocks digest o input output_bitlen) ((output_bitlen + 4) / 8).
Proof.
  unfold HashDRBG_df, df_blocks. cbv zeta.
  rewrite (fold_digests digest
             (fun counter => byte_of_Z ((Z.of_nat counter + 1) mod 255)
                               :: bytepad (long2bytes output_bitlen) 4 ++ input)).
  cbn [app]. f_equal. f_equal.
  rewrite <- seq_shift, map_map. apply map_ext. intros c.
  rewrite Nat2Z.inj_succ. reflexivity.
Qed.

Lemma round_is_ceil (n : Z) :
  n mod 8 = 0 \/ 4 <= n mod 8 -> (n + 4) / 8 = ceil_div n 8.
Proof. unfold ceil_div. intros H. Z.div_mod_to_equations. lia. Qed.

(** C7 (amended): for every input and every output bit length from 0 up
    to (not including) [2^53], where the float quotient
    [output_bitlen / float(outlen)] of the code still has the ceiling of the
    exact quotient, [__df] is the concatenation of the digest blocks for
    counters [1..ceil(output_bitlen / outlen)] truncated to
    [(output_bitlen + 4) // 8] bytes; that is the [ceil(output_bitlen / 8)]
    bytes of the specification whenever [output_bitlen mod 8] is 0 or at
    least 4, as it is for the two widths (440 and 888) the generator
    uses.  [o] is the instance's [outlen], a positive number of bits. *)
Theorem HashDRBG_df_correct (digest : string) (o : Z) (input : bytes)
    (output_bitlen : Z) :
  0 < o < 2 ^ 53 ->
  0 <= output_bitlen < 2 ^ 53 ->
  HashDRBG_df digest o input output_bitlen
  = firstn (Z.to_nat ((output_bitlen + 4) / 8))
           (df_blocks digest o input output_bitlen) /\
  (output_bitlen mod 8 = 0 \/ 4 <= output_bitlen mod 8 ->
   HashDRBG_df digest o input output_bitlen
   = df_spec digest o input output_bitlen).
Proof.
  intros _ [Hb _].
  assert (HashDRBG_df digest o input output_bitlen
          = firstn (Z.to_nat ((output_bitlen + 4) / 8))
                   (df_blocks digest o input output_bitlen)) as Hcode.
  { rewrite HashDRBG_df_blocks. unfold slice_to.
    assert (((output_bitlen + 4) / 8 <? 0) = false) as ->; [|reflexivity].
    apply Z.ltb_ge. apply Z.div_pos; lia. }
  split; [exact Hcode|].
  intros Hm. rewrite Hcode. unfold df_spec. rewrite round_is_ceil by exact Hm.
  reflexivity.
Qed.

(** For a one-bit request the code returns nothing where the specification
    asks for one byte, whatever the digest. *)
Lemma HashDRBG_df_one_bit {PS : PrimitivesSpec P} (digest : string)
    (input : bytes) :
  str_in digest DIGESTS = true ->
  len (HashDRBG_df digest (8 * digest_size digest) input 1) = 0 /\
  len (df_spec digest (8 * digest_size digest) input 1) = 1.
Proof.
  intros Hd. split.
  - rewrite HashDRBG_df_blocks. reflexivity.
  - unfold df_spec, df_blocks. cbv zeta.
    pose proof (digest_size_range digest Hd) as Hr.
    assert (ceil_div 1 (8 * digest_size digest) = 1) as ->.
    { unfold ceil_div. Z.div_mod_to_equations. nia. }
    change (ceil_div 1 8) with 1. change (Z.to_nat 1) with 1%nat.
    cbn [seq map concat].
    rewrite app_nil_r. unfold len. rewrite length_firstn.
    pose proof (hashlib_len digest
      (byte_of_Z (Z.of_nat 1 mod 255) :: bytepad (long2bytes 1) 4 ++ input) Hd)
      as Hl.
    unfold len in Hl. lia.
Qed.

End Derivation.

(** The two seed widths, on SHA-1 with the stand-in digest. *)
Lemma HashDRBG_df_correct_witness :
  HashDRBG_df (P := test_primitives) "sha1" 160 [x01; x02] 440
  = df_spec (P := test_primitives) "sha1" 160 [x01; x02] 440.
Proof.
  apply (HashDRBG_df_correct (P := test_primitives)).
  - split; reflexivity.
  - split; [discriminate|reflexivity].
  - left. reflexivity.
Defined.

(** C7, as stated, fails at [output_bitlen = 1]: [(1 + 4) // 8 = 0] bytes
    are returned, not [ceil(1 / 8) = 1]. *)
Lemma HashDRBG_df_rounds_down :
  len (HashDRBG_df (P := test_primitives) "sha1" 160 [] 1) = 0 /\
  len (df_spec (P := test_primitives) "sha1" 160 [] 1) = 1.
Proof. split; reflexivity. Qed.

(** ** Empty additional input *)

Section Empty_data.

Context {P : Primitives} {PS : PrimitivesSpec P}.

(** Adding a non-zero value below the modulus changes a residue. *)
Lemma add_mod_changes (v w M : Z) :
  0 <= v < M -> 0 < w < M -> (v + w) mod M <> v.
Proof.
  intros Hv Hw H.
  destruct (Z_lt_dec (v + w) M) as [Hlt|Hge].
  - rewrite Z.mod_small in H by lia. lia.
  - replace (v + w) with (v + w - M + 1 * M) in H by lia.
    rewrite Z.mod_add, Z.mod_small in H by lia. lia.
Qed.

(** A digest is narrower than the seed. *)
Lemma digest_below_seed (s : HashDRBG) (msg : bytes) :
  wf_HashDRBG s ->
  bytes2long (hashlib (hash_digest s) msg) < 2 ^ hash_seedlen s /\
  bytes2long (hash_V s) < 2 ^ hash_seedlen s.
Proof.
  intros (Hd & _ & Ho & Hs & HV & _).
  pose proof (bytes2long_range (hashlib (hash_digest s) msg)) as Hw.
  pose proof (bytes2long_range (hash_V s)) as Hv.
  rewrite hashlib_len in Hw by exact Hd. rewrite HV in Hv.
  destruct (hash_params_cases _ _ _ Hd Ho Hs)
    as [(E&_&E')|[(E&_&E')|[(E&_&E')|[(E&_&E')|(E&_&E')]]]];
    rewrite E in Hw; rewrite E' in *;
    (split; [eapply Z.lt_le_trans; [apply Hw|]; vm_compute; discriminate
            |eapply Z.lt_le_trans; [apply Hv|]; vm_compute; discriminate]).
Qed.

(** With empty additional input [_generate] behaves as it does without,
    from the state in which [V] has absorbed [w]. *)
Lemma HashDRBG_generate_empty_data (count : Z) (s : HashDRBG) :
  HashDRBG_generate count (Some []) s
  = HashDRBG_generate count None
      (hash_set_V s (HashDRBG_working_V (Some []) s)).
Proof. reflexivity. Qed.

End Empty_data.

(** ** Well-formedness is an invariant *)

Section Invariant.

Context {P : Primitives} {PS : PrimitivesSpec P}.

Lemma construct_wf (c : constructor_call) (g : DRBG) :
  construct c = Ok g -> wf g /\ reseed_counter g = 1.
Proof.
  destruct c as [name entropy data|name entropy nonce data|name entropy nonce data];
    cbn [construct]; unfold bind; intros H; head_case H; try discriminate;
    apply Ok_inj in H; subst g; cbn [wf reseed_counter].
  - match goal with E : CTRDRBG_init _ _ _ = Ok _ |- _ =>
      apply CTRDRBG_init_wf in E; tauto end.
  - match goal with E : HashDRBG_init _ _ _ _ = Ok _ |- _ =>
      apply HashDRBG_init_wf in E; tauto end.
  - match goal with E : HMACDRBG_init _ _ _ _ = Ok _ |- _ =>
      apply HMACDRBG_init_wf in E; tauto end.
Qed.

Lemma CTRDRBG_generate_wf (count : Z) (data : option bytes) (s : CTRDRBG) :
  wf_CTRDRBG s -> 0 <= count ->
  wf_CTRDRBG (snd (CTRDRBG_generate count data s)).
Proof.
  intros Hwf Hc.
  destruct (Z_le_dec (len (or_empty data)) (ctr_seedlen s)) as [Hd|Hd].
  - destruct (CTRDRBG_generate_ok count data s Hwf Hc Hd)
      as (out & s' & -> & _ & Hwf' & _).
    exact Hwf'.
  - unfold CTRDRBG_generate.
    assert (truthy data = true) as ->.
    { destruct data as [[|x d]|]; cbn [or_empty truthy] in *; try reflexivity;
        exfalso; apply Hd; change (len (@nil byte)) with 0;
        destruct Hwf as (Hp & _);
        destruct (ctr_params_seedlen s Hp) as [[?|[?|?]] _]; lia. }
    assert ((ctr_seedlen s <? len (or_empty data)) = true) as ->
      by (apply Z.ltb_lt; lia).
    exact Hwf.
Qed.

Lemma CTRDRBG_reseed_wf (entropy : bytes) (data : option bytes) (s : CTRDRBG) :
  wf_CTRDRBG s -> wf_CTRDRBG (snd (CTRDRBG_reseed entropy data s)).
Proof.
  intros Hwf. unfold CTRDRBG_reseed.
  destruct (truthy data && (ctr_seedlen s <? len (or_empty data))) eqn:E1;
    [exact Hwf|].
  destruct (len entropy =? ctr_seedlen s) eqn:E2; cbn [negb]; [|exact Hwf].
  pose proof (proj1 (Z.eqb_eq _ _) E2) as He.
  assert (len (or_empty data) <= ctr_seedlen s) as Hd.
  { apply andb_false_iff in E1. destruct E1 as [E1|E1].
    - destruct data as [[|x d]|]; cbn [truthy or_empty] in *;
        try discriminate; change (len (@nil byte)) with 0;
        destruct Hwf as (Hp & _);
        destruct (ctr_params_seedlen s Hp) as [[?|[?|?]] _]; lia.
    - apply Z.ltb_ge in E1. exact E1. }
  destruct (CTRDRBG_reseed_ok entropy data s Hwf He Hd) as (s' & H & Hwf' & _).
  unfold CTRDRBG_reseed in H. rewrite E1, E2 in H. cbn [negb] in H.
  rewrite H. exact Hwf'.
Qed.

Lemma generate_preserves_wf (count : Z) (data : option bytes) (g : DRBG) :
  wf g -> wf (snd (generate count data g)).
Proof.
  intros Hwf. unfold generate, DRBG_generate.
  destruct (0 <? count) eqn:E0; cbn [andb negb]; [|exact Hwf].
  apply Z.ltb_lt in E0.
  destruct (negb _); [exact Hwf|].
  destruct (match data with Some _ => _ | None => _ end); [exact Hwf|].
  destruct (RESEED_INTERVAL <? reseed_counter g); [exact Hwf|].
  assert (wf (snd (_generate count data g))) as H.
  { destruct g as [s|s|s]; cbn [_generate wf] in *.
    - pose proof (CTRDRBG_generate_wf count data s Hwf ltac:(lia)) as H.
      destruct (CTRDRBG_generate count data s). exact H.
    - pose proof (HashDRBG_generate_ok count data s Hwf ltac:(lia)) as (_ & H & _).
      destruct (HashDRBG_generate count data s). exact H.
    - destruct (HMACDRBG_generate_ok count data s Hwf ltac:(lia))
        as (out & s' & -> & _ & H & _).
      exact H. }
  destruct (_generate count data g) as [[out|e|] g']; cbn [snd] in *;
    try exact H.
  apply wf_set_reseed_counter. exact H.
Qed.

Lemma reseed_preserves_wf (entropy : bytes) (data : option bytes) (g : DRBG) :
  wf g -> wf (snd (reseed entropy data g)).
Proof.
  intros Hwf. destruct g as [s|s|s]; cbn [reseed wf] in *.
  - unfold DRBG_reseed, _reseed.
    pose proof (CTRDRBG_reseed_wf entropy data s Hwf) as H.
    destruct (CTRDRBG_reseed entropy data s) as [[u|e|] s']; exact H.
  - apply (HashDRBG_reseed_wf entropy data s Hwf).
  - apply HMACDRBG_reseed_wf. exact Hwf.
Qed.

End Invariant.

(** ** The codec round trip *)

Lemma Z_of_byte_inj (a b : byte) : Z_of_byte a = Z_of_byte b -> a = b.
Proof.
  unfold Z_of_byte. intros H. apply N2Z.inj in H.
  pose proof (Byte.of_to_N a) as Ha. pose proof (Byte.of_to_N b) as Hb.
  rewrite H in Ha. congruence.
Qed.

(** Byte strings of one length that decode to one integer are equal. *)
Lemma bytes2long_inj (a : bytes) :
  forall b, len a = len b -> bytes2long a = bytes2long b -> a = b.
Proof.
  induction a as [|x a IH]; intros [|y b] Hl Hv.
  - reflexivity.
  - rewrite len_cons, len_nil in Hl. pose proof (len_nonneg b). lia.
  - rewrite len_cons, len_nil in Hl. pose proof (len_nonneg a). lia.
  - rewrite !len_cons in Hl. rewrite !bytes2long_cons in Hv.
    assert (len a = len b) as Hl' by lia. rewrite Hl' in Hv.
    pose proof (bytes2long_range a) as Ha. pose proof (bytes2long_range b) as Hb.
    rewrite Hl' in Ha.
    pose proof (Z_of_byte_range x). pose proof (Z_of_byte_range y).
    assert (Z_of_byte x = Z_of_byte y) as Hxy by nia.
    rewrite Hxy in Hv.
    f_equal; [apply Z_of_byte_inj; exact Hxy|apply IH; [exact Hl'|lia]].
Qed.

Lemma codec_round_trip_aux (b : bytes) :
  b <> [] -> bytepad (long2bytes (bytes2long b)) (len b) = b.
Proof.
  intros Hb. pose proof (bytes2long_range b) as Hr.
  assert (1 <= len b) as Hl.
  { destruct b as [|x b']; [congruence|].
    rewrite len_cons. pose proof (len_nonneg b'). lia. }
  apply bytes2long_inj.
  - rewrite len_bytepad. pose proof (len_long2bytes _ _ Hl Hr). lia.
  - rewrite bytes2long_bytepad. apply bytes2long_long2bytes. lia.
Qed.

(** The codec properties of the specification: left padding keeps the
    decoded value; decoding an encoding gives the integer back; encoding a
    decoded string and re-padding it to its width gives the string back. *)
Theorem codec_round_trip :
  (forall b L, bytes2long (bytepad b L) = bytes2long b) /\
  (forall n, 0 <= n -> bytes2long (long2bytes n) = n) /\
  (forall b, b <> [] -> bytepad (long2bytes (bytes2long b)) (len b) = b).
Proof.
  split; [exact bytes2long_bytepad|]. split; [exact bytes2long_long2bytes|].
  intros b Hb. pose proof (bytes2long_range b) as Hr.
  assert (1 <= len b) as Hl.
  { destruct b as [|x b']; [congruence|].
    rewrite len_cons. pose proof (len_nonneg b'). lia. }
  apply bytes2long_inj.
  - rewrite len_bytepad. pose proof (len_long2bytes _ _ Hl Hr). lia.
  - rewrite bytes2long_bytepad. apply bytes2long_long2bytes. lia.
Qed.

(** ** [long2bytes] is the minimal encoding *)

Lemma hex_digits_from_head (fuel : nat) :
  forall l acc,
    0 < l < 16 ^ (Z.of_nat fuel + 1) ->
    exists d ds, hex_digits_from fuel l acc = d :: ds /\ 0 < d < 16.
Proof.
  induction fuel as [|f IH]; intros l acc Hl; cbn [hex_digits_from].
  - exists l, acc. split; [reflexivity|]. cbn in Hl. lia.
  - destruct (l <? 16) eqn:E.
    + apply Z.ltb_lt in E. exists l, acc. split; [reflexivity|lia].
    + apply Z.ltb_ge in E. apply IH.
      replace (Z.of_nat (S f) + 1) with (1 + (Z.of_nat f + 1)) in Hl by lia.
      rewrite Z.pow_add_r in Hl by lia.
      split; [apply Z.div_str_pos; lia|apply Z.div_lt_upper_bound; lia].
Qed.

Lemma byte_of_Z_nonzero (z : Z) : 0 < z < 256 -> byte_of_Z z <> x00.
Proof.
  intros Hz H. apply (f_equal Z_of_byte) in H.
  rewrite Z_of_byte_of_Z, Z.mod_small in H by lia.
  change (Z_of_byte x00) with 0 in H. lia.
Qed.

(** The first byte of the encoding of a positive integer is not zero. *)
Lemma long2bytes_head (n : Z) :
  0 < n -> exists b rest, long2bytes n = b :: rest /\ b <> x00.
Proof.
  intros Hn.
  destruct (hex_digits_from_head (Z.to_nat (Z.log2 n)) n [])
    as (d & ds & Hhex & Hd).
  { split; [assumption|apply hex_fuel_enough; lia]. }
  fold (hex n) in Hhex.
  pose proof (hex_digits n ltac:(lia)) as Hall.
  unfold long2bytes. cbv zeta. rewrite Hhex in *.
  inversion Hall as [|? ? _ Hds]; subst.
  destruct (Nat.even (length (d :: ds))) eqn:E.
  - destruct ds as [|d2 ds']; [discriminate|].
    inversion Hds as [|? ? Hd2 _]; subst. unfold hex_digit in Hd2.
    cbn [fromhex]. do 2 eexists. split; [reflexivity|].
    apply byte_of_Z_nonzero. lia.
  - cbn [fromhex]. do 2 eexists. split; [reflexivity|].
    apply byte_of_Z_nonzero. lia.
Qed.

(** [long2bytes] never pads: zero is the single byte [00], and a positive
    integer is encoded in exactly as many bytes as it needs, with a
    non-zero first byte. *)
Theorem long2bytes_minimal :
  long2bytes 0 = [x00] /\
  (forall n, 0 < n ->
     exists b rest,
       long2bytes n = b :: rest /\ b <> x00 /\
       256 ^ (len (long2bytes n) - 1) <= n < 256 ^ len (long2bytes n)).
Proof.
  split; [reflexivity|].
  intros n Hn. destruct (long2bytes_head n Hn) as (b & rest & Heq & Hb).
  exists b, rest. split; [exact Heq|]. split; [exact Hb|].
  pose proof (bytes2long_long2bytes n ltac:(lia)) as Hv.
  pose proof (bytes2long_range (long2bytes n)) as Hr.
  rewrite Hv in Hr. split; [|lia].
  rewrite Heq in Hv |- *. rewrite bytes2long_cons in Hv. rewrite len_cons.
  replace (1 + len rest - 1) with (len rest) by lia.
  pose proof (Z_of_byte_range b) as Hbr.
  assert (Z_of_byte b <> 0) as Hnz.
  { intros H0. apply Hb. apply Z_of_byte_inj. rewrite H0. reflexivity. }
  pose proof (bytes2long_range rest) as Hrr.
  assert (0 < 256 ^ len rest) by (apply Z.pow_pos_nonneg; [lia|apply len_nonneg]).
  nia.
Qed.

(** ** What the constructors accept *)

Section Constructors.

Context {P : Primitives}.

Lemma CIPHERS_cases (nm : string) :
  str_in nm CIPHERS = true <->
  nm = "aes128"%string \/ nm = "aes192"%string \/ nm = "aes256"%string.
Proof.
  unfold str_in, CIPHERS. cbn [existsb].
  rewrite !orb_true_iff, !String.eqb_eq. intuition discriminate.
Qed.

Lemma strxor_raises (a b : bytes) (e : exn) :
  strxor a b = Raise e -> exists msg, e = ValueError msg.
Proof.
  unfold strxor. destruct (len a =? len b); [discriminate|].
  intros H. inversion H. eauto.
Qed.

Lemma CTRDRBG_update_raises (s : CTRDRBG) (pd K V : bytes) (e : exn) :
  CTRDRBG_update s pd K V = Raise e -> exists msg, e = ValueError msg.
Proof.
  unfold CTRDRBG_update.
  destruct (CTRDRBG_update_loop _ _ _ _ _ _) as [[V1 temp]|]; [|discriminate].
  destruct (strxor _ _) eqn:Hx; cbn [bind]; try discriminate.
  intros H. inversion H; subst. eapply strxor_raises; eassumption.
Qed.

(** [CTRDRBG.__init__] once the cipher name is recognized. *)
Lemma CTRDRBG_init_known (name : string) (entropy : bytes)
    (data : option bytes) (keylen : Z) :
  str_in (lower name) CIPHERS = true ->
  int_of_str (str_from 3 (lower name)) = keylen ->
  CTRDRBG_init name entropy data =
  let seedlen := (128 + keylen) / 8 in
  if negb (len entropy =? seedlen) then
    Raise (ValueError ("Entropy should be exachtly " ++ str_of_int seedlen
                       ++ " bytes long"))
  else
    seed_material <-
      (if truthy data then
         if seedlen <? len (or_empty data) then
           Raise (ValueError ("Only " ++ str_of_int seedlen
                              ++ " bytes of data supported."))
         else
           strxor entropy
             (if 0 <? len entropy - len (or_empty data)
              then zeros (len entropy - len (or_empty data)) ++ or_empty data
              else or_empty data)
       else Ok entropy) ;;
    kv <- CTRDRBG_update (mkCTRDRBG keylen (2 ^ 13) 128 seedlen [] [] 1)
            seed_material (zeros (keylen / 8)) (zeros (128 / 8)) ;;
    Ok (ctr_set_state (mkCTRDRBG keylen (2 ^ 13) 128 seedlen [] [] 1)
          (fst kv) (snd kv)).
Proof.
  intros Hin Hk. unfold CTRDRBG_init. cbv zeta. rewrite Hin, Hk. reflexivity.
Qed.

Lemma CTRDRBG_init_raises (name : string) (entropy : bytes)
    (data : option bytes) (e : exn) :
  CTRDRBG_init name entropy data = Raise e -> exists msg, e = ValueError msg.
Proof.
  destruct (str_in (lower name) CIPHERS) eqn:Hin.
  - rewrite (CTRDRBG_init_known name entropy data _ Hin eq_refl). cbv zeta.
    destruct (negb _); [intros H; inversion H; eauto|].
    destruct (truthy data).
    + destruct (_ <? len (or_empty data)); cbn [bind];
        [intros H; inversion H; eauto|].
      destruct (strxor _ _) eqn:Hx; cbn [bind].
      * destruct (CTRDRBG_update _ _ _ _) eqn:Hu; cbn [bind]; try discriminate.
        intros H. inversion H; subst. eapply CTRDRBG_update_raises; eassumption.
      * intros H. inversion H; subst. eapply strxor_raises; eassumption.
      * discriminate.
    + cbn [bind].
      destruct (CTRDRBG_update _ _ _ _) eqn:Hu; cbn [bind]; try discriminate.
      intros H. inversion H; subst. eapply CTRDRBG_update_raises; eassumption.
  - unfold CTRDRBG_init. cbv zeta. rewrite Hin. cbn [negb].
    intros H. inversion H. eauto.
Qed.

End Constructors.

Section Constructors_accept.

Context {P : Primitives} {PS : PrimitivesSpec P}.

Lemma falsy_empty (data : option bytes) :
  truthy data = false -> len (or_empty data) = 0.
Proof. destruct data as [[|x d]|]; [reflexivity|discriminate|reflexivity]. Qed.

(** With a recognized cipher, the constructor succeeds exactly on entropy
    of [seedlen] bytes and data of at most [seedlen] bytes. *)
Lemma CTRDRBG_init_known_iff (name : string) (entropy : bytes)
    (data : option bytes) (keylen : Z) :
  str_in (lower name) CIPHERS = true ->
  int_of_str (str_from 3 (lower name)) = keylen ->
  keylen = 128 \/ keylen = 192 \/ keylen = 256 ->
  (exists s, CTRDRBG_init name entropy data = Ok s) <->
  len entropy = (128 + keylen) / 8 /\ len (or_empty data) <= (128 + keylen) / 8.
Proof.
  intros Hin Hk Hkey.
  rewrite (CTRDRBG_init_known name entropy data keylen Hin Hk). cbv zeta.
  set (sl := (128 + keylen) / 8).
  set (s0 := mkCTRDRBG keylen (2 ^ 13) 128 sl [] [] 1).
  assert (ctr_params s0) as Hp by (repeat split; auto).
  assert (32 <= sl <= 48) as Hsl.
  { unfold sl. destruct Hkey as [->|[->| ->]]; cbn; lia. }
  split.
  - intros [s H].
    destruct (len entropy =? sl) eqn:E; cbn [negb] in H; [|discriminate].
    apply Z.eqb_eq in E. split; [exact E|].
    destruct (truthy data) eqn:T.
    + destruct (sl <? len (or_empty data)) eqn:E2;
        [discriminate|apply Z.ltb_ge in E2; exact E2].
    + rewrite (falsy_empty data T). lia.
  - intros [He Hd]. rewrite He, Z.eqb_refl. cbn [negb].
    assert (exists sm,
              (if truthy data then
                 if sl <? len (or_empty data) then
                   Raise (ValueError ("Only " ++ str_of_int sl
                                      ++ " bytes of data supported."))
                 else
                   strxor entropy
                     (if 0 <? sl - len (or_empty data)
                      then zeros (sl - len (or_empty data)) ++ or_empty data
                      else or_empty data)
               else Ok entropy) = Ok sm /\ len sm = sl) as (sm & -> & Hsm).
    { destruct (truthy data); [|eauto].
      assert ((sl <? len (or_empty data)) = false) as ->
        by (apply Z.ltb_ge; exact Hd).
      set (d' := if 0 <? sl - len (or_empty data) then _ else _).
      assert (len d' = sl) as Hd'.
      { unfold d'. destruct (0 <? sl - len (or_empty data)) eqn:E;
          [apply Z.ltb_lt in E; rewrite len_app, len_zeros
          |apply Z.ltb_ge in E]; lia. }
      rewrite strxor_ok by congruence. eexists. split; [reflexivity|].
      rewrite len_xor_bytes; congruence. }
    cbn [bind].
    destruct (CTRDRBG_update_ok s0 sm (zeros (keylen / 8)) (zeros (128 / 8)) Hp
                ltac:(cbn [ctr_seedlen s0]; lia)) as (K1 & V1 & -> & _).
    cbn [bind]. eauto.
Qed.

(** The arguments each constructor accepts.  [CTRDRBG] succeeds exactly
    when the lower-cased name is one of the three ciphers, the entropy has
    exactly [seedlen] (32, 40, 48) bytes and the data is no longer than
    that; otherwise it raises [ValueError].  [HashDRBG] succeeds for the
    five digest names as written in [DIGESTS], whatever the entropy, nonce
    and data (empty ones included), and raises [RuntimeError] for any other
    name.  [HMACDRBG] takes each digest name with or without the suffix
    [hmac] and builds the same generator. *)
Theorem constructors_accept :
  (forall name entropy data,
     (exists s, CTRDRBG_init name entropy data = Ok s) <->
     ((lower name = "aes128"%string /\ len entropy = 32) \/
      (lower name = "aes192"%string /\ len entropy = 40) \/
      (lower name = "aes256"%string /\ len entropy = 48)) /\
     len (or_empty data) <= len entropy) /\
  (forall name entropy data e,
     CTRDRBG_init name entropy data = Raise e -> exists msg, e = ValueError msg) /\
  (forall name entropy nonce data,
     (str_in name DIGESTS = true ->
      exists s, HashDRBG_init name entropy nonce data = Ok s) /\
     (str_in name DIGESTS = false ->
      exists msg,
        HashDRBG_init name entropy nonce data = Raise (RuntimeError msg))) /\
  (forall digest entropy nonce data,
     str_in digest DIGESTS = true ->
     exists s,
       HMACDRBG_init digest entropy nonce data = Ok s /\
       HMACDRBG_init (digest ++ "hmac") entropy nonce data = Ok s).
Proof.
  split; [|split; [exact CTRDRBG_init_raises|split]].
  - intros name entropy data.
    destruct (str_in (lower name) CIPHERS) eqn:Hin.
    + pose proof (proj1 (CIPHERS_cases _) Hin) as [Hn|[Hn|Hn]].
      * rewrite (CTRDRBG_init_known_iff name entropy data 128 Hin
                   ltac:(rewrite Hn; reflexivity) ltac:(auto)).
        change ((128 + 128) / 8) with 32. rewrite Hn.
        intuition (try discriminate; try lia).
      * rewrite (CTRDRBG_init_known_iff name entropy data 192 Hin
                   ltac:(rewrite Hn; reflexivity) ltac:(auto)).
        change ((128 + 192) / 8) with 40. rewrite Hn.
        intuition (try discriminate; try lia).
      * rewrite (CTRDRBG_init_known_iff name entropy data 256 Hin
                   ltac:(rewrite Hn; reflexivity) ltac:(auto)).
        change ((128 + 256) / 8) with 48. rewrite Hn.
        intuition (try discriminate; try lia).
    + split.
      * intros [s H]. unfold CTRDRBG_init in H. cbv zeta in H.
        rewrite Hin in H. discriminate.
      * intros [[[Hn _]|[[Hn _]|[Hn _]]] _];
          rewrite Hn in Hin; discriminate.
  - intros name entropy nonce data. unfold HashDRBG_init. split; intros ->;
      cbn [negb]; eauto.
  - intros digest entropy nonce data Hd.
    destruct (DIGESTS_cases digest Hd) as [->|[->|[->|[->| ->]]]];
      eexists; split; reflexivity.
Qed.

End Constructors_accept.

(** AES-192 with 40 bytes of entropy and 3 bytes of data is accepted. *)
Lemma constructors_accept_witness :
  exists s,
    CTRDRBG_init (P := test_primitives) "AES192" (zeros 40)
      (Some [x01; x02; x03]) = Ok s.
Proof.
  apply (proj1 (constructors_accept (P := test_primitives)
                  (PS := test_primitives_spec))).
  split; [right; left; split; reflexivity|].
  vm_compute. discriminate.
Defined.

(** ** Seed material is a concatenation *)

Section Seed_material.

Context {P : Primitives}.

(** Dropping absent and empty parts does not change what is joined. *)
Lemma concat_truthy_parts (parts : list (option bytes)) :
  concat (map or_empty
            (filter (fun v => match v with Some _ => true | None => false end)
                    (filter truthy parts)))
  = concat (map or_empty parts).
Proof.
  induction parts as [|[[|x d]|] parts IH]; cbn [filter truthy map concat or_empty];
    try exact IH.
  - reflexivity.
  - cbn [app]. rewrite IH. reflexivity.
Qed.

Lemma truthy_parts_nil (parts : list (option bytes)) :
  filter truthy parts = [] <-> concat (map or_empty parts) = [].
Proof.
  induction parts as [|[[|x d]|] parts IH]; cbn [filter truthy map concat or_empty];
    try exact IH.
  - tauto.
  - cbn [app]. split; discriminate.
Qed.

Lemma HMACDRBG_mac_parts (digest : string) (K V t : bytes)
    (parts : list (option bytes)) :
  HMACDRBG_mac digest K V (Some t :: filter truthy parts)
  = hmac_new digest K (V ++ t ++ concat (map or_empty parts)).
Proof.
  unfold HMACDRBG_mac. cbn [filter map concat or_empty].
  rewrite concat_truthy_parts. reflexivity.
Qed.

(** [__update] sees its data parts only through their concatenation. *)
Lemma HMACDRBG_update_concat (digest : string) (K V : bytes)
    (parts : list (option bytes)) :
  HMACDRBG_update digest K V parts
  = HMACDRBG_update digest K V [Some (concat (map or_empty parts))].
Proof.
  unfold HMACDRBG_update.
  rewrite !HMACDRBG_mac_parts.
  cbn [map concat or_empty]. rewrite !app_nil_r.
  destruct (filter truthy parts) as [|p ps] eqn:E1.
  - apply truthy_parts_nil in E1. rewrite E1. reflexivity.
  - assert (concat (map or_empty parts) <> []) as Hne.
    { intros H. apply truthy_parts_nil in H. congruence. }
    destruct (concat (map or_empty parts)) as [|x c] eqn:E2; [congruence|].
    cbn [filter truthy]. reflexivity.
Qed.

(** Hash_DRBG and HMAC_DRBG take entropy, nonce and data as one byte
    string: two constructor calls whose [entropy ‖ nonce ‖ data] agree
    build the same generator, and two [reseed] calls whose
    [entropy ‖ data] agree leave the same state, wherever the boundaries
    between the parts lie and whether an empty part is [b''] or [None]. *)
Theorem seed_material_is_concatenated :
  (forall name e n d e' n' d',
     e ++ n ++ or_empty d = e' ++ n' ++ or_empty d' ->
     HashDRBG_init name e n d = HashDRBG_init name e' n' d' /\
     HMACDRBG_init name e n d = HMACDRBG_init name e' n' d') /\
  (forall e a e' a' (h : HashDRBG) (m : HMACDRBG),
     e ++ or_empty a = e' ++ or_empty a' ->
     reseed e a (Hash_DRBG h) = reseed e' a' (Hash_DRBG h) /\
     reseed e a (HMAC_DRBG m) = reseed e' a' (HMAC_DRBG m)).
Proof.
  split.
  - intros name e n d e' n' d' H. split.
    + unfold HashDRBG_init. cbv zeta. rewrite H. reflexivity.
    + unfold HMACDRBG_init. cbv zeta.
      set (name' := if endswith name "hmac" then _ else name).
      rewrite (HMACDRBG_update_concat name' _ _ [Some e; Some n; d]).
      rewrite (HMACDRBG_update_concat name' _ _ [Some e'; Some n'; d']).
      cbn [map concat or_empty]. rewrite !app_nil_r, H. reflexivity.
  - intros e a e' a' h m H. split.
    + cbn [reseed]. unfold DRBG_reseed, _reseed, HashDRBG_reseed. cbv zeta.
      rewrite H. reflexivity.
    + cbn [reseed]. unfold HMACDRBG_reseed.
      rewrite (HMACDRBG_update_concat _ _ _ [Some e; a]).
      rewrite (HMACDRBG_update_concat _ _ _ [Some e'; a']).
      cbn [map concat or_empty]. rewrite !app_nil_r, H. reflexivity.
Qed.

End Seed_material.

(** Moving the boundary between entropy and nonce. *)
Lemma seed_material_is_concatenated_witness :
  HashDRBG_init (P := test_primitives) "sha1" [x01; x02] [x03] None
  = HashDRBG_init (P := test_primitives) "sha1" [x01] [x02] (Some [x03]) /\
  HMACDRBG_init (P := test_primitives) "sha1" [x01; x02] [x03] None
  = HMACDRBG_init (P := test_primitives) "sha1" [x01] [x02] (Some [x03]).
Proof.
  apply (proj1 (seed_material_is_concatenated (P := test_primitives))).
  reflexivity.
Defined.

(** ** Which calls succeed, and what a failed call leaves behind *)

Section Outcomes.

Context {P : Primitives} {PS : PrimitivesSpec P}.

Lemma wf_CTRDRBG_seedlen (s : CTRDRBG) :
  wf_CTRDRBG s -> 32 <= ctr_seedlen s <= 48.
Proof.
  intros (Hp & _). destruct (ctr_params_seedlen s Hp) as [[?|[?|?]] _]; lia.
Qed.

Lemma long_data_truthy (data : option bytes) :
  0 < len (or_empty data) -> truthy data = true.
Proof.
  destruct data as [[|x d]|]; cbn [or_empty truthy]; try reflexivity;
    change (len (@nil byte)) with 0; lia.
Qed.

(** [CTRDRBG._generate] turns away data longer than [seedlen] first. *)
Lemma CTRDRBG_generate_too_much (count : Z) (data : option bytes)
    (s : CTRDRBG) :
  0 <= ctr_seedlen s < len (or_empty data) ->
  CTRDRBG_generate count data s = (Raise InvalidInput, s).
Proof.
  intros H. unfold CTRDRBG_generate.
  rewrite long_data_truthy by lia.
  assert ((ctr_seedlen s <? len (or_empty data)) = true) as ->
    by (apply Z.ltb_lt; lia).
  reflexivity.
Qed.

(** The outcome of the subclass's [_generate] on a well-formed instance. *)
Lemma _generate_outcome (count : Z) (data : option bytes) (g : DRBG) :
  wf g -> 0 <= count ->
  (data_accepted g data ->
   exists out g', _generate count data g = (Ok out, g')) /\
  (len (or_empty data) <= MAX_ENTROPY_LENGTH -> ~ data_accepted g data ->
   _generate count data g = (Raise InvalidInput, g)).
Proof.
  intros Hwf Hc.
  destruct g as [s|s|s]; cbn [_generate wf] in *.
  - pose proof (wf_CTRDRBG_seedlen s Hwf) as Hsl.
    destruct (Z_le_dec (len (or_empty data)) (ctr_seedlen s)) as [Hd|Hd].
    + destruct (CTRDRBG_generate_ok count data s Hwf Hc Hd)
        as (out & s' & -> & _).
      split; [eauto|].
      intros Hm Hn. exfalso. apply Hn.
      destruct data as [d|]; cbn [data_accepted or_empty] in *; auto.
    + rewrite CTRDRBG_generate_too_much by lia.
      split; [|reflexivity].
      intros Ha.
      destruct data as [d|]; cbn [data_accepted or_empty] in *; [lia|].
      change (len (@nil byte)) with 0 in Hd. lia.
  - destruct (HashDRBG_generate count data s) as [out s'].
    split; [eauto|].
    intros Hm Hn. exfalso. apply Hn.
    destruct data as [d|]; cbn [data_accepted or_empty] in *; auto.
  - destruct (HMACDRBG_generate_ok count data s Hwf Hc) as (out & s' & -> & _).
    split; [eauto|].
    intros Hm Hn. exfalso. apply Hn.
    destruct data as [d|]; cbn [data_accepted or_empty] in *; auto.
Qed.

End Outcomes.

Section Outcomes_of_calls.

Context {P : Primitives} {PS : PrimitivesSpec P}.

Lemma data_accepted_dec (g : DRBG) (data : option bytes) :
  data_accepted g data \/ ~ data_accepted g data.
Proof.
  destruct data as [d|]; cbn [data_accepted]; [|auto].
  destruct (Z_le_dec (len d) MAX_ENTROPY_LENGTH);
    destruct g as [s|s|s]; try tauto.
  destruct (Z_le_dec (len d) (ctr_seedlen s)); tauto.
Qed.

Lemma data_accepted_within_limit (g : DRBG) (data : option bytes) :
  data_accepted g data -> len (or_empty data) <= MAX_ENTROPY_LENGTH.
Proof.
  destruct data as [d|]; cbn [data_accepted or_empty]; [tauto|].
  intros _. exact no_data_within_limit.
Qed.

(** [generate] on a well-formed generator succeeds exactly when the count
    lies strictly between 0 and [max_request_size], the additional input
    is within [MAX_ENTROPY_LENGTH] (and, for CTR_DRBG, within [seedlen])
    and the reseed counter has not passed the interval.  Every other call
    raises one of three exceptions and leaves the generator exactly as it
    was: nothing is half-updated and the call always returns. *)
Theorem generate_succeeds_iff (count : Z) (data : option bytes) (g : DRBG) :
  wf g ->
  ((exists out g', generate count data g = (Ok out, g')) <->
   0 < count < max_request_size g /\ data_accepted g data /\
   reseed_counter g <= RESEED_INTERVAL) /\
  (forall r g',
     generate count data g = (r, g') -> (forall out, r <> Ok out) ->
     g' = g /\
     (r = Raise InvalidRequest \/ r = Raise InvalidInput \/
      r = Raise ReseedRequired)).
Proof.
  intros Hwf.
  destruct (generate_guards count data g) as (H1 & H2 & H3 & H4).
  assert (forall A B (x y : A) (u v : B), (x, u) = (y, v) -> x = y /\ u = v)
    as Hpair by (intros; split; congruence).
  destruct (Z_lt_dec 0 count) as [Hc1|Hc1];
    [destruct (Z_lt_dec count (max_request_size g)) as [Hc2|Hc2]|].
  2,3: rewrite H1 by lia; split;
    [split; [intros (out & g' & H); discriminate|lia]
    |intros r g' H _; apply Hpair in H; destruct H as [<- <-]; auto].
  destruct (Z_lt_dec MAX_ENTROPY_LENGTH (len (or_empty data))) as [Hd|Hd].
  { rewrite H2 by lia. split.
    - split; [intros (out & g' & H); discriminate|].
      intros (_ & Ha & _). apply data_accepted_within_limit in Ha. lia.
    - intros r g' H _. apply Hpair in H. destruct H as [<- <-]. auto. }
  destruct (Z_lt_dec RESEED_INTERVAL (reseed_counter g)) as [Hr|Hr].
  { rewrite H3 by lia. split.
    - split; [intros (out & g' & H); discriminate|lia].
    - intros r g' H _. apply Hpair in H. destruct H as [<- <-]. auto. }
  rewrite H4 by lia.
  destruct (_generate_outcome count data g Hwf ltac:(lia)) as [Hok Hbad].
  destruct (data_accepted_dec g data) as [Ha|Ha].
  - destruct (Hok Ha) as (out & g1 & ->). split.
    + split; [intros _; repeat split; try assumption; lia|eauto].
    + intros r g' H Hr'. apply Hpair in H. destruct H as [<- _].
      exfalso. exact (Hr' out eq_refl).
  - rewrite (Hbad ltac:(lia) Ha). split.
    + split; [intros (out & g' & H); discriminate|tauto].
    + intros r g' H _. apply Hpair in H. destruct H as [<- <-]. auto.
Qed.

(** The three ways [reseed] of a CTR_DRBG can go, in the order the checks
    are made. *)
Lemma reseed_CTRDRBG_outcome (entropy : bytes) (data : option bytes)
    (s : CTRDRBG) :
  wf_CTRDRBG s ->
  (ctr_seedlen s < len (or_empty data) ->
   reseed entropy data (CTR_DRBG s) = (Raise InvalidInput, CTR_DRBG s)) /\
  (len (or_empty data) <= ctr_seedlen s -> len entropy <> ctr_seedlen s ->
   reseed entropy data (CTR_DRBG s)
   = (Raise (ValueError "Too much entropy."), CTR_DRBG s)) /\
  (len (or_empty data) <= ctr_seedlen s -> len entropy = ctr_seedlen s ->
   exists s', reseed entropy data (CTR_DRBG s) = (Ok tt, CTR_DRBG s') /\
              ctr_reseed_counter s' = 1).
Proof.
  intros Hwf. pose proof (wf_CTRDRBG_seedlen s Hwf) as Hsl.
  unfold reseed, DRBG_reseed, _reseed. split; [|split].
  - intros Hd. unfold CTRDRBG_reseed.
    rewrite long_data_truthy by lia.
    assert ((ctr_seedlen s <? len (or_empty data)) = true) as ->
      by (apply Z.ltb_lt; lia).
    reflexivity.
  - intros Hd He. unfold CTRDRBG_reseed.
    assert ((ctr_seedlen s <? len (or_empty data)) = false) as ->
      by (apply Z.ltb_ge; lia).
    rewrite andb_false_r.
    assert ((len entropy =? ctr_seedlen s) = false) as ->
      by (apply Z.eqb_neq; exact He).
    reflexivity.
  - intros Hd He.
    destruct (CTRDRBG_reseed_ok entropy data s Hwf He Hd) as (s' & -> & _ & _).
    eexists. split; reflexivity.
Qed.

(** [reseed] on a well-formed generator: a CTR_DRBG accepts exactly
    entropy of [seedlen] bytes with additional input of at most [seedlen]
    bytes, a Hash_DRBG or HMAC_DRBG accepts every entropy and additional
    input; a refused [reseed] raises [ValueError] ("Too much data." or
    "Too much entropy.") and leaves the generator exactly as it was. *)
Theorem reseed_succeeds_iff (entropy : bytes) (data : option bytes)
    (g : DRBG) :
  wf g ->
  ((exists g', reseed entropy data g = (Ok tt, g')) <->
   match g with
   | CTR_DRBG s =>
       len entropy = ctr_seedlen s /\ len (or_empty data) <= ctr_seedlen s
   | _ => True
   end) /\
  (forall r g',
     reseed entropy data g = (r, g') -> r <> Ok tt ->
     g' = g /\
     (r = Raise (ValueError "Too much data.") \/
      r = Raise (ValueError "Too much entropy."))).
Proof.
  intros Hwf.
  assert (forall A B (x y : A) (u v : B), (x, u) = (y, v) -> x = y /\ u = v)
    as Hpair by (intros; split; congruence).
  destruct g as [s|s|s].
  - cbn [wf] in Hwf.
    destruct (reseed_CTRDRBG_outcome entropy data s Hwf) as (Hlong & Hent & Hok).
    destruct (Z_le_dec (len (or_empty data)) (ctr_seedlen s)) as [Hd|Hd];
      [destruct (Z.eq_dec (len entropy) (ctr_seedlen s)) as [He|He]|].
    + destruct (Hok Hd He) as (s' & Hrs & _). rewrite Hrs. split.
      * split; [tauto|eauto].
      * intros r g' H Hr. apply Hpair in H. destruct H as [<- _].
        exfalso. exact (Hr eq_refl).
    + rewrite (Hent Hd He). split.
      * split; [intros (g' & H); discriminate|tauto].
      * intros r g' H _. apply Hpair in H. destruct H as [<- <-]. auto.
    + rewrite (Hlong ltac:(lia)). split.
      * split; [intros (g' & H); discriminate|lia].
      * intros r g' H _. apply Hpair in H. destruct H as [<- <-].
        split; [reflexivity|left; reflexivity].
  - split; [split; [tauto|intros _; eexists; reflexivity]|].
    intros r g' H Hr. apply Hpair in H. destruct H as [<- _].
    exfalso. exact (Hr eq_refl).
  - split; [split; [tauto|intros _; eexists; reflexivity]|].
    intros r g' H Hr. apply Hpair in H. destruct H as [<- _].
    exfalso. exact (Hr eq_refl).
Qed.

End Outcomes_of_calls.

(** A fresh AES-128 generator serves [generate(16, b'abc')]. *)
Lemma generate_succeeds_iff_witness :
  exists out g',
    generate (P := test_primitives) 16 (Some [x61; x62; x63])
      (CTR_DRBG example_ctr128) = (Ok out, g').
Proof.
  apply (proj1 (generate_succeeds_iff (P := test_primitives)
                  (PS := test_primitives_spec) 16 (Some [x61; x62; x63])
                  (CTR_DRBG example_ctr128) example_ctr128_wf)).
  repeat split; vm_compute; congruence.
Defined.

(** A fresh AES-256 generator accepts 48 bytes of entropy. *)
Lemma reseed_succeeds_iff_witness :
  exists g',
    reseed (P := test_primitives) (zeros 48) None (CTR_DRBG example_ctr256)
    = (Ok tt, g').
Proof.
  apply (proj1 (reseed_succeeds_iff (P := test_primitives)
                  (PS := test_primitives_spec) (zeros 48) None
                  (CTR_DRBG example_ctr256) example_ctr256_wf)).
  split; vm_compute; congruence.
Defined.

(** ** How CTR_DRBG pads additional input *)

Section CTR_padding.

Context {P : Primitives}.

Lemma bytepad_idempotent (b : bytes) (L : Z) :
  bytepad (bytepad b L) L = bytepad b L.
Proof.
  unfold bytepad at 1. pose proof (len_bytepad b L) as H.
  destruct (len (bytepad b L) <? L) eqn:E; [|reflexivity].
  apply Z.ltb_lt in E. lia.
Qed.

Lemma zeros_nonpositive (n : Z) : n <= 0 -> zeros n = [].
Proof.
  intros Hn. unfold zeros. destruct n; try reflexivity. lia.
Qed.

Lemma CTRDRBG_generate_right_padded (count : Z) (d : bytes) (s : CTRDRBG) :
  d <> [] -> len d <= ctr_seedlen s ->
  CTRDRBG_generate count (Some d) s
  = CTRDRBG_generate count (Some (d ++ zeros (ctr_seedlen s - len d))) s.
Proof.
  intros Hne Hd.
  remember (d ++ zeros (ctr_seedlen s - len d)) as pd eqn:Epd.
  assert (len pd = ctr_seedlen s) as Hpd
    by (rewrite Epd, len_app, len_zeros; lia).
  assert (truthy (Some d) = true) as Ht
    by (destruct d; [congruence|reflexivity]).
  assert (truthy (Some pd) = true) as Ht'
    by (rewrite Epd; destruct d; [congruence|reflexivity]).
  unfold CTRDRBG_generate. rewrite Ht, Ht'.
  cbn [or_empty andb]. rewrite <- Epd, Hpd, Ht'.
  assert ((ctr_seedlen s <? len d) = false) as -> by (apply Z.ltb_ge; lia).
  rewrite Z.ltb_irrefl, Z.sub_diag.
  change (zeros 0) with (@nil byte). rewrite app_nil_r, Ht'.
  reflexivity.
Qed.

Lemma CTRDRBG_reseed_left_padded (entropy d : bytes) (s : CTRDRBG) :
  d <> [] -> len d <= ctr_seedlen s ->
  CTRDRBG_reseed entropy (Some d) s
  = CTRDRBG_reseed entropy (Some (bytepad d (ctr_seedlen s))) s.
Proof.
  intros Hne Hd.
  assert (len (bytepad d (ctr_seedlen s)) = ctr_seedlen s) as Hl
    by (rewrite len_bytepad; lia).
  assert (truthy (Some (bytepad d (ctr_seedlen s))) = true) as Ht.
  { unfold bytepad. destruct (len d <? ctr_seedlen s).
    - destruct d as [|x d]; [congruence|]. destruct (zeros _); reflexivity.
    - destruct d; [congruence|reflexivity]. }
  unfold CTRDRBG_reseed. rewrite Ht.
  assert (truthy (Some d) = true) as -> by (destruct d; [congruence|reflexivity]).
  cbn [or_empty andb]. rewrite Hl, bytepad_idempotent, Z.ltb_irrefl.
  assert ((ctr_seedlen s <? len d) = false) as -> by (apply Z.ltb_ge; lia).
  reflexivity.
Qed.

(** CTR_DRBG does not encode the length of additional input.  [generate]
    pads it on the right with zero bytes up to [seedlen], so an input and
    the same input followed by zero bytes give the same call; [reseed]
    pads it on the left, so an input and the same input preceded by zero
    bytes give the same call; and empty additional input is the same as
    none in both. *)
Theorem CTRDRBG_additional_input_padding (s : CTRDRBG) (d : bytes) :
  wf_CTRDRBG s -> d <> [] -> len d <= ctr_seedlen s ->
  (forall count,
     generate count (Some d) (CTR_DRBG s)
     = generate count (Some (d ++ zeros (ctr_seedlen s - len d))) (CTR_DRBG s)) /\
  (forall entropy,
     reseed entropy (Some d) (CTR_DRBG s)
     = reseed entropy (Some (zeros (ctr_seedlen s - len d) ++ d)) (CTR_DRBG s)) /\
  (forall count,
     generate count (Some []) (CTR_DRBG s) = generate count None (CTR_DRBG s)) /\
  (forall entropy,
     reseed entropy (Some []) (CTR_DRBG s) = reseed entropy None (CTR_DRBG s)).
Proof.
  intros Hwf Hne Hd.
  assert (32 <= ctr_seedlen s <= 48) as Hsl.
  { destruct Hwf as (Hp & _).
    destruct (ctr_params_seedlen s Hp) as [[?|[?|?]] _]; lia. }
  split; [|split; [|split; reflexivity]].
  - intros count. unfold generate, DRBG_generate. cbn [_generate].
    rewrite <- CTRDRBG_generate_right_padded by assumption.
    assert ((MAX_ENTROPY_LENGTH <? len d) = false) as ->
      by (apply Z.ltb_ge; unfold MAX_ENTROPY_LENGTH; lia).
    assert ((MAX_ENTROPY_LENGTH
             <? len (d ++ zeros (ctr_seedlen s - len d))) = false) as ->.
    { apply Z.ltb_ge. rewrite len_app, len_zeros.
      unfold MAX_ENTROPY_LENGTH. lia. }
    reflexivity.
  - intros entropy. unfold reseed, DRBG_reseed, _reseed.
    rewrite (CTRDRBG_reseed_left_padded entropy d s Hne Hd).
    unfold bytepad. destruct (len d <? ctr_seedlen s) eqn:E; [reflexivity|].
    apply Z.ltb_ge in E. rewrite zeros_nonpositive by lia. reflexivity.
Qed.

End CTR_padding.

(** Three bytes of additional input on AES-128, padded to 32. *)
Lemma CTRDRBG_additional_input_padding_witness :
  generate (P := test_primitives) 8 (Some [x61; x62; x63])
    (CTR_DRBG example_ctr128)
  = generate (P := test_primitives) 8 (Some ([x61; x62; x63] ++ zeros (32 - 3)))
      (CTR_DRBG example_ctr128).
Proof.
  refine (proj1 (CTRDRBG_additional_input_padding (P := test_primitives)
                   example_ctr128 [x61; x62; x63] example_ctr128_wf _ _) 8).
  - discriminate.
  - vm_compute. discriminate.
Defined.

(** ** How many calls a generator serves between reseeds *)

Section Budget.

Context {P : Primitives} {PS : PrimitivesSpec P}.

Lemma data_accepted_set_reseed_counter (g : DRBG) (n : Z) (d : option bytes) :
  data_accepted (set_reseed_counter g n) d <-> data_accepted g d.
Proof. destruct g; reflexivity. Qed.

Lemma _generate_limits (count : Z) (data : option bytes) (g g' : DRBG)
    (r : result bytes) :
  _generate count data g = (r, g') ->
  forall d, data_accepted g' d <-> data_accepted g d.
Proof.
  intros H d. destruct g as [s|s|s]; cbn [_generate] in H.
  - destruct (CTRDRBG_generate count data s) as [r1 s1] eqn:E.
    inversion H; subst. apply CTRDRBG_generate_frame in E.
    destruct E as (_ & _ & Hs & _).
    destruct d; cbn [data_accepted]; [rewrite Hs|]; tauto.
  - destruct (HashDRBG_generate count data s). inversion H; subst.
    destruct d; cbn [data_accepted]; tauto.
  - destruct (HMACDRBG_generate count data s). inversion H; subst.
    destruct d; cbn [data_accepted]; tauto.
Qed.

Lemma generate_limits (count : Z) (data : option bytes) (g g' : DRBG)
    (out : bytes) :
  generate count data g = (Ok out, g') ->
  forall d, data_accepted g' d <-> data_accepted g d.
Proof.
  unfold generate, DRBG_generate. intros H d.
  destruct (negb _); [discriminate|].
  destruct (match data with Some _ => _ | None => _ end); [discriminate|].
  destruct (RESEED_INTERVAL <? reseed_counter g); [discriminate|].
  destruct (_generate count data g) as [[o|e|] g1] eqn:E; inversion H; subst.
  rewrite data_accepted_set_reseed_counter.
  eapply _generate_limits; eassumption.
Qed.

(** Calls the generator [g] would serve, were it not for the counter. *)
Lemma generate_all_budget (calls : list (Z * option bytes)) :
  forall g,
    wf g ->
    Forall (fun c => 0 < fst c < max_request_size g /\
                     data_accepted g (snd c)) calls ->
    let n := Z.to_nat (RESEED_INTERVAL + 1 - reseed_counter g) in
    Forall returned (firstn n (generate_all calls g)) /\
    Forall (eq (Raise ReseedRequired)) (skipn n (generate_all calls g)) /\
    length (generate_all calls g) = length calls.
Proof.
  induction calls as [|[count data] rest IH]; intros g Hwf Hcalls n.
  - cbn [generate_all]. rewrite firstn_nil, skipn_nil. auto.
  - inversion Hcalls as [|? ? [Hc Hd] Hrest]; subst. cbn [fst snd] in *.
    cbn [generate_all].
    destruct (Z_le_dec (reseed_counter g) RESEED_INTERVAL) as [Hr|Hr].
    + destruct (generate_ok count data g Hwf Hc Hd Hr)
        as (out & g' & Hg & _ & Hwf' & Hrc & Hm).
      rewrite Hg.
      assert (Forall (fun c => 0 < fst c < max_request_size g' /\
                               data_accepted g' (snd c)) rest) as Hrest'.
      { eapply Forall_impl; [|exact Hrest].
        intros c [H1 H2]. rewrite Hm. split; [exact H1|].
        apply (generate_limits _ _ _ _ _ Hg). exact H2. }
      destruct (IH g' Hwf' Hrest') as (H1 & H2 & H3).
      assert (n = S (Z.to_nat (RESEED_INTERVAL + 1 - reseed_counter g'))) as ->
        by (unfold n; lia).
      cbn [firstn skipn length].
      split; [constructor; [exists out; reflexivity|exact H1]|].
      split; [exact H2|]. rewrite H3. reflexivity.
    + destruct (generate_guards count data g) as (_ & _ & H3 & _).
      rewrite (H3 Hc (data_accepted_within_limit g data Hd) ltac:(lia)).
      destruct (IH g Hwf Hrest) as (H1 & H2 & H4).
      assert (n = O) as Hn by (unfold n; lia).
      rewrite Hn in *.
      replace (Z.to_nat (RESEED_INTERVAL + 1 - reseed_counter g)) with O in *
        by lia.
      cbn [firstn skipn length] in *.
      split; [constructor|]. split; [constructor; [reflexivity|exact H2]|].
      rewrite H4. reflexivity.
Qed.

(** A generator whose counter is [c] serves exactly the next
    [RESEED_INTERVAL + 1 - c] acceptable [generate] calls and refuses all
    later ones with [ReseedRequired]; a generator fresh from its
    constructor ([c = 1]) therefore serves [RESEED_INTERVAL] calls. *)
Theorem generate_budget (calls : list (Z * option bytes)) (g : DRBG) :
  wf g ->
  Forall (fun c => 0 < fst c < max_request_size g /\
                   data_accepted g (snd c)) calls ->
  let n := Z.to_nat (RESEED_INTERVAL + 1 - reseed_counter g) in
  Forall returned (firstn n (generate_all calls g)) /\
  Forall (eq (Raise ReseedRequired)) (skipn n (generate_all calls g)) /\
  length (generate_all calls g) = length calls.
Proof. intros Hwf Hcalls. exact (generate_all_budget calls g Hwf Hcalls). Qed.

End Budget.

(** Four calls on a fresh Hash_DRBG: two are served, two refused. *)
Lemma generate_budget_witness :
  let results :=
    generate_all (P := test_primitives)
      [(3, None); (7, Some [x01]); (1, None); (2, None)]
      (Hash_DRBG example_hash) in
  Forall returned (firstn 2 results) /\
  Forall (eq (Raise ReseedRequired)) (skipn 2 results) /\
  length results = 4%nat.
Proof.
  refine (generate_budget (P := test_primitives) (PS := test_primitives_spec)
            [(3, None); (7, Some [x01]); (1, None); (2, None)]
            (Hash_DRBG example_hash) example_hash_wf _).
  repeat constructor; vm_compute; congruence.
Defined.

(** ** Hash_DRBG in integer arithmetic *)

Section Hash_arithmetic.

Context {P : Primitives}.

Lemma bytes2long_encode (L n : Z) : 0 <= n -> bytes2long (encode L n) = n.
Proof.
  intros Hn. unfold encode. rewrite bytes2long_bytepad.
  apply bytes2long_long2bytes. exact Hn.
Qed.

(** A byte string of [L >= 1] bytes is the [L]-byte encoding of the
    integer it decodes to. *)
Lemma encode_bytes2long (b : bytes) :
  1 <= len b -> encode (len b) (bytes2long b) = b.
Proof.
  intros Hl. unfold encode. apply codec_round_trip_aux.
  destruct b; [rewrite len_nil in Hl; lia|discriminate].
Qed.

End Hash_arithmetic.

Section Hash_counter_mode.

Context {P : Primitives}.

(** The rounds of [hashgen] hash the encodings of consecutive integers. *)
Lemma hashgen_rounds (digest : string) (sl v : Z) (m : nat) :
  0 <= sl ->
  forall start w data,
    bytepad data (sl / 8) = encode (sl / 8) ((v + Z.of_nat start) mod 2 ^ sl) ->
    bytes2long data = (v + Z.of_nat start) mod 2 ^ sl ->
    fst (fold_left
           (fun (st : bytes * bytes) (_ : nat) =>
              let '(w, data) := st in
              (w ++ hashlib digest (bytepad data (sl / 8)),
               long2bytes ((bytes2long data + 1) mod 2 ^ sl)))
           (seq start m) (w, data))
    = w ++ concat (map (fun i => hashlib digest
                                   (encode (sl / 8)
                                           ((v + Z.of_nat i) mod 2 ^ sl)))
                       (seq start m)).
Proof.
  intros Hsl. assert (0 < 2 ^ sl) as HM by (apply Z.pow_pos_nonneg; lia).
  induction m as [|m IH]; intros start w data Hpad Hval;
    cbn [seq fold_left map concat fst].
  - rewrite app_nil_r. reflexivity.
  - assert ((bytes2long data + 1) mod 2 ^ sl
            = (v + Z.of_nat (S start)) mod 2 ^ sl) as Hnext.
    { rewrite Hval, Zplus_mod_idemp_l. f_equal. lia. }
    rewrite IH.
    + rewrite Hpad, <- app_assoc. reflexivity.
    + rewrite Hnext. reflexivity.
    + rewrite Hnext. apply bytes2long_long2bytes.
      apply Z.mod_pos_bound. exact HM.
Qed.

(** [hashgen] from a [seedlen / 8]-byte [V]. *)
Lemma hashgen_counter_mode (s : HashDRBG) (count : Z) (V : bytes) :
  hash_seedlen s = 440 \/ hash_seedlen s = 888 ->
  len V = hash_seedlen s / 8 ->
  hashgen s count (8 * count) V
  = slice_to (hashgen_stream (hash_digest s) (hash_seedlen s) (bytes2long V)
                (Z.to_nat (ceil_div (8 * count) (hash_outlen s)))) count.
Proof.
  intros Hsl HV. unfold hashgen, hashgen_stream. cbv zeta.
  assert (1 <= len V /\ 2 ^ hash_seedlen s = 256 ^ len V) as [HL HM].
  { rewrite HV. destruct Hsl as [-> | ->]; split; reflexivity || (cbn; lia). }
  pose proof (bytes2long_range V) as Hr. rewrite <- HM in Hr.
  pose proof (hashgen_rounds (hash_digest s) (hash_seedlen s) (bytes2long V)
                (Z.to_nat (ceil_div (8 * count) (hash_outlen s)))
                ltac:(destruct Hsl; lia) 0%nat [] V) as Hfold.
  rewrite Z.add_0_r, Z.mod_small in Hfold by lia.
  rewrite <- HV, encode_bytes2long in Hfold by exact HL.
  specialize (Hfold ltac:(unfold bytepad; rewrite Z.ltb_irrefl; reflexivity)
                    eq_refl).
  rewrite HV in Hfold.
  destruct (fold_left _ _ _) as [w data]. cbn [fst app] in Hfold.
  rewrite Hfold. reflexivity.
Qed.


End Hash_counter_mode.


(** ** CTR_DRBG in integer arithmetic *)

Section CTR_counter_mode.

Context {P : Primitives} {PS : PrimitivesSpec P}.

(** [n] more 16-byte blocks take a buffer of [have] bytes to [want]. *)
Definition blocks_needed (want have : Z) (n : nat) : Prop :=
  match n with
  | O => want <= have
  | S n' => have + 16 * Z.of_nat n' < want <= have + 16 * Z.of_nat (S n')
  end.

Lemma blocks_needed_step (want have : Z) (n : nat) :
  blocks_needed want have (S n) ->
  have < want /\ blocks_needed want (have + 16) n.
Proof.
  unfold blocks_needed. intros H. split; [lia|].
  destruct n as [|n']; lia.
Qed.

Lemma blocks_needed_ceil (want : Z) :
  0 <= want -> blocks_needed want 0 (Z.to_nat (ceil_div want 16)).
Proof.
  intros Hw. pose proof (ceil_div_nonneg want 16 Hw ltac:(lia)) as Hn.
  assert (16 * (ceil_div want 16 - 1) < want <= 16 * ceil_div want 16) as Hc.
  { unfold ceil_div. Z.div_mod_to_equations. lia. }
  unfold blocks_needed.
  destruct (Z.to_nat (ceil_div want 16)) as [|n'] eqn:E; lia.
Qed.

Lemma ctr_keystream_mod (K : bytes) (v : Z) (n : nat) :
  ctr_keystream K (v mod 2 ^ 128) n = ctr_keystream K v n.
Proof.
  unfold ctr_keystream. f_equal. apply map_ext. intros i.
  rewrite Zplus_mod_idemp_l. reflexivity.
Qed.

Lemma ctr_keystream_S (K : bytes) (v : Z) (n : nat) :
  ctr_keystream K v (S n)
  = AES_encrypt K (encode 16 ((v + 1) mod 2 ^ 128))
    ++ ctr_keystream K (v + 1) n.
Proof.
  unfold ctr_keystream. cbn [seq map concat]. f_equal.
  rewrite <- seq_shift, map_map. f_equal. apply map_ext. intros i.
  do 3 f_equal. lia.
Qed.

Lemma bytes2long_counter_block (V : bytes) :
  bytes2long (long2bytes ((bytes2long V + 1) mod 2 ^ 128))
  = (bytes2long V + 1) mod 2 ^ 128.
Proof. apply bytes2long_long2bytes. apply Z.mod_pos_bound. reflexivity. Qed.

(** The loop of [__update] appends the keystream after [V]. *)
Lemma CTRDRBG_update_loop_keystream (n : nat) :
  forall fuel sl K V temp,
    blocks_needed sl (len temp) n -> (n < fuel)%nat ->
    exists V',
      CTRDRBG_update_loop fuel 128 sl K V temp
      = Some (V', temp ++ ctr_keystream K (bytes2long V) n).
Proof.
  induction n as [|n IH]; intros fuel sl K V temp Hn Hf;
    (destruct fuel as [|f]; [lia|]); cbn [CTRDRBG_update_loop].
  - cbn [blocks_needed] in Hn.
    assert ((len temp <? sl) = false) as -> by (apply Z.ltb_ge; lia).
    exists V. unfold ctr_keystream. cbn [seq map concat].
    rewrite app_nil_r. reflexivity.
  - apply blocks_needed_step in Hn. destruct Hn as [Hlt Hn].
    assert ((len temp <? sl) = true) as -> by (apply Z.ltb_lt; lia).
    set (V1 := long2bytes ((bytes2long V + 1) mod 2 ^ 128)).
    destruct (IH f sl K V1 (temp ++ AES_encrypt K (bytepad V1 (128 / 8))))
      as (V' & Hloop).
    + rewrite len_app, AES_encrypt_len by apply len_counter_block. exact Hn.
    + lia.
    + exists V'. rewrite Hloop. f_equal. f_equal.
      unfold V1 at 2. rewrite bytes2long_counter_block, ctr_keystream_mod.
      rewrite ctr_keystream_S, <- app_assoc. reflexivity.
Qed.

(** The loop of [_generate] appends the keystream after [V] and leaves the
    last counter block. *)
Lemma CTRDRBG_generate_loop_keystream (n : nat) :
  forall fuel count K V temp,
    blocks_needed count (len temp) n -> (n < fuel)%nat ->
    CTRDRBG_generate_loop fuel 128 count K V temp
    = Some (match n with
            | O => V
            | S _ => encode 16 ((bytes2long V + Z.of_nat n) mod 2 ^ 128)
            end,
            temp ++ ctr_keystream K (bytes2long V) n).
Proof.
  induction n as [|n IH]; intros fuel count K V temp Hn Hf;
    (destruct fuel as [|f]; [lia|]); cbn [CTRDRBG_generate_loop].
  - cbn [blocks_needed] in Hn.
    assert ((len temp <? count) = false) as -> by (apply Z.ltb_ge; lia).
    unfold ctr_keystream. cbn [seq map concat].
    rewrite app_nil_r. reflexivity.
  - apply blocks_needed_step in Hn. destruct Hn as [Hlt Hn].
    assert ((len temp <? count) = true) as -> by (apply Z.ltb_lt; lia).
    set (V0 := long2bytes ((bytes2long V + 1) mod 2 ^ 128)).
    change (if len V0 <? 128 / 8 then zeros (128 / 8 - len V0) ++ V0 else V0)
      with (encode 16 ((bytes2long V + 1) mod 2 ^ 128)).
    set (V1 := encode 16 ((bytes2long V + 1) mod 2 ^ 128)).
    assert (bytes2long V1 = (bytes2long V + 1) mod 2 ^ 128) as Hv1.
    { unfold V1. apply bytes2long_encode. apply Z.mod_pos_bound. reflexivity. }
    assert (len V1 = 16) as Hl1 by apply len_counter_block.
    rewrite (IH f count K V1 (temp ++ AES_encrypt K V1));
      [|rewrite len_app, AES_encrypt_len by exact Hl1; exact Hn|lia].
    rewrite Hv1, ctr_keystream_mod, ctr_keystream_S, <- app_assoc.
    f_equal. f_equal.
    destruct n as [|n']; [unfold V1; do 2 f_equal; lia|].
    rewrite Zplus_mod_idemp_l. do 2 f_equal. lia.
Qed.

End CTR_counter_mode.

Section CTR_counter_mode_generate.

Context {P : Primitives} {PS : PrimitivesSpec P}.

Lemma update_blocks_fuel (s : CTRDRBG) :
  ctr_params s ->
  (Z.to_nat (ceil_div (ctr_seedlen s) 16) < S (Z.to_nat (ctr_seedlen s)))%nat.
Proof.
  intros Hp. destruct (ctr_params_seedlen s Hp) as [[->|[->| ->]] _];
    vm_compute; lia.
Qed.

(** [__update] returns what [ctr_update_arith] describes. *)
Lemma CTRDRBG_update_arith (s : CTRDRBG) (pd K V : bytes) :
  ctr_params s -> len pd <= ctr_seedlen s ->
  CTRDRBG_update s pd K V = Ok (ctr_update_arith s pd K (bytes2long V)).
Proof.
  intros Hp Hd. pose proof (ctr_params_seedlen s Hp) as [Hsl _].
  pose proof Hp as (_ & _ & Ho & _).
  unfold CTRDRBG_update, ctr_update_arith. rewrite Ho.
  set (n := Z.to_nat (ceil_div (ctr_seedlen s) 16)).
  destruct (CTRDRBG_update_loop_keystream n (S (Z.to_nat (ctr_seedlen s)))
              (ctr_seedlen s) K V [])
    as (V' & Hloop).
  - rewrite len_nil. apply blocks_needed_ceil. lia.
  - apply update_blocks_fuel. exact Hp.
  - pose proof (CTRDRBG_update_loop_exit _ _ _ _ _ _ _ _ Hloop) as Hex.
    rewrite Hloop. cbn [app] in *.
    rewrite strxor_ok; [reflexivity|].
    rewrite len_slice_to, len_bytepad by lia. lia.
Qed.

End CTR_counter_mode_generate.

Section CTR_counter_mode_theorem.

Context {P : Primitives} {PS : PrimitivesSpec P}.

Lemma ctr_update_arith_mod (s : CTRDRBG) (pd K : bytes) (v : Z) :
  ctr_update_arith s pd K (v mod 2 ^ 128) = ctr_update_arith s pd K v.
Proof. unfold ctr_update_arith. rewrite ctr_keystream_mod. reflexivity. Qed.

(** The output loop and the closing update of [_generate], from a state
    holding [(K1, V1)]. *)
Lemma CTRDRBG_generate_tail_arith (count : Z) (pd : bytes) (s : CTRDRBG) :
  ctr_params s -> 0 < count -> len pd <= ctr_seedlen s ->
  let n := Z.to_nat (ceil_div count 16) in
  match CTRDRBG_generate_loop (S (Z.to_nat count)) (ctr_outlen s) count
          (ctr_key s) (ctr_V s) [] with
  | None => (Diverges, s)
  | Some (V, temp) =>
      match CTRDRBG_update s pd (ctr_key s) V with
      | Raise e => (Raise e, s)
      | Diverges => (Diverges, s)
      | Ok kv => (Ok (slice_to temp count), ctr_set_state s (fst kv) (snd kv))
      end
  end
  = (Ok (slice_to (ctr_keystream (ctr_key s) (bytes2long (ctr_V s)) n) count),
     ctr_set_state s
       (fst (ctr_update_arith s pd (ctr_key s)
               (bytes2long (ctr_V s) + Z.of_nat n)))
       (snd (ctr_update_arith s pd (ctr_key s)
               (bytes2long (ctr_V s) + Z.of_nat n)))).
Proof.
  intros Hp Hc Hd n. pose proof Hp as (_ & _ & Ho & _). rewrite Ho.
  pose proof (ceil_div_nonneg count 16 ltac:(lia) ltac:(lia)) as Hn0.
  assert (16 * (ceil_div count 16 - 1) < count <= 16 * ceil_div count 16) as Hcd.
  { unfold ceil_div. Z.div_mod_to_equations. lia. }
  rewrite (CTRDRBG_generate_loop_keystream n (S (Z.to_nat count)) count
             (ctr_key s) (ctr_V s) []);
    [|rewrite len_nil; apply blocks_needed_ceil; lia|unfold n; lia].
  cbn [app].
  destruct n as [|n'] eqn:En; [unfold n in En; lia|].
  rewrite CTRDRBG_update_arith by assumption.
  rewrite bytes2long_encode by (apply Z.mod_pos_bound; reflexivity).
  rewrite ctr_update_arith_mod. reflexivity.
Qed.

(** CTR_DRBG's [_generate] as SP 800-90A writes it, without a derivation
    function.  Additional input, padded on the right to [seedlen], first
    replaces [(Key, V)] by an update; the output is the first [count] bytes
    of [AES_Key(V + 1) ‖ AES_Key(V + 2) ‖ ...], the counter taken modulo
    [2^128] on 16 bytes; the new state is the update computed from the
    same key and the counter after the last output block.  The update is
    the next [ceil(seedlen / 16)] keystream blocks, cut to [seedlen] bytes,
    xored with the padded data and split into key and counter block. *)
Theorem CTRDRBG_counter_mode (count : Z) (data : option bytes) (s : CTRDRBG) :
  wf_CTRDRBG s -> 0 < count -> len (or_empty data) <= ctr_seedlen s ->
  let pd := if truthy data
            then or_empty data ++ zeros (ctr_seedlen s - len (or_empty data))
            else [] in
  let kv1 := if truthy data
             then ctr_update_arith s pd (ctr_key s) (bytes2long (ctr_V s))
             else (ctr_key s, ctr_V s) in
  let n := Z.to_nat (ceil_div count 16) in
  let kv2 := ctr_update_arith s pd (fst kv1)
               (bytes2long (snd kv1) + Z.of_nat n) in
  CTRDRBG_generate count data s
  = (Ok (slice_to (ctr_keystream (fst kv1) (bytes2long (snd kv1)) n) count),
     ctr_set_state s (fst kv2) (snd kv2)).
Proof.
  intros (Hp & _) Hc Hd. cbv zeta.
  pose proof (ctr_params_seedlen s Hp) as [Hsl _].
  unfold CTRDRBG_generate.
  assert ((ctr_seedlen s <? len (or_empty data)) = false) as ->
    by (apply Z.ltb_ge; lia).
  rewrite andb_false_r.
  destruct (truthy data) eqn:T.
  - remember (or_empty data ++ zeros (ctr_seedlen s - len (or_empty data)))
      as pd eqn:Epd.
    assert (len pd = ctr_seedlen s) as Hpd
      by (rewrite Epd, len_app, len_zeros; lia).
    assert (truthy (Some pd) = true) as ->.
    { rewrite Epd. destruct data as [[|x d]|]; try discriminate. reflexivity. }
    cbn [or_empty].
    rewrite CTRDRBG_update_arith by (assumption || lia).
    cbn [bind].
    apply (CTRDRBG_generate_tail_arith count pd
             (ctr_set_state s
                (fst (ctr_update_arith s pd (ctr_key s) (bytes2long (ctr_V s))))
                (snd (ctr_update_arith s pd (ctr_key s) (bytes2long (ctr_V s)))))
             Hp Hc).
    cbn [ctr_set_state ctr_seedlen]. lia.
  - cbv beta iota. rewrite T.
    assert (or_empty data = []) as -> by (destruct data as [[|x d]|];
      try reflexivity; discriminate).
    apply (CTRDRBG_generate_tail_arith count [] s Hp Hc).
    rewrite len_nil. lia.
Qed.

End CTR_counter_mode_theorem.

(** Forty bytes from the fresh AES-256 generator are the first forty bytes
    of three keystream blocks. *)
Lemma CTRDRBG_counter_mode_witness :
  fst (CTRDRBG_generate (P := test_primitives) 40 None example_ctr256)
  = Ok (slice_to
          (ctr_keystream (P := test_primitives) (ctr_key example_ctr256)
             (bytes2long (ctr_V example_ctr256)) 3) 40).
Proof.
  rewrite (CTRDRBG_counter_mode (P := test_primitives)
             (PS := test_primitives_spec) 40 None example_ctr256
             example_ctr256_wf);
    [reflexivity|lia|vm_compute; discriminate].
Defined.

(** ** HMAC_DRBG as a chain of MACs *)

Section HMAC_chain.

Context {P : Primitives} {PS : PrimitivesSpec P}.

Lemma ceil_div_bounds (a b : Z) :
  0 < b -> b * (ceil_div a b - 1) < a <= b * ceil_div a b.
Proof.
  intros Hb. unfold ceil_div.
  pose proof (Z.div_mod (- a) b ltac:(lia)).
  pose proof (Z.mod_pos_bound (- a) b Hb). nia.
Qed.

(** [n] more blocks of [b] bytes take a buffer of [have] bytes to [want]. *)
Definition chunks_needed (b want have : Z) (n : nat) : Prop :=
  match n with
  | O => want <= have
  | S n' => have + b * Z.of_nat n' < want <= have + b * Z.of_nat (S n')
  end.

Lemma chunks_needed_step (b want have : Z) (n : nat) :
  0 < b -> chunks_needed b want have (S n) ->
  have < want /\ chunks_needed b want (have + b) n.
Proof.
  unfold chunks_needed. intros Hb H. split; [nia|].
  destruct n as [|n']; nia.
Qed.

Lemma chunks_needed_ceil (b want : Z) :
  0 < b -> 0 <= want ->
  chunks_needed b want 0 (Z.to_nat (ceil_div want b)).
Proof.
  intros Hb Hw. pose proof (ceil_div_nonneg want b Hw Hb) as Hn.
  pose proof (ceil_div_bounds want b Hb) as Hc.
  unfold chunks_needed.
  destruct (Z.to_nat (ceil_div want b)) as [|n'] eqn:E; [lia|].
  replace (Z.of_nat n') with (ceil_div want b - 1) by lia.
  replace (Z.of_nat (S n')) with (ceil_div want b) by lia. lia.
Qed.

Lemma HMACDRBG_mac_nil (digest : string) (K V : bytes) :
  HMACDRBG_mac digest K V [] = hmac_new digest K V.
Proof. unfold HMACDRBG_mac. cbn [filter map concat]. rewrite app_nil_r. reflexivity. Qed.

Lemma hmac_iter_shift (digest : string) (K V : bytes) (i : nat) :
  hmac_iter digest K (hmac_new digest K V) i = hmac_iter digest K V (S i).
Proof.
  induction i as [|i IH]; [reflexivity|].
  cbn [hmac_iter] in *. rewrite IH. reflexivity.
Qed.

Lemma hmac_chain_S (digest : string) (K V : bytes) (n : nat) :
  hmac_chain digest K V (S n)
  = hmac_new digest K V ++ hmac_chain digest K (hmac_new digest K V) n.
Proof.
  unfold hmac_chain. cbn [seq map concat hmac_iter]. f_equal.
  rewrite <- seq_shift, map_map. f_equal. apply map_ext. intros i.
  symmetry. apply hmac_iter_shift.
Qed.

(** The loop of [_generate] appends the chain from [V] and leaves its last
    link. *)
Lemma HMACDRBG_generate_loop_chain (n : nat) :
  forall fuel digest count K V out,
    str_in digest DIGESTS = true ->
    chunks_needed (digest_size digest) count (len out) n -> (n < fuel)%nat ->
    HMACDRBG_generate_loop fuel digest count K V out
    = Some (hmac_iter digest K V n, out ++ hmac_chain digest K V n).
Proof.
  induction n as [|n IH]; intros fuel digest count K V out Hd Hn Hf;
    (destruct fuel as [|f]; [lia|]); cbn [HMACDRBG_generate_loop].
  - cbn [chunks_needed] in Hn.
    assert ((len out <? count) = false) as -> by (apply Z.ltb_ge; lia).
    unfold hmac_chain. cbn [seq map concat hmac_iter].
    rewrite app_nil_r. reflexivity.
  - pose proof (digest_size_range digest Hd) as Hds.
    apply chunks_needed_step in Hn; [|lia]. destruct Hn as [Hlt Hn].
    assert ((len out <? count) = true) as -> by (apply Z.ltb_lt; lia).
    rewrite HMACDRBG_mac_nil.
    rewrite (IH f digest count K (hmac_new digest K V)
               (out ++ hmac_new digest K V) Hd);
      [|rewrite len_app, hmac_new_len by exact Hd; exact Hn|lia].
    rewrite hmac_iter_shift, hmac_chain_S, <- app_assoc. reflexivity.
Qed.

(** HMAC_DRBG's [_generate] as SP 800-90A writes it.  Non-empty additional
    input first replaces [(Key, V)] by an update with it; the output is the
    first [count] bytes of [V_1 ‖ V_2 ‖ ...] with [V_1 = HMAC(Key, V)] and
    [V_(i+1) = HMAC(Key, V_i)]; the new state is the update, with the same
    additional input, of the key and the last link [V_n],
    [n = ceil(count / digest_size)].  The update itself is
    [K1 = HMAC(K, V ‖ 00 ‖ data)], [V1 = HMAC(K1, V)] and, when the data is
    not empty, [K2 = HMAC(K1, V1 ‖ 01 ‖ data)], [V2 = HMAC(K2, V1)]. *)
Theorem HMACDRBG_generate_chain (count : Z) (data : option bytes)
    (s : HMACDRBG) :
  wf_HMACDRBG s -> 0 < count ->
  let digest := hmac_digest s in
  let kv1 := if truthy data
             then HMACDRBG_update digest (hmac_key s) (hmac_V s) [data]
             else (hmac_key s, hmac_V s) in
  let n := Z.to_nat (ceil_div count (digest_size digest)) in
  let kv2 := HMACDRBG_update digest (fst kv1)
               (hmac_iter digest (fst kv1) (snd kv1) n) [data] in
  HMACDRBG_generate count data s
  = (Ok (slice_to (hmac_chain digest (fst kv1) (snd kv1) n) count),
     hmac_set_state s (fst kv2) (snd kv2)) /\
  (forall K V,
     HMACDRBG_update digest K V [data]
     = let K1 := hmac_new digest K (V ++ [x00] ++ or_empty data) in
       let V1 := hmac_new digest K1 V in
       if truthy data
       then let K2 := hmac_new digest K1 (V1 ++ [x01] ++ or_empty data) in
            (K2, hmac_new digest K2 V1)
       else (K1, V1)).
Proof.
  intros (Hd & _) Hc. cbv zeta. split.
  - unfold HMACDRBG_generate.
    destruct (if truthy data then _ else _) as [K V]. cbn [fst snd].
    pose proof (digest_size_range _ Hd) as Hds.
    pose proof (ceil_div_bounds count (digest_size (hmac_digest s)) ltac:(lia)).
    pose proof (ceil_div_nonneg count (digest_size (hmac_digest s))
                  ltac:(lia) ltac:(lia)).
    rewrite (HMACDRBG_generate_loop_chain
               (Z.to_nat (ceil_div count (digest_size (hmac_digest s))))
               (S (Z.to_nat count)) (hmac_digest s) count K V [] Hd);
      [reflexivity
      |rewrite len_nil; apply chunks_needed_ceil; lia
      |nia].
  - intros K V. unfold HMACDRBG_update.
    destruct data as [[|x d]|]; cbn [filter truthy or_empty];
      rewrite ?HMACDRBG_mac_nil; unfold HMACDRBG_mac;
      cbn [filter map concat or_empty]; rewrite ?app_nil_r; reflexivity.
Qed.

End HMAC_chain.

(** Seventy bytes from the fresh SHA-256 generator are cut from three
    links of the chain. *)
Lemma HMACDRBG_generate_chain_witness :
  fst (HMACDRBG_generate (P := test_primitives) 70 None example_hmac)
  = Ok (slice_to
          (hmac_chain (P := test_primitives) "sha256" (hmac_key example_hmac)
             (hmac_V example_hmac) 3) 70).
Proof.
  rewrite (proj1 (HMACDRBG_generate_chain (P := test_primitives)
                    (PS := test_primitives_spec) 70 None example_hmac
                    example_hmac_wf ltac:(lia))).
  reflexivity.
Defined.

(** ** What the wrapper returns for a request below [max_request_size] *)

Section Small_requests.

Context {P : Primitives} {PS : PrimitivesSpec P}.

(** One served chunk ends the loop. *)
Lemma get_bytes_loop_served (fuel : nat) (count : Z) (buf out : bytes)
    (g g' : DRBG) (k : nat) :
  0 < count < max_request_size g ->
  generate count None g = (Ok out, g') ->
  get_bytes_loop (S (S fuel)) (max_request_size g) count buf g k
  = (Ok (buf ++ out), (g', k)).
Proof.
  intros Hc Hg. cbn [get_bytes_loop].
  assert ((0 <? count) = true) as -> by (apply Z.ltb_lt; lia).
  assert ((max_request_size g <? count) = false) as -> by (apply Z.ltb_ge; lia).
  rewrite Hg, Z.sub_diag. reflexivity.
Qed.

(** A refused chunk, a reseed that succeeds, and the chunk served. *)
Lemma get_bytes_loop_reseeded (fuel : nat) (count : Z) (buf out : bytes)
    (g g1 g' : DRBG) (k : nat) :
  0 < count < max_request_size g ->
  RESEED_INTERVAL < reseed_counter g ->
  reseed (os_urandom k 32) None g = (Ok tt, g1) ->
  max_request_size g1 = max_request_size g ->
  generate count None g1 = (Ok out, g') ->
  get_bytes_loop (S (S (S fuel))) (max_request_size g) count buf g k
  = (Ok (buf ++ out), (g', S k)).
Proof.
  intros Hc Hr Hrs Hm Hg.
  pose proof (get_bytes_loop_served fuel count buf out g1 g' (S k)
                ltac:(lia) Hg) as Hloop.
  rewrite Hm in Hloop.
  remember (S (S fuel)) as n eqn:Hn. cbn [get_bytes_loop].
  assert ((0 <? count) = true) as -> by (apply Z.ltb_lt; lia).
  assert ((max_request_size g <? count) = false) as -> by (apply Z.ltb_ge; lia).
  destruct (generate_guards count None g) as (_ & _ & H3 & _).
  rewrite (H3 Hc no_data_within_limit Hr), Hrs. exact Hloop.
Qed.

(** For a request of fewer than [max_request_size] bytes, [_get_bytes]
    does one of three things.  Within the reseed interval it returns the
    bytes of a single [generate(count)] and draws no entropy.  Past the
    interval on a Hash_DRBG it reseeds once with [os.urandom(32)] and
    returns the bytes of [generate(count)] on the reseeded generator.  Past
    the interval on an HMAC_DRBG it never returns: every retry is refused
    again, however long the loop runs. *)
Theorem get_bytes_small_request (count : Z) (self : RandomByteGenerator)
    (k : nat) :
  wf (drbg self) -> 0 < count < max_request_size (drbg self) ->
  (reseed_counter (drbg self) <= RESEED_INTERVAL ->
   exists out g',
     generate count None (drbg self) = (Ok out, g') /\ len out = count /\
     forall fuel,
       _get_bytes (S (S fuel)) count self k
       = (Ok out, (mkRandomByteGenerator g' (_buf self) (_buf_index self), k))) /\
  (RESEED_INTERVAL < reseed_counter (drbg self) ->
   forall s, drbg self = Hash_DRBG s ->
   exists g1 out g',
     reseed (os_urandom k 32) None (drbg self) = (Ok tt, g1) /\
     generate count None g1 = (Ok out, g') /\ len out = count /\
     forall fuel,
       _get_bytes (S (S (S fuel))) count self k
       = (Ok out,
          (mkRandomByteGenerator g' (_buf self) (_buf_index self), S k))) /\
  (RESEED_INTERVAL < reseed_counter (drbg self) ->
   forall s, drbg self = HMAC_DRBG s ->
   forall fuel, fst (_get_bytes fuel count self k) = Diverges).
Proof.
  intros Hwf Hc. split; [|split].
  - intros Hr.
    destruct (generate_ok count None (drbg self) Hwf Hc I Hr)
      as (out & g' & Hg & Hlen & _).
    exists out, g'. split; [exact Hg|]. split; [exact Hlen|].
    intros fuel. unfold _get_bytes.
    rewrite (get_bytes_loop_served fuel count [] out _ g' k Hc Hg).
    reflexivity.
  - intros Hr s Hs. rewrite Hs in *. cbn [wf max_request_size reseed_counter] in *.
    set (g1 := set_reseed_counter
                 (Hash_DRBG (HashDRBG_reseed (os_urandom k 32) None s)) 1).
    assert (reseed (os_urandom k 32) None (Hash_DRBG s) = (Ok tt, g1)) as Hrs
      by reflexivity.
    destruct (HashDRBG_reseed_wf (os_urandom k 32) None s Hwf) as [Hwf1 _].
    destruct (generate_ok count None g1 Hwf1 Hc I ltac:(cbn; discriminate))
      as (out & g' & Hg & Hlen & _).
    exists g1, out, g'. split; [exact Hrs|]. split; [exact Hg|].
    split; [exact Hlen|].
    intros fuel. unfold _get_bytes. rewrite Hs.
    pose proof (get_bytes_loop_reseeded fuel count [] out (Hash_DRBG s) g1 g' k
                  Hc Hr Hrs eq_refl Hg) as Hloop.
    rewrite Hloop.
    reflexivity.
  - intros Hr s Hs fuel. unfold _get_bytes. rewrite Hs in *.
    cbn [max_request_size reseed_counter] in *.
    pose proof (get_bytes_loop_hmac_diverges fuel count [] s k Hc Hr) as Hdiv.
    destruct (get_bytes_loop fuel (hmac_max_request_size s) count []
                (HMAC_DRBG s) k) as [r [g kk]].
    exact Hdiv.
Qed.

End Small_requests.

(** Twenty bytes through the wrapper on a fresh HMAC_DRBG. *)
Lemma get_bytes_small_request_witness :
  exists out g',
    generate (P := test_primitives) 20 None (HMAC_DRBG example_hmac)
    = (Ok out, g') /\ len out = 20 /\
    forall fuel,
      _get_bytes (P := test_primitives) (S (S fuel)) 20
        (mkRandomByteGenerator (HMAC_DRBG example_hmac) [] 0) 0%nat
      = (Ok out, (mkRandomByteGenerator g' [] 0, 0%nat)).
Proof.
  refine (proj1 (get_bytes_small_request (P := test_primitives)
                   (PS := test_primitives_spec) 20
                   (mkRandomByteGenerator (HMAC_DRBG example_hmac) [] 0) 0%nat
                   example_hmac_wf _) _); vm_compute; intuition congruence.
Defined.

(** ** Iterating over the wrapper *)

Section Iteration.

Context {P : Primitives} {PS : PrimitivesSpec P}.

(** The block [generate()] asks for is an acceptable request. *)
Lemma wf_block_request (g : DRBG) :
  wf g -> 0 < outlen g / 8 < max_request_size g.
Proof.
  destruct g as [s|s|s]; cbn [wf outlen max_request_size].
  - intros [(_ & Hm & Ho & _) _]. rewrite Ho, Hm.
    change (128 / 8) with 16. change (2 ^ 13) with 8192. lia.
  - intros (Hd & Hm & Ho & _). pose proof (digest_size_range _ Hd).
    rewrite Ho, Hm, Z.mul_comm, Z.div_mul by lia.
    change (2 ^ 16) with 65536. lia.
  - intros (Hd & Hm & Ho & _). pose proof (digest_size_range _ Hd).
    rewrite Ho, Hm, Z.mul_comm, Z.div_mul by lia.
    change (2 ^ 16) with 65536. lia.
Qed.

Lemma getitem_inside (buf : bytes) (n : nat) :
  (n < length buf)%nat -> getitem buf (Z.of_nat n) = nth_error buf n.
Proof.
  intros Hn. unfold getitem, len.
  assert ((Z.of_nat n <? 0) = false) as -> by (apply Z.ltb_ge; lia).
  assert ((0 <=? Z.of_nat n) = true) as -> by (apply Z.leb_le; lia).
  assert ((Z.of_nat n <? Z.of_nat (length buf)) = true) as ->
    by (apply Z.ltb_lt; lia).
  cbn [andb]. rewrite Nat2Z.id. reflexivity.
Qed.

Lemma rev_firstn_S {A : Type} (l : list A) (n : nat) (x : A) :
  nth_error l n = Some x -> rev (firstn (S n) l) = x :: rev (firstn n l).
Proof.
  revert l. induction n as [|n IH]; intros [|y l] H; try discriminate.
  - cbn in H. injection H as ->. reflexivity.
  - cbn [nth_error] in H. specialize (IH l H).
    change (firstn (S (S n)) (y :: l)) with (y :: firstn (S n) l).
    change (firstn (S n) (y :: l)) with (y :: firstn n l).
    cbn [rev]. rewrite IH. reflexivity.
Qed.

(** With [n] bytes of the buffer still unread, [n] calls read them from
    position [n - 1] down to position [0], and touch nothing else. *)
Lemma next_many_buffered (fuel : nat) (n : nat) (g : DRBG) (buf : bytes)
    (k : nat) :
  (n <= length buf)%nat ->
  next_many fuel n (mkRandomByteGenerator g buf (Z.of_nat n)) k
  = (map Yield (rev (firstn n buf)), (mkRandomByteGenerator g buf 0, k)).
Proof.
  induction n as [|n IH]; intros Hn.
  - reflexivity.
  - destruct (nth_error buf n) as [x|] eqn:Hx;
      [|apply nth_error_None in Hx; lia].
    cbn [next_many]. unfold RandomByteGenerator_next.
    cbn [_buf_index _buf drbg].
    assert ((Z.of_nat (S n) =? 0) = false) as -> by (apply Z.eqb_neq; lia).
    cbn [_buf_index _buf drbg].
    replace (Z.of_nat (S n) - 1) with (Z.of_nat n) by lia.
    rewrite (getitem_inside buf n) by lia. rewrite Hx.
    rewrite IH by lia. rewrite (rev_firstn_S buf n x Hx). reflexivity.
Qed.

(** A call on an exhausted buffer is a call on the refilled one. *)
Lemma next_refills (fuel : nat) (self : RandomByteGenerator) (k k' : nat)
    (buf : bytes) (self' : RandomByteGenerator) :
  _buf_index self = 0 ->
  RandomByteGenerator_generate fuel None self k = (Ok buf, (self', k')) ->
  buf <> [] ->
  RandomByteGenerator_next fuel self k
  = RandomByteGenerator_next fuel
      (mkRandomByteGenerator (drbg self') buf (len buf)) k'.
Proof.
  intros Hi Hg Hb. unfold RandomByteGenerator_next at 1.
  rewrite Hi, Hg. cbn [Z.eqb]. cbv beta iota.
  unfold RandomByteGenerator_next. cbn [_buf_index _buf drbg].
  assert ((len buf =? 0) = false) as ->.
  { apply Z.eqb_neq. destruct buf; [congruence|rewrite len_cons].
    pose proof (len_nonneg buf). lia. }
  reflexivity.
Qed.

(** Iterating over the wrapper hands out each generated block backwards.
    On an exhausted buffer and within the reseed interval, the first call
    of [__next__] fetches one block of [outlen // 8] bytes with
    [generate()]; that call and the following ones return the bytes of the
    block from the last to the first.  After [outlen // 8] calls the block
    is used up, the buffer index is back at zero, and no entropy was
    drawn. *)
Theorem next_yields_block_reversed (self : RandomByteGenerator) (k : nat) :
  wf (drbg self) -> _buf_index self = 0 ->
  reseed_counter (drbg self) <= RESEED_INTERVAL ->
  exists block g',
    generate (outlen (drbg self) / 8) None (drbg self) = (Ok block, g') /\
    len block = outlen (drbg self) / 8 /\
    forall fuel,
      next_many (S (S fuel)) (length block) self k
      = (map Yield (rev block), (mkRandomByteGenerator g' block 0, k)).
Proof.
  intros Hwf Hi Hr. pose proof (wf_block_request _ Hwf) as Hc.
  destruct (generate_ok _ None (drbg self) Hwf Hc I Hr)
    as (block & g' & Hg & Hlen & _).
  exists block, g'. split; [exact Hg|]. split; [exact Hlen|].
  intros fuel.
  assert (RandomByteGenerator_generate (S (S fuel)) None self k
          = (Ok block,
             (mkRandomByteGenerator g' (_buf self) (_buf_index self), k)))
    as Hgen.
  { unfold RandomByteGenerator_generate, _get_bytes.
    rewrite (get_bytes_loop_served fuel _ [] block _ g' k Hc Hg).
    reflexivity. }
  assert (block <> []) as Hb.
  { intros ->. rewrite len_nil in Hlen. lia. }
  destruct (length block) as [|n] eqn:Hn.
  { destruct block; [congruence|discriminate]. }
  pose proof (next_many_buffered (S (S fuel)) (S n) g' block k
                ltac:(lia)) as Hrest.
  rewrite <- Hn in Hrest at 3. rewrite firstn_all in Hrest.
  cbn [next_many] in Hrest |- *.
  rewrite (next_refills _ self k k block _ Hi Hgen Hb).
  cbn [drbg]. unfold len. rewrite Hn. exact Hrest.
Qed.

End Iteration.

(** The first block of a wrapper around a fresh HMAC_DRBG. *)
Lemma next_yields_block_reversed_witness :
  exists block g',
    generate (P := test_primitives)
      (outlen (HMAC_DRBG example_hmac) / 8) None (HMAC_DRBG example_hmac)
    = (Ok block, g') /\
    len block = outlen (HMAC_DRBG example_hmac) / 8 /\
    forall fuel,
      next_many (P := test_primitives) (S (S fuel)) (length block)
        (mkRandomByteGenerator (HMAC_DRBG example_hmac) [] 0) 0%nat
      = (map Yield (rev block), (mkRandomByteGenerator g' block 0, 0%nat)).
Proof.
  refine (next_yields_block_reversed (P := test_primitives)
            (PS := test_primitives_spec)
            (mkRandomByteGenerator (HMAC_DRBG example_hmac) [] 0) 0%nat
            example_hmac_wf _ _); vm_compute; intuition congruence.
Defined.

(** ** Which names [new] turns into a generator *)

Section Factory.

Context {P : Primitives}.

Lemma take_digits_app (n : nat) (s ds tl : string) :
  take_digits n s = (ds, tl) -> s = (ds ++ tl)%string.
Proof.
  revert s ds tl. induction n as [|n IH]; intros s ds tl H.
  - destruct s; cbn in H; injection H as <- <-; reflexivity.
  - destruct s as [|c rest]; cbn [take_digits] in H.
    + injection H as <- <-. reflexivity.
    + destruct (is_digit c).
      * destruct (take_digits n rest) as [ds' tl'] eqn:Ht.
        injection H as <- <-. cbn [append]. f_equal. exact (IH _ _ _ Ht).
      * injection H as <- <-. reflexivity.
Qed.

Lemma prefix_app (p s : string) :
  prefix p s = true -> exists suffix, s = (p ++ suffix)%string.
Proof.
  revert s. induction p as [|c p IH]; intros s H.
  - exists s. reflexivity.
  - destruct s as [|c' s]; cbn [prefix] in H; [discriminate|].
    destruct (ascii_dec c c') as [->|]; [|discriminate].
    destruct (IH s H) as [suffix ->]. exists suffix. reflexivity.
Qed.

(** A match of the pattern with both groups: the name is the first group,
    then [hmac], then anything. *)
Lemma re_match_hmac_inv (s digest x : string) :
  re_match s = Some (digest, Some x) ->
  exists suffix, s = (digest ++ "hmac" ++ suffix)%string.
Proof.
  intros H.
  destruct s as [|c1 s]; [discriminate|].
  destruct c1 as [[] [] [] [] [] [] [] []]; try discriminate.
  destruct s as [|c2 s]; [discriminate|].
  destruct c2 as [[] [] [] [] [] [] [] []]; try discriminate.
  destruct s as [|c3 s]; [discriminate|].
  destruct c3 as [[] [] [] [] [] [] [] []]; try discriminate.
  cbn [re_match] in H.
  destruct (take_digits 3 s) as [ds tl] eqn:Ht.
  apply take_digits_app in Ht. subst s.
  destruct ds as [|d ds]; [discriminate|].
  destruct (prefix "hmac" tl) eqn:Hp; [|discriminate].
  destruct (prefix_app _ _ Hp) as [suffix ->].
  injection H as <- _. exists suffix.
  reflexivity.
Qed.

Lemma re_match_hmac (digest suffix : string) :
  str_in digest DIGESTS = true ->
  re_match (digest ++ "hmac" ++ suffix) = Some (digest, Some "hmac"%string).
Proof.
  intros H.
  destruct (DIGESTS_cases digest H) as [->|[->|[->|[->| ->]]]];
    destruct suffix; reflexivity.
Qed.

Lemma HMACDRBG_init_supported (digest : string) (entropy nonce : bytes)
    (data : option bytes) :
  str_in digest DIGESTS = true ->
  exists d,
    HMACDRBG_init digest entropy nonce data = Ok d /\
    hmac_digest d = digest /\ hmac_reseed_counter d = 1.
Proof.
  intros H. unfold HMACDRBG_init.
  assert (endswith digest "hmac" = false) as ->
    by (destruct (DIGESTS_cases digest H) as [->|[->|[->|[->| ->]]]];
        reflexivity).
  rewrite H. unfold negb. eexists. split; [reflexivity|]. split; reflexivity.
Qed.

(** [new] returns a generator for exactly the names that, lowercased,
    start with a supported digest name directly followed by [hmac];
    whatever comes after is ignored.  The generator is then the HMAC_DRBG
    of that digest, built from two successive draws of [os.urandom(128)]
    as entropy and nonce and from the personalization string. *)
Theorem new_builds_HMACDRBG (name : string) (ps : option bytes) (k : nat) :
  (forall digest suffix,
     str_in digest DIGESTS = true ->
     lower name = (digest ++ "hmac" ++ suffix)%string ->
     exists d,
       HMACDRBG_init digest (os_urandom k 128) (os_urandom (S k) 128) ps
       = Ok d /\
       new name ps k = Ok (Some (HMAC_DRBG d)) /\
       hmac_digest d = digest /\ hmac_reseed_counter d = 1) /\
  (forall g,
     new name ps k = Ok (Some g) ->
     exists digest suffix,
       str_in digest DIGESTS = true /\
       lower name = (digest ++ "hmac" ++ suffix)%string).
Proof.
  split.
  - intros digest suffix Hd Hname.
    destruct (HMACDRBG_init_supported digest (os_urandom k 128)
                (os_urandom (S k) 128) ps Hd) as (d & Hinit & Hdig & Hctr).
    exists d. split; [exact Hinit|]. split; [|split; assumption].
    unfold new. rewrite Hname, (re_match_hmac digest suffix Hd), Hd.
    unfold negb. rewrite Hinit. reflexivity.
  - intros g H. unfold new in H.
    destruct (re_match (lower name)) as [[digest [x|]]|] eqn:Hm.
    + destruct (str_in digest DIGESTS) eqn:Hd; [|discriminate].
      destruct (re_match_hmac_inv _ _ _ Hm) as [suffix Hs].
      exists digest, suffix. split; [exact Hd|exact Hs].
    + destruct (str_in digest DIGESTS); discriminate.
    + discriminate.
Qed.

End Factory.

(** ** Parameters and widths are fixed at construction *)

Section Parameters.

Context {P : Primitives} {PS : PrimitivesSpec P}.

Lemma substring_0_all (s : string) : substring 0 (String.length s) s = s.
Proof. induction s as [|c s IH]; cbn; [reflexivity|f_equal; exact IH]. Qed.

Lemma substring_split (k : nat) :
  forall s, (k <= String.length s)%nat ->
  s = (substring 0 k s ++ substring k (String.length s - k) s)%string.
Proof.
  induction k as [|k IH]; intros s Hk.
  - rewrite Nat.sub_0_r, substring_0_all. destruct s; reflexivity.
  - destruct s as [|c s]; cbn [String.length] in Hk; [lia|].
    cbn [substring String.length Nat.sub append]. f_equal. apply IH. lia.
Qed.

(** [name.endswith(suffix)] holds of [name[:-len(suffix)] + suffix] only. *)
Lemma endswith_split (s suffix : string) :
  endswith s suffix = true ->
  s = (substring 0 (String.length s - String.length suffix) s ++ suffix)%string.
Proof.
  unfold endswith, str_from. intros H. apply andb_true_iff in H.
  destruct H as [Hl He]. apply Nat.leb_le in Hl. apply String.eqb_eq in He.
  pose proof (substring_split (String.length s - String.length suffix) s
                ltac:(lia)) as Hs.
  rewrite He in Hs. exact Hs.
Qed.

(** [_generate] and [_reseed] of CTR_DRBG write [Key] and [V] only. *)
Lemma CTRDRBG_generate_shape (count : Z) (data : option bytes)
    (s s' : CTRDRBG) (r : result bytes) :
  CTRDRBG_generate count data s = (r, s') ->
  exists K V, s' = ctr_set_state s K V.
Proof.
  assert (exists K V, s = ctr_set_state s K V) as Hs
    by (exists (ctr_key s), (ctr_V s); destruct s; reflexivity).
  unfold CTRDRBG_generate. intros H.
  destruct (truthy data && _); [inversion H; subst; exact Hs|].
  match type of H with (match ?f with _ => _ end) = _ =>
    destruct f as [s1|e1|] eqn:Hc end;
    [|inversion H; subst; exact Hs|inversion H; subst; exact Hs].
  assert (exists K V, s1 = ctr_set_state s K V) as (K1 & V1 & ->).
  { head_case Hc.
    - unfold bind in Hc. head_case Hc; try discriminate.
      apply Ok_inj in Hc. subst s1. eauto.
    - apply Ok_inj in Hc. subst s1. exact Hs. }
  head_case H; [|inversion H; subst; eauto].
  destruct p as [V temp].
  head_case H; inversion H; subst; eauto.
  exists (fst a), (snd a). reflexivity.
Qed.

Lemma CTRDRBG_reseed_shape (entropy : bytes) (data : option bytes)
    (s : CTRDRBG) :
  exists K V, snd (CTRDRBG_reseed entropy data s) = ctr_set_state s K V.
Proof.
  assert (exists K V, s = ctr_set_state s K V) as Hs
    by (exists (ctr_key s), (ctr_V s); destruct s; reflexivity).
  unfold CTRDRBG_reseed.
  destruct (truthy data && _); [exact Hs|].
  destruct (negb _); [exact Hs|].
  destruct (bind _ _) as [kv|e|]; cbn [snd]; eauto.
Qed.

Lemma parameters_of_set_reseed_counter (g : DRBG) (n : Z) :
  parameters_of (set_reseed_counter g n) = parameters_of g.
Proof. destruct g; reflexivity. Qed.

Lemma _generate_parameters (count : Z) (data : option bytes) (g : DRBG) :
  parameters_of (snd (_generate count data g)) = parameters_of g.
Proof.
  destruct g as [s|s|s]; cbn [_generate].
  - destruct (CTRDRBG_generate count data s) as [r s'] eqn:E.
    destruct (CTRDRBG_generate_shape _ _ _ _ _ E) as (K & V & ->). reflexivity.
  - reflexivity.
  - unfold HMACDRBG_generate.
    destruct (if truthy data then _ else _) as [K V].
    destruct (HMACDRBG_generate_loop _ _ _ _ _ _) as [[V1 out]|]; reflexivity.
Qed.

(** No call of [generate] changes a parameter, whatever its outcome. *)
Lemma generate_parameters (count : Z) (data : option bytes) (g : DRBG) :
  parameters_of (snd (generate count data g)) = parameters_of g.
Proof.
  unfold generate, DRBG_generate.
  destruct (negb _); [reflexivity|].
  destruct (match data with Some _ => _ | None => _ end); [reflexivity|].
  destruct (RESEED_INTERVAL <? reseed_counter g); [reflexivity|].
  pose proof (_generate_parameters count data g) as H.
  destruct (_generate count data g) as [[out|e|] g']; cbn [snd] in *;
    try exact H.
  rewrite parameters_of_set_reseed_counter. exact H.
Qed.

(** No call of [reseed] changes a parameter, whatever its outcome. *)
Lemma reseed_parameters (entropy : bytes) (data : option bytes) (g : DRBG) :
  parameters_of (snd (reseed entropy data g)) = parameters_of g.
Proof.
  destruct g as [s|s|s]; cbn [reseed]; [| |reflexivity];
    unfold DRBG_reseed, _reseed.
  - destruct (CTRDRBG_reseed_shape entropy data s) as (K & V & H).
    destruct (CTRDRBG_reseed entropy data s) as [[u|e|] s']; cbn [snd] in *;
      subst s'; reflexivity.
  - reflexivity.
Qed.

(** On well-formed instances the parameters decide the widths. *)
Lemma wf_state_widths (g g' : DRBG) :
  wf g -> wf g' -> parameters_of g' = parameters_of g ->
  state_widths g' = state_widths g.
Proof.
  destruct g as [s|s|s], g' as [s'|s'|s']; cbn [wf parameters_of];
    try discriminate; intros Hwf Hwf' Hp; injection Hp as; unfold state_widths;
    cbn [working_state fst snd].
  - destruct Hwf as (_ & HK & HV), Hwf' as (_ & HK' & HV'). congruence.
  - destruct Hwf as (_ & _ & _ & _ & HV & HC),
             Hwf' as (_ & _ & _ & _ & HV' & HC'). congruence.
  - destruct Hwf as (_ & _ & _ & HK & HV), Hwf' as (_ & _ & _ & HK' & HV').
    congruence.
Qed.

(** The parameters and the widths of the working state are fixed at
    construction.  A constructor that returns builds a well-formed
    instance with its counter at 1, whose parameters are the ones the name
    selects ([keylen] from the cipher name; [outlen], [seedlen] and
    [security_strength] from the digest, with or without the [hmac]
    suffix for HMAC_DRBG) and whose working state has the widths these
    fix.  Every call of [generate] or [reseed] on a well-formed instance,
    whatever its outcome, leaves a well-formed instance with exactly the
    same parameters and the same widths of the working state. *)
Theorem state_widths_invariant :
  (forall c g,
     construct c = Ok g ->
     wf g /\ reseed_counter g = 1 /\
     match c with
     | New_CTRDRBG name _ _ =>
         exists k,
           ((lower name = "aes128"%string /\ k = 128) \/
            (lower name = "aes192"%string /\ k = 192) \/
            (lower name = "aes256"%string /\ k = 256)) /\
           parameters_of g = CTR_parameters k (2 ^ 13) 128 ((128 + k) / 8) /\
           state_widths g = (k / 8, 16)
     | New_HashDRBG name _ _ _ =>
         str_in name DIGESTS = true /\
         exists seedlen,
           seedlen = (if 256 <? 8 * digest_size name then 888 else 440) /\
           parameters_of g
           = Hash_parameters name (2 ^ 16) (8 * digest_size name) seedlen
                             (8 * digest_size name / 2) /\
           state_widths g = (seedlen / 8, seedlen / 8)
     | New_HMACDRBG name _ _ _ =>
         exists digest seedlen,
           (name = digest \/ name = (digest ++ "hmac")%string) /\
           str_in digest DIGESTS = true /\
           seedlen = (if 256 <? 8 * digest_size digest then 888 else 440) /\
           parameters_of g
           = HMAC_parameters digest (2 ^ 16) (8 * digest_size digest) seedlen
                             (8 * digest_size digest / 2) /\
           state_widths g = (digest_size digest, digest_size digest)
     end) /\
  (forall count data g,
     wf g ->
     wf (snd (generate count data g)) /\
     parameters_of (snd (generate count data g)) = parameters_of g /\
     state_widths (snd (generate count data g)) = state_widths g) /\
  (forall entropy data g,
     wf g ->
     wf (snd (reseed entropy data g)) /\
     parameters_of (snd (reseed entropy data g)) = parameters_of g /\
     state_widths (snd (reseed entropy data g)) = state_widths g).
Proof.
  split; [|split].
  - intros c g Hc. pose proof (construct_wf c g Hc) as [Hwf Hone].
    split; [exact Hwf|]. split; [exact Hone|].
    {
    destruct c as [name entropy data|name entropy nonce data
                  |name entropy nonce data];
      cbn [construct] in Hc; unfold bind in Hc; head_case Hc; try discriminate;
      apply Ok_inj in Hc; subst g; cbn [wf] in Hwf.
    - match goal with E : CTRDRBG_init _ _ _ = Ok _ |- _ =>
        pose proof (CTRDRBG_init_wf _ _ _ _ E) as (_ & _ & Hk);
        unfold CTRDRBG_init in E; cbv zeta in E;
        destruct (str_in (lower name) CIPHERS) eqn:Hin; [|discriminate];
        clear E end.
      destruct Hwf as ((_ & Hm & Ho & Hs) & HK & HV).
      exists (ctr_keylen a).
      split; [|split].
      + unfold str_in, CIPHERS in Hin. cbn [existsb] in Hin.
        rewrite !orb_true_iff, !String.eqb_eq in Hin.
        destruct Hin as [Hn|[Hn|[Hn|Hn]]]; [| | |discriminate];
          rewrite Hn in Hk |- *; rewrite Hk; [left|right; left|right; right];
          split; reflexivity.
      + cbn [parameters_of]. rewrite Hm, Hs, Ho. reflexivity.
      + unfold state_widths. cbn [working_state fst snd].
        rewrite HK, HV, Ho. reflexivity.
    - match goal with E : HashDRBG_init _ _ _ _ = Ok _ |- _ =>
        unfold HashDRBG_init in E;
        destruct (str_in name DIGESTS) eqn:Hd; [|discriminate];
        unfold negb in E; cbv zeta in E; apply Ok_inj in E; subst a end.
      split; [reflexivity|]. eexists. split; [reflexivity|].
      split; [reflexivity|].
      destruct Hwf as (_ & _ & _ & _ & HV & HC).
      unfold state_widths. cbn [working_state fst snd]. rewrite HV, HC.
      reflexivity.
    - match goal with E : HMACDRBG_init _ _ _ _ = Ok _ |- _ =>
        unfold HMACDRBG_init in E; cbv zeta in E end.
      match goal with E : context [endswith name ?x] |- _ =>
        destruct (endswith name x) eqn:He end.
      + apply endswith_split in He.
        match goal with E : (if negb (str_in ?n DIGESTS) then _ else _) = _ |- _ =>
          destruct (str_in n DIGESTS) eqn:Hd; [|discriminate];
          unfold negb in E; apply Ok_inj in E; subst a;
          exists n end.
        eexists. split; [right; exact He|]. split; [exact Hd|].
        split; [reflexivity|]. split; [reflexivity|].
        destruct Hwf as (_ & _ & Ho & HK & HV).
        cbn [hmac_outlen hmac_key hmac_V] in Ho, HK, HV.
        unfold state_widths. cbn [working_state hmac_key hmac_V fst snd].
        rewrite HK, HV, Z.mul_comm, Z.div_mul by lia. reflexivity.
      + match goal with E : (if negb (str_in ?n DIGESTS) then _ else _) = _ |- _ =>
          destruct (str_in n DIGESTS) eqn:Hd; [|discriminate];
          unfold negb in E; apply Ok_inj in E; subst a end.
        exists name. eexists. split; [left; reflexivity|]. split; [exact Hd|].
        split; [reflexivity|]. split; [reflexivity|].
        destruct Hwf as (_ & _ & Ho & HK & HV).
        cbn [hmac_outlen hmac_key hmac_V] in Ho, HK, HV.
        unfold state_widths. cbn [working_state hmac_key hmac_V fst snd].
        rewrite HK, HV, Z.mul_comm, Z.div_mul by lia. reflexivity.
    }
  - intros count data g Hwf.
    pose proof (generate_preserves_wf count data g Hwf) as Hwf'.
    pose proof (generate_parameters count data g) as Hp.
    split; [exact Hwf'|]. split; [exact Hp|].
    exact (wf_state_widths _ _ Hwf Hwf' Hp).
  - intros entropy data g Hwf.
    pose proof (reseed_preserves_wf entropy data g Hwf) as Hwf'.
    pose proof (reseed_parameters entropy data g) as Hp.
    split; [exact Hwf'|]. split; [exact Hp|].
    exact (wf_state_widths _ _ Hwf Hwf' Hp).
Qed.

End Parameters.

(** AES-128: a served [generate] and a [reseed] keep the 16-byte key and
    the 16-byte counter block. *)
Lemma state_widths_invariant_witness :
  state_widths (snd (generate (P := test_primitives) 3 (Some [x01; x02])
                       (CTR_DRBG example_ctr128))) = (16, 16) /\
  parameters_of (snd (reseed (P := test_primitives) (zeros 32) None
                        (CTR_DRBG example_ctr128)))
  = CTR_parameters 128 (2 ^ 13) 128 32.
Proof.
  destruct (state_widths_invariant (P := test_primitives)
              (PS := test_primitives_spec)) as (_ & Hg & Hr).
  split.
  - rewrite (proj2 (proj2 (Hg 3 (Some [x01; x02]) (CTR_DRBG example_ctr128)
                             example_ctr128_wf))).
    reflexivity.
  - rewrite (proj1 (proj2 (Hr (zeros 32) None (CTR_DRBG example_ctr128)
                             example_ctr128_wf))).
    reflexivity.
Defined.

(** ** Empty additional input *)

Section Empty_additional_input.

Context {P : Primitives} {PS : PrimitivesSpec P}.

(** A served [generate] of a Hash_DRBG, over the integers: the stream
    starts at the working value and the new [V] is computed from it. *)
Lemma generate_Hash_served (count : Z) (data : option bytes) (s : HashDRBG) :
  wf_HashDRBG s -> 0 < count < 2 ^ 16 ->
  len (or_empty data) <= MAX_ENTROPY_LENGTH ->
  hash_reseed_counter s <= RESEED_INTERVAL ->
  generate count data (Hash_DRBG s)
  = (Ok (slice_to
           (hashgen_stream (hash_digest s) (hash_seedlen s)
              (bytes2long (HashDRBG_working_V data s))
              (Z.to_nat (ceil_div (8 * count) (hash_outlen s)))) count),
     set_reseed_counter
       (Hash_DRBG
          (hash_set_V s
             (encode (hash_seedlen s / 8)
                ((bytes2long (HashDRBG_working_V data s)
                  + bytes2long (hashlib (hash_digest s)
                                  (x03 :: HashDRBG_working_V data s))
                  + bytes2long (hash_C s) + hash_reseed_counter s)
                 mod 2 ^ hash_seedlen s))))
       (hash_reseed_counter s + 1)).
Proof.
  intros Hwf Hc Hd Hr.
  pose proof (wf_HashDRBG_seedlen s Hwf) as Hsl.
  pose proof Hwf as (_ & Hm & _ & _ & HV & _).
  destruct (generate_guards count data (Hash_DRBG s)) as (_ & _ & _ & Hrun).
  rewrite Hrun; cbn [max_request_size reseed_counter]; [|lia|exact Hd|exact Hr].
  cbn [_generate]. unfold HashDRBG_generate. cbv zeta.
  rewrite hashgen_counter_mode; [reflexivity|exact Hsl|].
  unfold HashDRBG_working_V. destruct data as [d|]; [|exact HV].
  apply (len_repadded_V _ (hash_seedlen s) Hsl).
Qed.

(** A served [generate] of an HMAC_DRBG whose additional input is absent
    or empty: the chain starts from the stored [(Key, V)] and the closing
    update has its first round only, with no data in it. *)
Lemma generate_HMAC_no_data (count : Z) (data : option bytes) (h : HMACDRBG) :
  truthy data = false ->
  wf_HMACDRBG h -> 0 < count < 2 ^ 16 ->
  hmac_reseed_counter h <= RESEED_INTERVAL ->
  let digest := hmac_digest h in
  let n := Z.to_nat (ceil_div count (digest_size digest)) in
  let Vn := hmac_iter digest (hmac_key h) (hmac_V h) n in
  let K1 := hmac_new digest (hmac_key h) (Vn ++ [x00]) in
  generate count data (HMAC_DRBG h)
  = (Ok (slice_to (hmac_chain digest (hmac_key h) (hmac_V h) n) count),
     set_reseed_counter
       (HMAC_DRBG (hmac_set_state h K1 (hmac_new digest K1 Vn)))
       (hmac_reseed_counter h + 1)).
Proof.
  intros Ht Hwf Hc Hr. cbv zeta.
  pose proof Hwf as (Hd & Hm & _).
  assert (len (or_empty data) <= MAX_ENTROPY_LENGTH) as Hlen.
  { destruct data as [[|x d]|]; try discriminate; exact no_data_within_limit. }
  destruct (generate_guards count data (HMAC_DRBG h)) as (_ & _ & _ & Hrun).
  rewrite Hrun; cbn [max_request_size reseed_counter];
    [|lia|exact Hlen|exact Hr].
  cbn [_generate]. unfold HMACDRBG_generate. rewrite Ht.
  pose proof (digest_size_range _ Hd) as Hds.
  pose proof (ceil_div_bounds count (digest_size (hmac_digest h)) ltac:(lia)).
  pose proof (ceil_div_nonneg count (digest_size (hmac_digest h))
                ltac:(lia) ltac:(lia)).
  rewrite (HMACDRBG_generate_loop_chain
             (Z.to_nat (ceil_div count (digest_size (hmac_digest h))))
             (S (Z.to_nat count)) (hmac_digest h) count (hmac_key h)
             (hmac_V h) [] Hd);
    [|rewrite len_nil; apply chunks_needed_ceil; lia|nia].
  assert (forall K V,
            HMACDRBG_update (hmac_digest h) K V [data]
            = (hmac_new (hmac_digest h) K (V ++ [x00]),
               hmac_new (hmac_digest h)
                 (hmac_new (hmac_digest h) K (V ++ [x00])) V)) as Hu.
  { intros K V. unfold HMACDRBG_update.
    destruct data as [[|x d]|]; try discriminate;
      cbn [filter truthy]; rewrite ?HMACDRBG_mac_nil; unfold HMACDRBG_mac;
      cbn [filter map concat or_empty]; rewrite ?app_nil_r; reflexivity. }
  rewrite Hu. reflexivity.
Qed.

(** The first block of the stream is a prefix of the output once a whole
    block is asked for. *)
Lemma hashgen_stream_first_block (s : HashDRBG) (count u : Z) :
  wf_HashDRBG s -> 0 <= u < 2 ^ hash_seedlen s ->
  digest_size (hash_digest s) <= count ->
  firstn (Z.to_nat (digest_size (hash_digest s)))
    (slice_to (hashgen_stream (hash_digest s) (hash_seedlen s) u
                 (Z.to_nat (ceil_div (8 * count) (hash_outlen s)))) count)
  = hashlib (hash_digest s) (encode (hash_seedlen s / 8) u).
Proof.
  intros Hwf Hu Hc. pose proof Hwf as (Hd & _ & Ho & _).
  pose proof (digest_size_range _ Hd) as Hds.
  pose proof (ceil_div_bounds (8 * count) (hash_outlen s) ltac:(lia)) as Hb.
  destruct (Z.to_nat (ceil_div (8 * count) (hash_outlen s))) as [|m] eqn:Em;
    [nia|].
  unfold hashgen_stream, slice_to. cbn [seq map concat].
  assert ((count <? 0) = false) as -> by (apply Z.ltb_ge; lia).
  rewrite Z.add_0_r, Z.mod_small by exact Hu.
  pose proof (hashlib_len (hash_digest s)
                (encode (hash_seedlen s / 8) u) Hd) as Hl.
  unfold len in Hl.
  rewrite firstn_firstn, Nat.min_l by lia.
  rewrite firstn_app.
  replace (Z.to_nat (digest_size (hash_digest s)) - length _)%nat with 0%nat
    by lia.
  cbn [firstn]. rewrite app_nil_r. apply firstn_all2. lia.
Qed.

(** C9: [HashDRBG._generate] tests [data is not None], so a served
    [generate(count, b'')] runs the additional-input step.  With
    [w = digest(0x02 ‖ V ‖ b'')] and [V' = (V + w) mod 2^seedlen], its
    output is the first [count] bytes of [digest(V') ‖ digest(V' + 1) ‖ ...]
    and its new [V] is computed from [V'], where [generate(count, None)]
    from the same state produces both from [V].  [V'] differs from [V]
    exactly when [w] is not zero, and the two outputs differ whenever a
    whole digest block is requested and the digests of [V'] and [V] differ.
    [HMACDRBG._generate] tests [if data:], so for it [generate(count, b'')]
    is [generate(count, None)] in every state, and a served call of either
    starts the chain from the stored [(Key, V)] without an update and
    closes with the one-round update that carries no data. *)
Theorem generate_empty_additional_input (count : Z) (s : HashDRBG)
    (h : HMACDRBG) :
  wf_HashDRBG s -> wf_HMACDRBG h -> 0 < count < 2 ^ 16 ->
  hash_reseed_counter s <= RESEED_INTERVAL ->
  hmac_reseed_counter h <= RESEED_INTERVAL ->
  let digest := hash_digest s in
  let sl := hash_seedlen s in
  let m := Z.to_nat (ceil_div (8 * count) (hash_outlen s)) in
  let v := bytes2long (hash_V s) in
  let w := hashlib digest (x02 :: hash_V s ++ []) in
  let v' := (v + bytes2long w) mod 2 ^ sl in
  let next u :=
    (u + bytes2long (hashlib digest (x03 :: encode (sl / 8) u))
     + bytes2long (hash_C s) + hash_reseed_counter s) mod 2 ^ sl in
  let served u :=
    (Ok (slice_to (hashgen_stream digest sl u m) count),
     set_reseed_counter (Hash_DRBG (hash_set_V s (encode (sl / 8) (next u))))
       (hash_reseed_counter s + 1)) in
  let n := Z.to_nat (ceil_div count (digest_size (hmac_digest h))) in
  let Vn := hmac_iter (hmac_digest h) (hmac_key h) (hmac_V h) n in
  let K1 := hmac_new (hmac_digest h) (hmac_key h) (Vn ++ [x00]) in
  generate count (Some []) (Hash_DRBG s) = served v' /\
  generate count None (Hash_DRBG s) = served v /\
  (v' <> v <-> bytes2long w <> 0) /\
  (digest_size digest <= count ->
   hashlib digest (encode (sl / 8) v') <> hashlib digest (hash_V s) ->
   fst (generate count (Some []) (Hash_DRBG s))
   <> fst (generate count None (Hash_DRBG s))) /\
  (forall c h',
     generate c (Some []) (HMAC_DRBG h') = generate c None (HMAC_DRBG h')) /\
  generate count (Some []) (HMAC_DRBG h)
  = (Ok (slice_to (hmac_chain (hmac_digest h) (hmac_key h) (hmac_V h) n) count),
     set_reseed_counter
       (HMAC_DRBG (hmac_set_state h K1 (hmac_new (hmac_digest h) K1 Vn)))
       (hmac_reseed_counter h + 1)).
Proof.
  intros Hwf Hwfh Hc Hr Hrh digest sl m v w v' next served n Vn K1.
  pose proof (wf_HashDRBG_seedlen s Hwf) as Hsl.
  pose proof Hwf as (Hd & _ & _ & _ & HV & _).
  assert (0 < 2 ^ sl) as HM by (apply Z.pow_pos_nonneg; destruct Hsl; lia).
  assert (bytes2long w < 2 ^ sl) as Hwlt
    by exact (proj1 (digest_below_seed s (x02 :: hash_V s ++ []) Hwf)).
  assert (v < 2 ^ sl) as Hvlt
    by exact (proj2 (digest_below_seed s (x02 :: hash_V s ++ []) Hwf)).
  assert (0 <= bytes2long w) as Hw0 by exact (proj1 (bytes2long_range w)).
  assert (0 <= v) as Hv0 by exact (proj1 (bytes2long_range (hash_V s))).
  assert (0 <= v' < 2 ^ sl) as Hv' by (apply Z.mod_pos_bound; exact HM).
  assert (HashDRBG_working_V (Some []) s = encode (sl / 8) v') as Hwork
    by reflexivity.
  assert (encode (sl / 8) v = hash_V s) as Henc.
  { unfold v, sl. rewrite <- HV. apply encode_bytes2long.
    rewrite HV. destruct Hsl as [-> | ->]; cbn; lia. }
  assert (generate count (Some []) (Hash_DRBG s) = served v') as Hempty.
  { rewrite (generate_Hash_served count (Some []) s Hwf Hc
               no_data_within_limit Hr).
    rewrite Hwork, (bytes2long_encode (sl / 8) v') by lia. reflexivity. }
  assert (generate count None (Hash_DRBG s) = served v) as Hnone.
  { rewrite (generate_Hash_served count None s Hwf Hc
               no_data_within_limit Hr).
    cbn [HashDRBG_working_V]. unfold served, next. rewrite Henc.
    reflexivity. }
  split; [exact Hempty|]. split; [exact Hnone|]. split; [|split; [|split]].
  - split.
    + intros Hne Hz. apply Hne. unfold v'. rewrite Hz, Z.add_0_r.
      apply Z.mod_small. lia.
    + intros Hz. unfold v'. apply add_mod_changes; lia.
  - intros Hcount Hblocks Hout. rewrite Hempty, Hnone in Hout.
    unfold served in Hout. cbn [fst] in Hout. apply Ok_inj in Hout.
    apply Hblocks. rewrite <- Henc.
    pose proof (hashgen_stream_first_block s count v' Hwf Hv' Hcount) as B1.
    pose proof (hashgen_stream_first_block s count v Hwf (conj Hv0 Hvlt)
                  Hcount) as B2.
    etransitivity; [symmetry; exact B1|]. etransitivity; [|exact B2].
    f_equal. exact Hout.
  - intros c h'. reflexivity.
  - exact (generate_HMAC_no_data count (Some []) h eq_refl Hwfh Hc Hrh).
Qed.

End Empty_additional_input.

(** One whole SHA-1 block from the fresh Hash_DRBG over the stand-in
    digest: the empty additional input changes the output. *)
Lemma generate_empty_additional_input_witness :
  fst (generate (P := test_primitives) 20 (Some []) (Hash_DRBG example_hash))
  <> fst (generate (P := test_primitives) 20 None (Hash_DRBG example_hash)).
Proof.
  refine (proj1 (proj2 (proj2 (proj2
            (generate_empty_additional_input (P := test_primitives)
               (PS := test_primitives_spec) 20 example_hash example_hmac
               example_hash_wf example_hmac_wf _ _ _)))) _ _).
  - split; reflexivity.
  - vm_compute. discriminate.
  - vm_compute. discriminate.
  - vm_compute. discriminate.
  - vm_compute. intros H. discriminate H.
Defined.

(** ** Determinism *)

Section Determinism.

Context {P : Primitives}.

(** The constructors and [generate] never call [os.urandom]. *)
Lemma construct_entropy_source (u : nat -> Z -> bytes) (c : constructor_call) :
  construct (P := with_os_urandom P u) c = construct (P := P) c.
Proof. destruct c; reflexivity. Qed.

Lemma generate_entropy_source (u : nat -> Z -> bytes) (count : Z)
    (data : option bytes) (g : DRBG) :
  generate (P := with_os_urandom P u) count data g
  = generate (P := P) count data g.
Proof. destruct g; reflexivity. Qed.

Lemma generate_all_entropy_source (u : nat -> Z -> bytes)
    (calls : list (Z * option bytes)) :
  forall g,
    generate_all (P := with_os_urandom P u) calls g
    = generate_all (P := P) calls g.
Proof.
  induction calls as [|[count data] calls IH]; intros g; [reflexivity|].
  cbn [generate_all]. rewrite generate_entropy_source.
  destruct (generate count data g) as [r g']. rewrite IH. reflexivity.
Qed.

(** [if data:] sees the bytes only. *)
Lemma truthy_or_empty (d : option bytes) :
  truthy d = match or_empty d with [] => false | _ :: _ => true end.
Proof. destruct d as [[|x d]|]; reflexivity. Qed.

Lemma CTRDRBG_init_same (n1 n2 : string) (e : bytes) (d1 d2 : option bytes) :
  lower n1 = lower n2 -> or_empty d1 = or_empty d2 ->
  CTRDRBG_init n1 e d1 = CTRDRBG_init n2 e d2.
Proof.
  intros Hn Hd. unfold CTRDRBG_init. cbv zeta.
  rewrite (truthy_or_empty d1), (truthy_or_empty d2), Hn, Hd. reflexivity.
Qed.

Lemma HashDRBG_init_same (n : string) (e o : bytes) (d1 d2 : option bytes) :
  or_empty d1 = or_empty d2 ->
  HashDRBG_init n e o d1 = HashDRBG_init n e o d2.
Proof. intros Hd. unfold HashDRBG_init. cbv zeta. rewrite Hd. reflexivity. Qed.

Lemma HMACDRBG_init_same (n : string) (e o : bytes) (d1 d2 : option bytes) :
  or_empty d1 = or_empty d2 ->
  HMACDRBG_init n e o d1 = HMACDRBG_init n e o d2.
Proof.
  intros Hd. unfold HMACDRBG_init. cbv zeta.
  set (n' := if endswith n "hmac" then _ else n).
  rewrite (HMACDRBG_update_concat n' _ _ [Some e; Some o; d1]).
  rewrite (HMACDRBG_update_concat n' _ _ [Some e; Some o; d2]).
  cbn [map concat or_empty]. rewrite Hd. reflexivity.
Qed.

(** A name [HMACDRBG] accepts is a digest name, bare or with [hmac]. *)
Lemma HMACDRBG_init_name (n : string) (e o : bytes) (d : option bytes)
    (s : HMACDRBG) :
  HMACDRBG_init n e o d = Ok s ->
  exists digest,
    str_in digest DIGESTS = true /\
    (n = digest \/ n = (digest ++ "hmac")%string).
Proof.
  unfold HMACDRBG_init. cbv zeta. intros H.
  destruct (endswith n "hmac") eqn:He.
  - apply endswith_split in He.
    match type of H with (if negb (str_in ?x DIGESTS) then _ else _) = _ =>
      destruct (str_in x DIGESTS) eqn:Hd; [|discriminate]; exists x end.
    split; [exact Hd|right; exact He].
  - destruct (str_in n DIGESTS) eqn:Hd; [|discriminate].
    exists n. split; [exact Hd|left; reflexivity].
Qed.

(** The suffix is stripped once. *)
Lemma HMACDRBG_init_suffix (digest : string) (e o : bytes) (d : option bytes) :
  str_in digest DIGESTS = true ->
  HMACDRBG_init (digest ++ "hmac") e o d = HMACDRBG_init digest e o d /\
  forall s, HMACDRBG_init ((digest ++ "hmac") ++ "hmac") e o d <> Ok s.
Proof.
  intros Hd.
  destruct (DIGESTS_cases digest Hd) as [->|[->|[->|[->| ->]]]];
    (split; [reflexivity|intros s; discriminate]).
Qed.

(** With and without the suffix, when both calls return. *)
Lemma HMACDRBG_init_suffixed (n : string) (e o : bytes) (d : option bytes)
    (s s' : HMACDRBG) :
  HMACDRBG_init n e o d = Ok s ->
  HMACDRBG_init (n ++ "hmac") e o d = Ok s' -> s = s'.
Proof.
  intros H H'.
  destruct (HMACDRBG_init_name _ _ _ _ _ H) as (digest & Hd & [->| ->]).
  - rewrite (proj1 (HMACDRBG_init_suffix digest e o d Hd)), H in H'.
    apply Ok_inj in H'. exact H'.
  - exfalso. exact (proj2 (HMACDRBG_init_suffix digest e o d Hd) s' H').
Qed.

(** [generate] returns an instance of the class it was called on. *)
Lemma generate_distinguishes_empty (count : Z) (data : option bytes)
    (g : DRBG) :
  distinguishes_empty (snd (generate count data g)) = distinguishes_empty g.
Proof.
  pose proof (generate_parameters count data g) as H.
  remember (snd (generate count data g)) as g' eqn:E. clear E.
  destruct g, g'; cbn [parameters_of] in H; try discriminate; reflexivity.
Qed.

(** One call: the same count and the same additional input. *)
Lemma generate_same_call (g : DRBG) (a b : Z * option bytes) :
  same_call g a b -> generate (fst a) (snd a) g = generate (fst b) (snd b) g.
Proof.
  destruct a as [c1 d1], b as [c2 d2]. unfold same_call. cbn [fst snd].
  intros [-> [-> | [Hk Hd]]]; [reflexivity|].
  destruct d1 as [[|x d1]|], d2 as [[|y d2]|]; cbn [or_empty] in Hd;
    try discriminate; try reflexivity.
  - destruct g; try discriminate; reflexivity.
  - injection Hd as -> ->. reflexivity.
  - destruct g; try discriminate; reflexivity.
Qed.

Lemma generate_all_same_calls (calls1 calls2 : list (Z * option bytes))
    (g : DRBG) :
  Forall2 (same_call g) calls1 calls2 ->
  forall g0, distinguishes_empty g0 = distinguishes_empty g ->
  generate_all calls1 g0 = generate_all calls2 g0.
Proof.
  induction 1 as [|a b calls1 calls2 Hab _ IH]; intros g0 Hk; [reflexivity|].
  assert (same_call g0 a b) as Hab0.
  { unfold same_call in *. rewrite Hk. exact Hab. }
  destruct a as [c1 d1], b as [c2 d2]. cbn [generate_all].
  pose proof (generate_same_call g0 _ _ Hab0) as Hg. cbn [fst snd] in Hg.
  rewrite Hg.
  pose proof (generate_distinguishes_empty c2 d2 g0) as Hk'.
  destruct (generate c2 d2 g0) as [r g']. cbn [snd] in Hk'.
  rewrite (IH g') by congruence. reflexivity.
Qed.

(** C8: the generator a constructor builds and every output it gives are
    determined by the algorithm chosen, the bytes of entropy, nonce and
    personalization, and the counts and additional inputs of the
    [generate] calls.  Two constructor calls that choose the same
    algorithm (the cipher name in any case, the digest name with or
    without [hmac]) with the same entropy and nonce and the same
    personalization bytes (absent or empty alike) return the same
    generator, and two sequences of [generate] calls with the same counts
    and additional inputs (for CTR_DRBG and HMAC_DRBG, absent or empty
    alike) are answered with the same outcomes, byte for byte, whatever the
    system entropy source returns in the two runs.  Identical constructor
    arguments and identical call sequences are the special case. *)
Theorem generate_deterministic (u : nat -> Z -> bytes)
    (c1 c2 : constructor_call) (g1 g2 : DRBG)
    (calls1 calls2 : list (Z * option bytes)) :
  same_construction c1 c2 ->
  construct (P := P) c1 = Ok g1 ->
  construct (P := with_os_urandom P u) c2 = Ok g2 ->
  Forall2 (same_call g1) calls1 calls2 ->
  g1 = g2 /\
  generate_all (P := P) calls1 g1
  = generate_all (P := with_os_urandom P u) calls2 g2.
Proof.
  intros Hsame H1 H2 Hcalls. rewrite construct_entropy_source in H2.
  assert (g1 = g2) as <-.
  { destruct c1 as [n1 e1 d1|n1 e1 o1 d1|n1 e1 o1 d1],
             c2 as [n2 e2 d2|n2 e2 o2 d2|n2 e2 o2 d2];
      cbn [same_construction] in Hsame; try contradiction;
      cbn [construct] in H1, H2.
    - destruct Hsame as (Hn & <- & Hd).
      rewrite (CTRDRBG_init_same n1 n2 e1 d1 d2 Hn Hd) in H1.
      apply Ok_inj. rewrite <- H1, <- H2. reflexivity.
    - destruct Hsame as (<- & <- & <- & Hd).
      rewrite (HashDRBG_init_same n1 e1 o1 d1 d2 Hd) in H1.
      apply Ok_inj. rewrite <- H1, <- H2. reflexivity.
    - destruct Hsame as (Hn & <- & <- & Hd).
      rewrite (HMACDRBG_init_same n1 e1 o1 d1 d2 Hd) in H1.
      unfold bind in H1, H2.
      destruct (HMACDRBG_init n1 e1 o1 d2) as [s1| |] eqn:E1;
        try discriminate.
      destruct (HMACDRBG_init n2 e1 o1 d2) as [s2| |] eqn:E2;
        try discriminate.
      apply Ok_inj in H1, H2. subst g1 g2. f_equal.
      destruct Hn as [Hn|[Hn|Hn]]; subst.
      + congruence.
      + symmetry. exact (HMACDRBG_init_suffixed _ _ _ _ _ _ E2 E1).
      + exact (HMACDRBG_init_suffixed _ _ _ _ _ _ E1 E2). }
  split; [reflexivity|].
  rewrite generate_all_entropy_source.
  exact (generate_all_same_calls calls1 calls2 g1 Hcalls g1 eq_refl).
Qed.

End Determinism.

(** AES-256 named in two cases, with absent and with empty personalization
    and additional input, over two entropy sources. *)
Lemma generate_deterministic_witness :
  generate_all (P := test_primitives)
    [(3, None); (4, Some [x01]); (2, None)] (CTR_DRBG example_ctr256)
  = generate_all (P := with_os_urandom test_primitives (fun _ n => zeros n))
      [(3, Some []); (4, Some [x01]); (2, None)] (CTR_DRBG example_ctr256).
Proof.
  refine (proj2 (generate_deterministic (P := test_primitives)
                   (fun _ n => zeros n)
                   (New_CTRDRBG "AES256" (zeros 48) None)
                   (New_CTRDRBG "aes256" (zeros 48) (Some []))
                   (CTR_DRBG example_ctr256) (CTR_DRBG example_ctr256)
                   [(3, None); (4, Some [x01]); (2, None)]
                   [(3, Some []); (4, Some [x01]); (2, None)] _ _ _ _)).
  - repeat split; reflexivity.
  - vm_compute. reflexivity.
  - vm_compute. reflexivity.
  - repeat constructor; cbn [fst snd]; right; split; reflexivity.
Defined.
